(** * pdf-brain: the clustering engine and the cluster-to-concept mapper

    A shallow embedding of [src/services/Clustering.ts] (k-means, k-means++
    seeding, mini-batch k-means, BIC model selection, soft clustering) and of
    [src/services/ClusterConceptMapper.ts] (cosine similarity, [mapCluster]),
    followed by the properties the specification states about them and by
    further properties of the same code: edge cases, invariants and what the
    numeric utilities compute.

    JavaScript numbers are kept behind an interface, [Number], with two
    instances: IEEE-754 binary64 (Rocq's primitive floats, which compute) and
    exact extended reals (no rounding).  Whatever is proved for every
    [Number] holds for both. *)

From Stdlib Require Import String Ascii DecimalString.
From Stdlib Require Import List ZArith Lia Bool Arith FinFun.
From Stdlib Require Import Floats.
From Stdlib Require Import Reals Lra.
Import ListNotations.

Set Implicit Arguments.

(* Decimal literals denote the nearest binary64 value, as they do in
   JavaScript. *)
Set Warnings "-inexact-float".

Local Open Scope string_scope.
Local Open Scope list_scope.
Local Open Scope nat_scope.

(* ================================================================== *)
(** * JavaScript numbers *)
(* ================================================================== *)

(** The operations the two services apply to numbers.  [floor] is
    [Math.floor] read as an integer ([None] for NaN and the infinities);
    [lit m e] is the decimal literal [m]e[e]; [fmin] and [fmax] are the
    two-argument [Math.min] and [Math.max]. *)
Class Number : Type := {
  num : Type;
  of_Z : Z -> num;
  lit : Z -> Z -> num;
  infinity : num;
  NaN : num;
  add : num -> num -> num;
  sub : num -> num -> num;
  mul : num -> num -> num;
  div : num -> num -> num;
  neg : num -> num;
  sqrt : num -> num;
  ltb : num -> num -> bool;
  leb : num -> num -> bool;
  eqb : num -> num -> bool;
  fmin : num -> num -> num;
  fmax : num -> num -> num;
  floor : num -> option Z
}.

(** [Math.exp] and [Math.log], which ECMAScript leaves
    implementation-approximated. *)
Class Elementary (N : Number) : Type := {
  exp : num -> num;
  ln : num -> num
}.

Declare Scope js_scope.
Delimit Scope js_scope with js.
Infix "+" := add : js_scope.
Infix "-" := sub : js_scope.
Infix "*" := mul : js_scope.
Infix "/" := div : js_scope.
Infix "<?" := ltb : js_scope.
Infix "<=?" := leb : js_scope.
Notation "x >=? y" := (leb y x) (at level 70) : js_scope.
Notation "x >? y" := (ltb y x) (at level 70) : js_scope.

(** ** IEEE-754 binary64 *)

Definition float_of_Z (z : Z) : float :=
  match z with
  | Z0 => PrimFloat.zero
  | Zpos _ => PrimFloat.of_uint63 (Uint63.of_Z z)
  | Zneg p => PrimFloat.opp (PrimFloat.of_uint63 (Uint63.of_Z (Zpos p)))
  end.

Definition float_lit (m e : Z) : float :=
  if (0 <=? e)%Z then float_of_Z (m * 10 ^ e)
  else PrimFloat.div (float_of_Z m) (float_of_Z (10 ^ (- e))).

Definition float_floor (x : float) : option Z :=
  match Prim2SF x with
  | S754_zero _ => Some 0%Z
  | S754_finite s m e => Some (Z.shiftl (if s then Zneg m else Zpos m) e)
  | S754_infinity _ => None
  | S754_nan => None
  end.

Definition float_is_negzero (x : float) : bool :=
  match Prim2SF x with S754_zero true => true | _ => false end.

Definition float_min (a b : float) : float :=
  if PrimFloat.is_nan a then a else if PrimFloat.is_nan b then b
  else if PrimFloat.ltb b a then b
  else if PrimFloat.ltb a b then a
  else if float_is_negzero b then b else a.

Definition float_max (a b : float) : float :=
  if PrimFloat.is_nan a then a else if PrimFloat.is_nan b then b
  else if PrimFloat.ltb a b then b
  else if PrimFloat.ltb b a then a
  else if float_is_negzero a then b else a.

Definition float_number : Number := {|
  num := float;
  of_Z := float_of_Z;
  lit := float_lit;
  infinity := PrimFloat.infinity;
  NaN := PrimFloat.nan;
  add := PrimFloat.add;
  sub := PrimFloat.sub;
  mul := PrimFloat.mul;
  div := PrimFloat.div;
  neg := PrimFloat.opp;
  sqrt := PrimFloat.sqrt;
  ltb := PrimFloat.ltb;
  leb := PrimFloat.leb;
  eqb := PrimFloat.eqb;
  fmin := float_min;
  fmax := float_max;
  floor := float_floor
|}.

(** ** Exact extended reals

    The same special values as binary64 (the infinities and NaN) around the
    real line, with no rounding, no overflow and a single zero. *)

Inductive xreal : Type :=
| Fin (r : R)
| PInf
| NInf
| XNaN.

Definition Rltb (a b : R) : bool := if Rlt_dec a b then true else false.
Definition Rleb (a b : R) : bool := if Rle_dec a b then true else false.
Definition Reqb (a b : R) : bool := if Req_dec_T a b then true else false.

Definition xneg (x : xreal) : xreal :=
  match x with
  | Fin r => Fin (- r)
  | PInf => NInf
  | NInf => PInf
  | XNaN => XNaN
  end.

Definition xadd (x y : xreal) : xreal :=
  match x, y with
  | Fin a, Fin b => Fin (a + b)
  | XNaN, _ | _, XNaN => XNaN
  | PInf, NInf | NInf, PInf => XNaN
  | PInf, _ | _, PInf => PInf
  | NInf, _ | _, NInf => NInf
  end.

Definition xsub (x y : xreal) : xreal := xadd x (xneg y).

(** The sign of an infinite product or quotient. *)
Definition xsigned (positive : bool) : xreal := if positive then PInf else NInf.

Definition xsign (x : xreal) : option bool :=
  match x with
  | Fin r => if Rltb 0 r then Some true else if Rltb r 0 then Some false else None
  | PInf => Some true
  | NInf => Some false
  | XNaN => None
  end.

Definition xmul (x y : xreal) : xreal :=
  match x, y with
  | Fin a, Fin b => Fin (a * b)
  | XNaN, _ | _, XNaN => XNaN
  | _, _ =>
    match xsign x, xsign y with
    | Some s, Some t => xsigned (Bool.eqb s t)
    | _, _ => XNaN
    end
  end.

Definition xdiv (x y : xreal) : xreal :=
  match x, y with
  | XNaN, _ | _, XNaN => XNaN
  | Fin a, Fin b =>
    if Reqb b 0 then
      match xsign x with Some s => xsigned s | None => XNaN end
    else Fin (a / b)
  | Fin _, _ => Fin 0
  | _, Fin b =>
    match xsign x with
    | Some s => xsigned (Bool.eqb s (negb (Rltb b 0)))
    | None => XNaN
    end
  | _, _ => XNaN
  end.

Definition xsqrt (x : xreal) : xreal :=
  match x with
  | Fin r => if Rltb r 0 then XNaN else Fin (R_sqrt.sqrt r)
  | PInf => PInf
  | _ => XNaN
  end.

Definition xltb (x y : xreal) : bool :=
  match x, y with
  | Fin a, Fin b => Rltb a b
  | XNaN, _ | _, XNaN => false
  | _, NInf => false
  | PInf, _ => false
  | _, _ => true
  end.

Definition xeqb (x y : xreal) : bool :=
  match x, y with
  | Fin a, Fin b => Reqb a b
  | PInf, PInf | NInf, NInf => true
  | _, _ => false
  end.

Definition xleb (x y : xreal) : bool := xltb x y || xeqb x y.

Definition xmin (x y : xreal) : xreal :=
  match x, y with
  | XNaN, _ | _, XNaN => XNaN
  | _, _ => if xltb y x then y else x
  end.

Definition xmax (x y : xreal) : xreal :=
  match x, y with
  | XNaN, _ | _, XNaN => XNaN
  | _, _ => if xltb x y then y else x
  end.

Definition xfloor (x : xreal) : option Z :=
  match x with
  | Fin r => Some (Int_part r)
  | _ => None
  end.

Definition xlit (m e : Z) : xreal := Fin (IZR m * powerRZ 10 e).

Definition xexp (x : xreal) : xreal :=
  match x with
  | Fin r => Fin (Rtrigo_def.exp r)
  | PInf => PInf
  | NInf => Fin 0
  | XNaN => XNaN
  end.

Definition xln (x : xreal) : xreal :=
  match x with
  | Fin r => if Rltb r 0 then XNaN else if Reqb r 0 then NInf else Fin (Rpower.ln r)
  | PInf => PInf
  | _ => XNaN
  end.

Definition exact_number : Number := {|
  num := xreal;
  of_Z := fun z => Fin (IZR z);
  lit := xlit;
  infinity := PInf;
  NaN := XNaN;
  add := xadd;
  sub := xsub;
  mul := xmul;
  div := xdiv;
  neg := xneg;
  sqrt := xsqrt;
  ltb := xltb;
  leb := xleb;
  eqb := xeqb;
  fmin := xmin;
  fmax := xmax;
  floor := xfloor
|}.

Definition exact_elementary : Elementary exact_number := {|
  exp := xexp : @num exact_number -> @num exact_number;
  ln := xln : @num exact_number -> @num exact_number
|}.

(* ================================================================== *)
(** * Exceptions, results and the random source *)
(* ================================================================== *)

(** What the code throws: [new Error(msg)] explicitly, a [TypeError] when a
    property of [undefined] is read or [undefined] is spread. *)
Inductive exn : Type :=
| JsError (msg : string)
| JsTypeError (msg : string).

(** [String(e)] for a thrown value. *)
Definition String_of_exn (e : exn) : string :=
  match e with
  | JsError msg => String.append "Error: " msg
  | JsTypeError msg => String.append "TypeError: " msg
  end.

(** Code that draws nothing from [Math.random]: a value or a throw. *)
Inductive result (A : Type) : Type :=
| Ok (a : A)
| Raise (e : exn).
Arguments Ok {A} a.
Arguments Raise {A} e.

Definition rbind {A B} (r : result A) (k : A -> result B) : result B :=
  match r with
  | Ok a => k a
  | Raise e => Raise e
  end.

Notation "'let?' x := r 'in' k" := (rbind r (fun x => k))
  (at level 10, x pattern, r at level 100, k at level 200).

(** Code that calls [Math.random]: the state is the number of draws made so
    far, and the run ends with a value, with a throw, or never ([Diverge],
    when a [while] loop is cut off by its fuel). *)
Inductive outcome (E A : Type) : Type :=
| Return (a : A) (pos : nat)
| Throw (e : E) (pos : nat)
| Diverge.
Arguments Return {E A} a pos.
Arguments Throw {E A} e pos.
Arguments Diverge {E A}.

(** The outcome of an effect that draws nothing from [Math.random]. *)
Inductive effect (E A : Type) : Type :=
| Success (a : A)
| Failure (e : E).
Arguments Success {E A} a.
Arguments Failure {E A} e.

Definition M (A : Type) : Type := nat -> outcome exn A.

Definition ret {A} (a : A) : M A := fun pos => Return a pos.

Definition throw {A} (e : exn) : M A := fun pos => Throw e pos.

Definition bind {A B} (m : M A) (k : A -> M B) : M B :=
  fun pos =>
    match m pos with
    | Return a pos' => k a pos'
    | Throw e pos' => Throw e pos'
    | Diverge => Diverge
    end.

Notation "x <- m ;; k" := (bind m (fun x => k))
  (at level 200, m at level 100, k at level 200, right associativity).
Notation "' pat <- m ;; k" := (bind m (fun x => match x with pat => k end))
  (at level 10, pat pattern, m at level 100, k at level 200).

Definition lift {A} (r : result A) : M A :=
  match r with
  | Ok a => ret a
  | Raise e => throw e
  end.

(** [try { m } catch { h }]. *)
Definition try_catch {A} (m : M A) (h : exn -> M A) : M A :=
  fun pos =>
    match m pos with
    | Throw e pos' => h e pos'
    | o => o
    end.

(** [l[i]] where the element is then used as an object: reading past the end
    gives [undefined], and the use throws. *)
Definition lookup {A} (l : list A) (i : nat) : result A :=
  match nth_error l i with
  | Some x => Ok x
  | None => Raise (JsTypeError "undefined is not an object")
  end.

Fixpoint mapR {A B} (f : A -> result B) (l : list A) : result (list B) :=
  match l with
  | [] => Ok []
  | x :: l' =>
    let? y := f x in
    let? ys := mapR f l' in
    Ok (y :: ys)
  end.

(** Array callbacks that receive the index as well. *)
Fixpoint reducei {A B} (f : B -> A -> nat -> B) (l : list A) (i : nat) (acc : B) : B :=
  match l with
  | [] => acc
  | x :: l' => reducei f l' (S i) (f acc x i)
  end.

Fixpoint everyi {A} (p : A -> nat -> bool) (l : list A) (i : nat) : bool :=
  match l with
  | [] => true
  | x :: l' => p x i && everyi p l' (S i)
  end.

Fixpoint filteri {A} (p : A -> nat -> bool) (l : list A) (i : nat) : list A :=
  match l with
  | [] => []
  | x :: l' => if p x i then x :: filteri p l' (S i) else filteri p l' (S i)
  end.

Fixpoint mapi {A B} (f : A -> nat -> B) (l : list A) (i : nat) : list B :=
  match l with
  | [] => []
  | x :: l' => f x i :: mapi f l' (S i)
  end.

Fixpoint mapiR {A B} (f : A -> nat -> result B) (l : list A) (i : nat) : result (list B) :=
  match l with
  | [] => Ok []
  | x :: l' =>
    let? y := f x i in
    let? ys := mapiR f l' (S i) in
    Ok (y :: ys)
  end.

(** [l[i] = x] for an index that was read just before. *)
Fixpoint set_nth {A} (l : list A) (i : nat) (x : A) : list A :=
  match l, i with
  | [], _ => []
  | _ :: l', O => x :: l'
  | y :: l', S i' => y :: set_nth l' i' x
  end.

(* ================================================================== *)
(** * Clustering.ts *)
(* ================================================================== *)

Section Clustering.

Context {N : Number}.

Local Open Scope js_scope.

Definition vec : Type := list num.

Definition zero : num := of_Z 0.
Definition one : num := of_Z 1.
Definition of_nat (n : nat) : num := of_Z (Z.of_nat n).

(** [x ** 2]. *)
Definition pow2 (x : num) : num := x * x.

(** [Math.min(...l)] and [Math.max(...l)]. *)
Definition Math_min (l : list num) : num := fold_left fmin l infinity.
Definition Math_max (l : list num) : num := fold_left fmax l (neg infinity).

(** [b[i]] used as an operand: past the end it is [undefined], which
    arithmetic turns into NaN. *)
Definition operand (b : vec) (i : nat) : num := nth i b NaN.

(** ** Math utilities (lines 304-339) *)

Definition euclideanDistance (a b : vec) : num :=
  sqrt (reducei (fun sum val i => sum + pow2 (val - operand b i)) a 0%nat zero).

(** [euclideanDistance(a, l[i])]: when [l[i]] is [undefined] the callback of
    [a.reduce] throws at its first call, if there is one. *)
Definition distanceTo (a : vec) (b : option vec) : result num :=
  match b, a with
  | Some b, _ => Ok (euclideanDistance a b)
  | None, [] => Ok (sqrt zero)
  | None, _ :: _ => Raise (JsTypeError "undefined is not an object")
  end.

Definition meanVector (vectors : list vec) : vec :=
  match vectors with
  | [] => []
  | v0 :: _ =>
    let dims := length v0 in
    let mean :=
      fold_left (fun mean v => mapi (fun m i => m + operand v i) mean 0%nat)
                vectors (repeat zero dims) in
    map (fun x => x / of_nat (length vectors)) mean
  end.

(** [arraysEqual] is only applied to assignment vectors, whose entries are
    array indices. *)
Definition arraysEqual (a b : list nat) : bool :=
  (length a =? length b)%nat &&
  everyi (fun v i => match nth_error b i with
                     | Some w => (v =? w)%nat
                     | None => false
                     end) a 0%nat.

Definition softmax {E : Elementary N} (distances : list num) (temperature : num) : list num :=
  let scores := map (fun d => neg d / temperature) distances in
  let maxScore := Math_max scores in
  let expScores := map (fun s => exp (s - maxScore)) scores in
  let sumExp := fold_left add expScores zero in
  map (fun e => e / sumExp) expScores.

(** ** The random source *)

Variable random : nat -> num.

(** [Math.random()]: the next value of the source. *)
Definition Math_random : M num := fun pos => Return (random pos) (S pos).

(** [vectors[Math.floor(x)]], spread into a fresh array: a [TypeError] when
    the index is not one of the array. *)
Definition spread_at (vectors : list vec) (x : num) : result vec :=
  match floor x with
  | Some z =>
    if (z <? 0)%Z then Raise (JsTypeError "undefined is not iterable")
    else match nth_error vectors (Z.to_nat z) with
         | Some v => Ok v
         | None => Raise (JsTypeError "undefined is not iterable")
         end
  | None => Raise (JsTypeError "undefined is not iterable")
  end.

(** ** K-means (lines 348-435) *)

(** The nearest-centroid scan, written three times in the source (lines
    369-380, 569-580 and 609-620): [steps] iterations from index [i]. *)
Fixpoint nearestFrom (v : vec) (centroids : list vec) (i steps : nat)
         (minDist : num) (minIdx : nat) : result nat :=
  match steps with
  | O => Ok minIdx
  | S steps' =>
    let? dist := distanceTo v (nth_error centroids i) in
    if dist <? minDist then nearestFrom v centroids (S i) steps' dist i
    else nearestFrom v centroids (S i) steps' minDist minIdx
  end.

Definition nearest (centroids : list vec) (k : nat) (v : vec) : result nat :=
  nearestFrom v centroids 0 k infinity 0.

(** The inner loop of the seeding (lines 420-426): the first vector at which
    the running threshold drops to zero or below. *)
Fixpoint pickWeighted (vectors : list vec) (distances : list num) (j : nat)
         (threshold : num) : option vec :=
  match vectors with
  | [] => None
  | v :: vectors' =>
    let threshold := threshold - operand distances j in
    if threshold <=? zero then Some v
    else pickWeighted vectors' distances (S j) threshold
  end.

(** The loop [for (let i = 1; i < k; i++)] of the seeding, [steps] rounds. *)
Fixpoint seedRest (vectors : list vec) (steps : nat) (centroids : list vec)
  : M (list vec) :=
  match steps with
  | O => ret centroids
  | S steps' =>
    let distances :=
      map (fun v =>
             let minDist := Math_min (map (fun c => euclideanDistance v c) centroids) in
             minDist * minDist) vectors in
    let totalDist := fold_left add distances zero in
    r <- Math_random ;;
    let threshold := r * totalDist in
    match pickWeighted vectors distances 0 threshold with
    | Some v => seedRest vectors steps' (centroids ++ [v])
    | None =>
      r' <- Math_random ;;
      v <- lift (spread_at vectors (r' * of_nat (length vectors))) ;;
      seedRest vectors steps' (centroids ++ [v])
    end
  end.

Definition kMeansPlusPlusInit (vectors : list vec) (k : Z) : M (list vec) :=
  r <- Math_random ;;
  v <- lift (spread_at vectors (r * of_nat (length vectors))) ;;
  seedRest vectors (Z.to_nat (k - 1)) [v].

(** Lines 387-392: the centroid of every cluster that has members. *)
Definition updateCentroids (vectors : list vec) (k : nat) (assignments : list nat)
           (centroids : list vec) : list vec :=
  fold_left
    (fun centroids i =>
       let clusterVectors :=
         filteri (fun _ idx => match nth_error assignments idx with
                               | Some a => (a =? i)%nat
                               | None => false
                               end) vectors 0%nat in
       if (0 <? length clusterVectors)%nat
       then set_nth centroids i (meanVector clusterVectors)
       else centroids)
    (seq 0 k) centroids.

(** The loop [for (let iter = 0; iter < maxIterations; iter++)], [iters]
    rounds left. *)
Fixpoint kMeansLoop (vectors : list vec) (k iters : nat) (centroids : list vec)
         (assignments : list nat) : result (list vec * list nat) :=
  match iters with
  | O => Ok (centroids, assignments)
  | S iters' =>
    let? newAssignments := mapR (nearest centroids k) vectors in
    if arraysEqual assignments newAssignments then Ok (centroids, assignments)
    else
      kMeansLoop vectors k iters'
                 (updateCentroids vectors k newAssignments centroids)
                 newAssignments
  end.

(** A parameter with a default value. *)
Definition default {A} (d : A) (o : option A) : A :=
  match o with
  | Some a => a
  | None => d
  end.

Definition kMeans (vectors : list vec) (k : Z) (maxIterations : option Z)
  : M (list vec * list nat) :=
  let maxIterations := default 100%Z maxIterations in
  if (length vectors =? 0)%nat then throw (JsError "Cannot cluster empty vector array")
  else if (k <=? 0)%Z then throw (JsError "k must be positive")
  else if (k >? Z.of_nat (length vectors))%Z
       then throw (JsError "k cannot exceed number of vectors")
  else
    centroids <- kMeansPlusPlusInit vectors k ;;
    lift (kMeansLoop vectors (Z.to_nat k) (Z.to_nat maxIterations) centroids
                     (repeat 0%nat (length vectors))).


(** ** BIC (lines 451-474) *)

(** The loop of lines 462-464 from index [i] on. *)
Fixpoint rssFrom (vectors centroids : list vec) (assignments : list nat) (i : nat)
         (rss : num) : result num :=
  match vectors with
  | [] => Ok rss
  | v :: vectors' =>
    let c := match nth_error assignments i with
             | Some a => nth_error centroids a
             | None => None
             end in
    let? d := distanceTo v c in
    rssFrom vectors' centroids assignments (S i) (rss + pow2 d)
  end.

Definition calculateBIC {E : Elementary N} (vectors centroids : list vec)
           (assignments : list nat) : result num :=
  let n := length vectors in
  let numClusters := length centroids in
  let? v0 := lookup vectors 0 in
  let dims := length v0 in
  let? rss := rssFrom vectors centroids assignments 0 zero in
  let numParams :=
    (Z.of_nat numClusters * Z.of_nat dims + (Z.of_nat numClusters - 1))%Z in
  Ok (of_nat n * ln ((rss + lit 1 (-10)) / of_nat n) + of_Z numParams * ln (of_nat n)).

(** ** Mini-batch k-means (lines 483-623) *)

(** Lines 488-493 from centroid [i] on. *)
Fixpoint sumSqFrom (oldCentroids newCentroids : list vec) (i : nat) (sumSq : num)
  : result num :=
  match oldCentroids with
  | [] => Ok sumSq
  | oc :: oldCentroids' =>
    match nth_error newCentroids i, oc with
    | Some nc, _ =>
      sumSqFrom oldCentroids' newCentroids (S i)
                (reducei (fun sumSq x d =>
                            let diff := x - operand nc d in sumSq + diff * diff)
                         oc 0%nat sumSq)
    | None, [] => sumSqFrom oldCentroids' newCentroids (S i) sumSq
    | None, _ :: _ => Raise (JsTypeError "undefined is not an object")
    end
  end.

Definition centroidDelta (oldCentroids newCentroids : list vec) : result num :=
  let? sumSq := sumSqFrom oldCentroids newCentroids 0 zero in
  Ok (sqrt sumSq).

(** The sampling loop (lines 560-566), cut off after [fuel] draws.
    [batchSet] holds the elements of [batchIndices], so membership is tested
    on the latter.  A draw that [Math.floor] does not turn into an integer
    (NaN, an infinity: no value of [Math.random] gives one) is reported at
    once as the [TypeError] its use as an index raises on line 573. *)
Fixpoint sampleBatch (fuel : nat) (n : nat) (actualBatchSize : Z)
         (batchIndices : list Z) : M (list Z) :=
  if (Z.of_nat (length batchIndices) <? actualBatchSize)%Z then
    match fuel with
    | O => fun _ => Diverge
    | S fuel' =>
      r <- Math_random ;;
      match floor (r * of_nat n) with
      | None => throw (JsTypeError "undefined is not an object")
      | Some idx =>
        if existsb (Z.eqb idx) batchIndices
        then sampleBatch fuel' n actualBatchSize batchIndices
        else sampleBatch fuel' n actualBatchSize (batchIndices ++ [idx])
      end
    end
  else ret batchIndices.

(** [vectors[idx]] for a sampled index, used as an object. *)
Definition lookupZ {A} (l : list A) (idx : Z) : result A :=
  if (idx <? 0)%Z then Raise (JsTypeError "undefined is not an object")
  else lookup l (Z.to_nat idx).

(** Lines 591-594: [c = (1 - eta) * c + eta * x], coordinate by coordinate. *)
Definition moveToward (eta : num) (c x : vec) : vec :=
  mapi (fun cd d => (one - eta) * cd + eta * operand x d) c 0%nat.

(** Lines 583-595: the incremental update, one sampled point after the
    other. *)
Fixpoint updateBatch (vectors : list vec) (batch : list (Z * nat))
         (centroids : list vec) (centroidCounts : list nat)
  : result (list vec * list nat) :=
  match batch with
  | [] => Ok (centroids, centroidCounts)
  | (vectorIdx, clusterIdx) :: batch' =>
    let? count := lookup centroidCounts clusterIdx in
    let centroidCounts := set_nth centroidCounts clusterIdx (S count) in
    let eta := one / of_nat (S count) in
    let? c := lookup centroids clusterIdx in
    let? x := lookupZ vectors vectorIdx in
    updateBatch vectors batch' (set_nth centroids clusterIdx (moveToward eta c x))
                centroidCounts
  end.

(** The loop of lines 555-606: iteration [iter], [steps] iterations left. *)
Fixpoint miniBatchLoop (fuel : nat) (vectors : list vec) (k : nat)
         (actualBatchSize : Z) (iter steps : nat) (centroids : list vec)
         (centroidCounts : list nat) (previousCentroids : list vec)
  : M (list vec) :=
  match steps with
  | O => ret centroids
  | S steps' =>
    batchIndices <- sampleBatch fuel (length vectors) actualBatchSize [] ;;
    batchAssignments <-
      lift (mapR (fun idx => let? v := lookupZ vectors idx in nearest centroids k v)
                 batchIndices) ;;
    ' (centroids, centroidCounts) <-
      lift (updateBatch vectors (combine batchIndices batchAssignments)
                        centroids centroidCounts) ;;
    if ((iter mod 10 =? 0) && (0 <? iter))%nat then
      delta <- lift (centroidDelta previousCentroids centroids) ;;
      if delta <? lit 1 (-4) then ret centroids
      else miniBatchLoop fuel vectors k actualBatchSize (S iter) steps'
                         centroids centroidCounts centroids
    else miniBatchLoop fuel vectors k actualBatchSize (S iter) steps'
                       centroids centroidCounts previousCentroids
  end.

Definition miniBatchKMeans (fuel : nat) (vectors : list vec) (k : Z)
           (batchSize maxIterations : option Z) : M (list vec * list nat) :=
  let batchSize := default 100%Z batchSize in
  let maxIterations := default 100%Z maxIterations in
  if (length vectors =? 0)%nat then throw (JsError "Cannot cluster empty vector array")
  else if (k <=? 0)%Z then throw (JsError "k must be positive")
  else if (k >? Z.of_nat (length vectors))%Z
       then throw (JsError "k cannot exceed number of vectors")
  else
    let n := length vectors in
    let actualBatchSize := Z.min batchSize (Z.of_nat n) in
    centroids <- kMeansPlusPlusInit vectors k ;;
    let centroidCounts := repeat 0%nat (Z.to_nat k) in
    centroids <- miniBatchLoop fuel vectors (Z.to_nat k) actualBatchSize 0
                               (Z.to_nat maxIterations) centroids centroidCounts
                               centroids ;;
    assignments <- lift (mapR (nearest centroids (Z.to_nat k)) vectors) ;;
    ret (centroids, assignments).

(** ** Soft clustering (lines 635-672) *)

Record RawSoftAssignment : Type := {
  vectorIdx : nat;
  raw_clusterId : nat;
  raw_probability : num
}.

Definition softCluster {E : Elementary N} (vectors : list vec) (k : Z)
           (maxIterations : option Z) (temperature : option num)
  : M (list vec * list RawSoftAssignment) :=
  let temperature := default (lit 5 (-1)) temperature in
  ' (centroids, _) <- kMeans vectors k maxIterations ;;
  let softAssignments :=
    concat
      (mapi (fun v i =>
               let distances := map (fun c => euclideanDistance v c) centroids in
               let probs := softmax distances temperature in
               map (fun j => {| vectorIdx := i;
                                raw_clusterId := j;
                                raw_probability := operand probs j |})
                   (seq 0 (Z.to_nat k)))
            vectors 0%nat) in
  ret (centroids, softAssignments).

(** ** Service types (lines 134-256) *)

Record Embedding : Type := {
  id : string;
  vector : vec
}.

Record ClusterAssignment : Type := {
  ca_id : string;
  ca_clusterId : nat;
  ca_distance : num
}.

Record Cluster : Type := {
  cl_id : nat;
  cl_centroid : vec;
  cl_size : nat
}.

Record ClusterResult : Type := {
  clusters : list Cluster;
  assignments : list ClusterAssignment
}.

Record ClusterOptions : Type := {
  co_k : Z;
  co_maxIterations : option Z
}.

Record MiniBatchClusterOptions : Type := {
  mb_k : Z;
  mb_batchSize : option Z;
  mb_maxIterations : option Z
}.

Record SoftClusterAssignment : Type := {
  chunkId : string;
  clusterId : nat;
  probability : num
}.

Record ClusterCentroid : Type := {
  cc_clusterId : nat;
  cc_vector : vec
}.

Record Metadata : Type := {
  bicScores : option (list (Z * num));
  selectedK : option Z
}.

Record SoftClusterResult : Type := {
  numClusters : Z;
  softAssignments : list SoftClusterAssignment;
  centroids : list ClusterCentroid;
  metadata : option Metadata
}.

Record SoftClusterOptions : Type := {
  maxClusters : option Z;
  minProbability : option num;
  useBIC : option bool;
  so_maxIterations : option Z
}.

Record ClusteringError : Type := {
  reason : string
}.

(** [Effect.try({ try: ..., catch: (e) => new ClusteringError(String(e)) })]. *)
Definition Effect_try {A} (m : M A) : nat -> outcome ClusteringError A :=
  fun pos =>
    match m pos with
    | Return a pos' => Return a pos'
    | Throw e pos' => Throw {| reason := String_of_exn e |} pos'
    | Diverge => Diverge
    end.

(** ** Service implementation (lines 681-869) *)

(** Lines 697-715, shared by [cluster] and [clusterMiniBatch]. *)
Definition buildResult (embeddings : list Embedding) (vectors centroids : list vec)
           (assignments : list nat) : result ClusterResult :=
  let clusters :=
    mapi (fun centroid id =>
            {| cl_id := id;
               cl_centroid := centroid;
               cl_size := length (filter (fun a => (a =? id)%nat) assignments) |})
         centroids 0%nat in
  let? clusterAssignments :=
    mapiR (fun e idx =>
             let? a := lookup assignments idx in
             let? v := lookup vectors idx in
             let? d := distanceTo v (nth_error centroids a) in
             Ok {| ca_id := id e; ca_clusterId := a; ca_distance := d |})
          embeddings 0%nat in
  Ok {| clusters := clusters; assignments := clusterAssignments |}.

Definition cluster (embeddings : list Embedding) (options : ClusterOptions)
  : nat -> outcome ClusteringError ClusterResult :=
  Effect_try (
    let vectors := map vector embeddings in
    ' (centroids, assignments) <- kMeans vectors (co_k options) (co_maxIterations options) ;;
    lift (buildResult embeddings vectors centroids assignments)).

(** Lines 776-781: the run that scores candidate [k]. *)
Definition scoreCandidate {E : Elementary N} (vectors : list vec) (maxIterations : Z)
           (k : Z) : M num :=
  ' (centroids, assignments) <- kMeans vectors k (Some maxIterations) ;;
  lift (calculateBIC vectors centroids assignments).

(** The scan of lines 774-791 from candidate [k] on, [steps] candidates
    left.  Whatever the scoring run throws is caught and the candidate left
    out. *)
Fixpoint selectLoop {E : Elementary N} (vectors : list vec) (maxIterations : Z)
         (k : Z) (steps : nat) (bestK : Z) (bestBIC : num)
         (bicScores : list (Z * num)) : M (Z * num * list (Z * num)) :=
  match steps with
  | O => ret (bestK, bestBIC, bicScores)
  | S steps' =>
    scored <-
      try_catch
        (bic <- scoreCandidate vectors maxIterations k ;;
         ret (Some bic))
        (fun _ => ret None) ;;
    match scored with
    | Some bic =>
      let bicScores := bicScores ++ [(k, bic)] in
      if bic <? bestBIC
      then selectLoop vectors maxIterations (k + 1) steps' k bic bicScores
      else selectLoop vectors maxIterations (k + 1) steps' bestK bestBIC bicScores
    | None => selectLoop vectors maxIterations (k + 1) steps' bestK bestBIC bicScores
    end
  end.

(** Lines 749-755: the index and length of the first vector whose length is
    not [dims]. *)
Fixpoint firstMismatch (vectors : list vec) (i dims : nat) : option (nat * nat) :=
  match vectors with
  | [] => None
  | v :: vectors' =>
    if (length v =? dims)%nat then firstMismatch vectors' (S i) dims
    else Some (i, length v)
  end.

(** The text of the dimension error; numbers print in decimal. *)
Definition mismatchMessage (i len dims : nat) : string :=
  String.append "Dimension mismatch: vector "
    (String.append (NilEmpty.string_of_uint (Nat.to_uint i))
       (String.append " has "
          (String.append (NilEmpty.string_of_uint (Nat.to_uint len))
             (String.append " dims, expected "
                (NilEmpty.string_of_uint (Nat.to_uint dims)))))).

Definition clusterSoft {E : Elementary N} (embeddings : list Embedding)
           (options : SoftClusterOptions)
  : nat -> outcome ClusteringError SoftClusterResult :=
  Effect_try (
    match embeddings with
    | [] =>
      ret {| numClusters := 0;
             softAssignments := [];
             centroids := [];
             metadata := Some {| bicScores := None; selectedK := None |} |}
    | [e0] =>
      ret {| numClusters := 1;
             softAssignments :=
               [{| chunkId := id e0; clusterId := 0; probability := one |}];
             centroids := [{| cc_clusterId := 0; cc_vector := vector e0 |}];
             metadata := Some {| bicScores := None; selectedK := None |} |}
    | e0 :: _ =>
      let vectors := map vector embeddings in
      let dims := length (vector e0) in
      match firstMismatch (tl vectors) 1 dims with
      | Some (i, len) => throw (JsError (mismatchMessage i len dims))
      | None =>
        let maxClusters := default 10%Z (maxClusters options) in
        let minProbability := default (lit 1 (-2)) (minProbability options) in
        let useBIC := default true (useBIC options) in
        let maxIterations := default 100%Z (so_maxIterations options) in
        let maxK := Z.min maxClusters (Z.of_nat (length vectors)) in
        let minK := 1%Z in
        ' (bestK, _, bicScores) <-
          (if useBIC && (maxK >? 1)%Z
           then selectLoop vectors maxIterations minK (Z.to_nat maxK) 1%Z infinity []
           else ret (maxK, infinity, [])) ;;
        ' (centroids, rawAssignments) <-
          softCluster vectors bestK (Some maxIterations) None ;;
        softAssignments <-
          lift (mapR (fun a =>
                        let? e := lookup embeddings (vectorIdx a) in
                        Ok {| chunkId := id e;
                              clusterId := raw_clusterId a;
                              probability := raw_probability a |})
                     (filter (fun a => raw_probability a >=? minProbability)
                             rawAssignments)) ;;
        let clusterCentroids :=
          mapi (fun vector idx => {| cc_clusterId := idx; cc_vector := vector |})
               centroids 0%nat in
        ret {| numClusters := bestK;
               softAssignments := softAssignments;
               centroids := clusterCentroids;
               metadata :=
                 if useBIC
                 then Some {| bicScores := Some bicScores; selectedK := Some bestK |}
                 else None |}
      end
    end).

Definition clusterMiniBatch (fuel : nat) (embeddings : list Embedding)
           (options : MiniBatchClusterOptions)
  : nat -> outcome ClusteringError ClusterResult :=
  Effect_try (
    let vectors := map vector embeddings in
    let batchSize := default 100%Z (mb_batchSize options) in
    let maxIterations := default 100%Z (mb_maxIterations options) in
    ' (centroids, assignments) <-
      miniBatchKMeans fuel vectors (mb_k options) (Some batchSize) (Some maxIterations) ;;
    lift (buildResult embeddings vectors centroids assignments)).

End Clustering.

(* ================================================================== *)
(** * ClusterConceptMapper.ts *)
(* ================================================================== *)

Section ConceptMapper.

Context {N : Number}.

Local Open Scope js_scope.

Record ClusterInput : Type := {
  ci_id : Z;
  summary : string;
  ci_centroid : vec
}.

Record ConceptInput : Type := {
  concept_id : string;
  label : string;
  embedding : vec
}.

Record MapResult : Type := {
  mr_clusterId : Z;
  matched : bool;
  conceptId : option string;
  confidence : option num;
  suggestedLabel : option string
}.

Record MapOptions : Type := {
  threshold : num
}.

Record ClusterConceptMapperError : Type := {
  mapper_reason : string
}.

(** Lines 63-74.  The three accumulators advance together over [a]. *)
Definition cosineSimilarity (a b : vec) : num :=
  if negb (length a =? length b)%nat then zero
  else
    let '(dotProduct, normA, normB) :=
      reducei (fun '(dotProduct, normA, normB) ai i =>
                 (dotProduct + ai * operand b i,
                  normA + ai * ai,
                  normB + operand b i * operand b i))
              a 0%nat (zero, zero, zero) in
    dotProduct / (sqrt normA * sqrt normB).

(** Lines 83-95: the scan for the best match, [bestMatch] being [null] or an
    identifier with its similarity. *)
Fixpoint scanConcepts (centroid : vec) (threshold : num) (concepts : list ConceptInput)
         (bestMatch : option (string * num)) : option (string * num) :=
  match concepts with
  | [] => bestMatch
  | concept :: concepts' =>
    let similarity := cosineSimilarity centroid (embedding concept) in
    let bestMatch :=
      if similarity >=? threshold then
        match bestMatch with
        | None => Some (concept_id concept, similarity)
        | Some (_, best) =>
          if similarity >? best then Some (concept_id concept, similarity)
          else bestMatch
        end
      else bestMatch in
    scanConcepts centroid threshold concepts' bestMatch
  end.

Definition isTerminator (c : ascii) : bool :=
  (Ascii.eqb c "." || Ascii.eqb c "!" || Ascii.eqb c "?")%bool.

(** [s.split(/[.!?]/)[0]]: the text before the first terminator.  A
    character stands for one UTF-16 code unit. *)
Fixpoint firstSentence (s : string) : string :=
  match s with
  | EmptyString => EmptyString
  | String c s' => if isTerminator c then EmptyString else String c (firstSentence s')
  end.

(** [s.slice(0, n)]. *)
Fixpoint slice0 (n : nat) (s : string) : string :=
  match n, s with
  | O, _ => EmptyString
  | _, EmptyString => EmptyString
  | S n', String c s' => String c (slice0 n' s')
  end.

(** [Effect.try] with [catch: (e) => new ClusterConceptMapperError(String(e))]. *)
Definition Effect_try_mapper {A} (r : result A) : effect ClusterConceptMapperError A :=
  match r with
  | Ok a => Success a
  | Raise e => Failure {| mapper_reason := String_of_exn e |}
  end.

(** The body of the [try] block (lines 83-114). *)
Definition mapClusterBody (cluster : ClusterInput) (concepts : list ConceptInput)
           (options : MapOptions) : result MapResult :=
  match scanConcepts (ci_centroid cluster) (threshold options) concepts None with
  | Some (cid, similarity) =>
    Ok {| mr_clusterId := ci_id cluster;
          matched := true;
          conceptId := Some cid;
          confidence := Some similarity;
          suggestedLabel := None |}
  | None =>
    let suggestedLabel := slice0 50 (firstSentence (summary cluster)) in
    Ok {| mr_clusterId := ci_id cluster;
          matched := false;
          conceptId := None;
          confidence := None;
          suggestedLabel := Some suggestedLabel |}
  end.

Definition mapCluster (cluster : ClusterInput) (concepts : list ConceptInput)
           (options : MapOptions) : effect ClusterConceptMapperError MapResult :=
  Effect_try_mapper (mapClusterBody cluster concepts options).

End ConceptMapper.

(* ================================================================== *)
(** * Concrete inputs *)
(* ================================================================== *)

(** Numbers, vectors and points over binary64, for the examples. *)
Definition fnum (x : float) : @num float_number := x.

Definition fvec (l : list float) : @vec float_number := l.

Definition fpoint (i : string) (l : list float) : @Embedding float_number :=
  {| id := i; vector := fvec l |}.

(** The four points of the test "should cluster embeddings into groups". *)
Definition four_points : list (@Embedding float_number) :=
  [ fpoint "1" [1; 0; 0]%float; fpoint "2" [0.9; 0.1; 0]%float;
    fpoint "3" [0; 1; 0]%float; fpoint "4" [0.1; 0.9; 0]%float ].

(** Four copies of one point of the line. *)
Definition same_points : list (@Embedding float_number) :=
  map (fun i => fpoint i [1]%float) ["1"; "2"; "3"; "4"].



(** Two points of the plane. *)
Definition plane_points : list (@Embedding float_number) :=
  [ fpoint "a" [0; 0]%float; fpoint "b" [3; 4]%float ].

(** The two vectors of the test "should fail with ClusteringError for
    mismatched dimensions". *)
Definition mismatched_points : list (@Embedding float_number) :=
  [ fpoint "a" [1; 2; 3]%float; fpoint "b" [1; 2]%float ].


(** Two points on the real line, in exact arithmetic, a random source that
    always answers 0, and the options left to their defaults. *)
Definition two_points : list (@Embedding exact_number) :=
  [ {| id := "a"; vector := [Fin 0] : @vec exact_number |};
    {| id := "b"; vector := [Fin 1] : @vec exact_number |} ].

Definition still : nat -> @num exact_number := fun _ => Fin 0.

Definition default_options : @SoftClusterOptions exact_number :=
  {| maxClusters := None; minProbability := None; useBIC := None;
     so_maxIterations := None |}.

(** Two random sources: one that always answers 0.5, one that alternates
    between 0.25 and 0.75. *)
Definition steady : nat -> @num float_number := fun _ => 0.5%float.

Definition alternating : nat -> @num float_number :=
  fun p => if Nat.even p then 0.25%float else 0.75%float.

(** Inputs in exact arithmetic: a point of the real line, two vectors of
    unequal length, and options that allow no cluster or switch the BIC
    selection off. *)
Definition xpoint (i : string) (l : list R) : @Embedding exact_number :=
  {| id := i; vector := map Fin l : @vec exact_number |}.

Definition no_cluster_options : @SoftClusterOptions exact_number :=
  {| maxClusters := Some 0%Z; minProbability := None; useBIC := None;
     so_maxIterations := None |}.

Definition no_BIC_options : @SoftClusterOptions exact_number :=
  {| maxClusters := None; minProbability := None; useBIC := Some false;
     so_maxIterations := None |}.


(** A cluster and a concept that point the same way, in binary64. *)
Definition hooks_cluster : @ClusterInput float_number :=
  {| ci_id := 1%Z; summary := "React hooks and state management";
     ci_centroid := fvec [1; 0]%float |}.

Definition hooks_concept : @ConceptInput float_number :=
  {| concept_id := "programming/react-hooks"; label := "React Hooks";
     embedding := fvec [1; 0]%float |}.


(* ================================================================== *)
(** * Vocabulary of the specification *)
(* ================================================================== *)

Section Vocabulary.

Context {N : Number}.

Local Open Scope js_scope.

(** Every draw of the random source, scaled by [n] and floored, is an index
    below [n]: what [Math.random], whose values lie in [0, 1), guarantees. *)
Definition valid_draws (random : nat -> num) (n : nat) : Prop :=
  forall p, exists z, floor (random p * of_nat n) = Some z /\ (0 <= z < Z.of_nat n)%Z.

(** Within any [window] consecutive draws every index below [n] comes up:
    a bounded form of the fairness of [Math.random], under which the
    rejection sampling of a batch ends. *)
Definition recurrent_draws (random : nat -> num) (n window : nat) : Prop :=
  forall p i, i < n ->
    exists q, p <= q < p + window /\
              floor (random q * of_nat n) = Some (Z.of_nat i).

(** What the properties below need of the comparisons [<] and [<=].  Both
    instances satisfy them; NaN, which compares false with everything, is
    accounted for ([x === x] is false exactly for NaN). *)
Class OrderLaws : Prop := {
  ltb_irrefl : forall a, (a <? a) = false;
  ltb_trans : forall a b c, (a <? b) = true -> (b <? c) = true -> (a <? c) = true;
  leb_ltb_trans : forall a b c, (a <=? b) = true -> (b <? c) = true -> (a <? c) = true;
  ltb_leb_trans : forall a b c, (a <? b) = true -> (b <=? c) = true -> (a <? c) = true;
  leb_trans : forall a b c, (a <=? b) = true -> (b <=? c) = true -> (a <=? c) = true;
  ltb_leb : forall a b, (a <? b) = true -> (a <=? b) = true;
  not_ltb_leb : forall a b,
      eqb a a = true -> eqb b b = true -> (b <? a) = false -> (a <=? b) = true;
  above_infinity : forall a b,
      (a <? infinity) = false -> (b <? infinity) = false -> (b <? a) = false
}.

(** [idx] is the centroid the scan must pick for [v] among the first [k]
    centroids: no centroid is strictly nearer, and every centroid before it
    is strictly farther (or at a distance that is NaN), so that ties go to
    the lowest index. *)
Definition is_nearest (centroids : list vec) (k : nat) (v : vec) (idx : nat) : Prop :=
  idx < k /\
  exists c, nth_error centroids idx = Some c /\
    forall j cj, j < k -> nth_error centroids j = Some cj ->
      (euclideanDistance v cj <? euclideanDistance v c) = false /\
      (j < idx -> (euclideanDistance v cj <=? euclideanDistance v c) = false).

(** The points assigned to cluster [i]. *)
Definition members (vectors : list vec) (assignments : list nat) (i : nat) : list vec :=
  map fst (filter (fun '(_, a) => (a =? i)%nat) (combine vectors assignments)).

(** The sum [0 + x1 + ... + xn], in this order. *)
Definition sum (l : list num) : num := fold_left add l zero.

(** The Euclidean distance of the specification, between two vectors of one
    dimension: the square root of the sum of the squared differences of
    their coordinates. *)
Definition euclidean (a b : vec) : num :=
  sqrt (sum (map (fun '(x, y) => pow2 (x - y)) (combine a b))).

(** [idx] names the nearest of the first [k] centroids to [v] under the
    distance [dist]: no centroid is strictly nearer, and every centroid
    before it is strictly farther (or at a distance that is NaN), so that
    among equally near centroids it is the first. *)
Definition nearest_under (dist : vec -> vec -> num) (centroids : list vec) (k : nat)
           (v : vec) (idx : nat) : Prop :=
  idx < k /\
  exists c, nth_error centroids idx = Some c /\
    forall j cj, j < k -> nth_error centroids j = Some cj ->
      (dist v cj <? dist v c) = false /\
      (j < idx -> (dist v cj <=? dist v c) = false).


(** The number of parameters of a model of [k] centroids of dimension [d]. *)
Definition parameterCount (k d : nat) : Z :=
  (Z.of_nat k * Z.of_nat d + (Z.of_nat k - 1))%Z.


Definition computedBIC {E : Elementary N} (eps : num) (n k d : nat) (rss : num) : num :=
  of_nat n * ln ((rss + eps) / of_nat n) + of_Z (parameterCount k d) * ln (of_nat n).

(** A clustering of the vectors into [length centroids] clusters: one
    assignment per vector, each naming a centroid. *)
Definition is_clustering (vectors centroids : list vec) (assignments : list nat) : Prop :=
  length assignments = length vectors /\
  Forall (fun a => a < length centroids) assignments.

(** The state of the BIC scan once every candidate below [k] has been
    tried: the scores recorded belong to distinct candidates in [1, k); none
    of them is strictly below the best score; and the best candidate is
    either the initial 1 with the initial score Infinity, or a recorded
    candidate before which every recorded score is strictly worse (or
    NaN). *)
Definition scan_state (k bestK : Z) (bestBIC : num) (scores : list (Z * num)) : Prop :=
  (forall k' b', In (k', b') scores -> (1 <= k' < k)%Z) /\
  NoDup (map fst scores) /\
  (forall k' b', In (k', b') scores -> (b' <? bestBIC) = false) /\
  ((bestBIC = infinity /\ bestK = 1%Z) \/
   (In (bestK, bestBIC) scores /\
    forall k' b', In (k', b') scores -> (k' < bestK)%Z -> (b' <=? bestBIC) = false)).

(** The membership probabilities of a point: the softmax, at temperature
    0.5, of its distances to the centroids. *)
Definition memberships {E : Elementary N} (centroids : list vec) (v : vec) : list num :=
  softmax (map (fun c => euclideanDistance v c) centroids) (lit 5 (-1)).

(** What a point contributes to the soft assignments: one entry for each
    cluster whose probability reaches the cutoff, with that probability,
    in cluster order. *)
Definition emitted {E : Elementary N} (minProbability : num) (centroids : list vec)
           (e : Embedding) : list SoftClusterAssignment :=
  map (fun '(j, p) => {| chunkId := id e; clusterId := j; probability := p |})
      (filter (fun '(_, p) => p >=? minProbability)
              (combine (seq 0 (length centroids)) (memberships centroids (vector e)))).




(** A batch under construction: distinct indices below [n]. *)
Definition batch_ok (n : nat) (batch : list Z) : Prop :=
  NoDup batch /\ Forall (fun idx => (0 <= idx < Z.of_nat n)%Z) batch.

End Vocabulary.

(** ** NaN in arithmetic *)

Section NaNVocabulary.

Context {N : Number}.

Local Open Scope js_scope.

(** NaN propagates through the operations the distance and the mean use.
    Both instances satisfy this. *)
Class NaNLaws : Prop := {
  sub_NaN : forall x, x - NaN = NaN;
  sqr_NaN : NaN * NaN = NaN;
  add_NaN_r : forall x, x + NaN = NaN;
  add_NaN_l : forall x, NaN + x = NaN;
  div_NaN : forall x, NaN / x = NaN;
  sqrt_NaN : sqrt NaN = NaN
}.

End NaNVocabulary.

(** ** Numbers and NaN in comparisons *)

Section ComparisonVocabulary.

Context {N : Number}.

Local Open Scope js_scope.

(** Only numbers compare: when [a <= b] holds, neither is NaN ([x === x]
    holds for both).  Both instances satisfy this. *)
Class ComparisonLaws : Prop := {
  leb_numbers : forall a b, (a <=? b) = true -> eqb a a = true /\ eqb b b = true
}.

End ComparisonVocabulary.

(** ** Zero and NaN in arithmetic *)

Section ZeroVocabulary.

Context {N : Number}.

Local Open Scope js_scope.

(** A number that is zero (of either sign, in binary64) or NaN. *)
Definition null (x : num) : Prop := eqb x zero = true \/ eqb x x = false.

(** What zero and NaN do in sums, products, roots and quotients.  Both
    instances satisfy this. *)
Class ZeroLaws : Prop := {
  null_zero : null zero;
  null_add : forall a b, null a -> null b -> null (a + b);
  null_mul : forall a b, null a -> null (a * b);
  null_sqrt : forall a, null a -> null (sqrt a);
  null_div : forall a b, null a -> null b -> eqb (a / b) (a / b) = false
}.

End ZeroVocabulary.

(** ** Reading the comparisons of the two instances *)

(** A binary64 value that is not NaN, and its place in the order: the class
    (negative infinity, negative, zero, positive, positive infinity), then
    exponent and mantissa, all compared lexicographically. *)
Definition sf_notnan (x : spec_float) : Prop :=
  match x with S754_nan => False | _ => True end.

Definition sf_key (x : spec_float) : Z * Z * Z :=
  match x with
  | S754_nan => (0, 0, 0)
  | S754_zero _ => (0, 0, 0)
  | S754_infinity true => (-2, 0, 0)
  | S754_infinity false => (2, 0, 0)
  | S754_finite true m e => (-1, - e, Zneg m)
  | S754_finite false m e => (1, e, Zpos m)
  end%Z.

Definition lt3 (a b : Z * Z * Z) : Prop :=
  let '(a1, a2, a3) := a in
  let '(b1, b2, b3) := b in
  (a1 < b1 \/ (a1 = b1 /\ (a2 < b2 \/ (a2 = b2 /\ a3 < b3))))%Z.

Definition fkey (x : float) : Z * Z * Z := sf_key (Prim2SF x).
Definition fnotnan (x : float) : Prop := sf_notnan (Prim2SF x).


(* ================================================================== *)
(** * Properties *)
(* ================================================================== *)

(** ** Lists and results *)

Lemma set_nth_length {A} (l : list A) i x : length (set_nth l i x) = length l.
Proof.
  revert i; induction l as [|y l IH]; intros [|i]; simpl; auto.
Qed.

Lemma nth_error_set_nth_eq {A} (l : list A) i x :
  i < length l -> nth_error (set_nth l i x) i = Some x.
Proof.
  revert i; induction l as [|y l IH]; intros [|i] H; simpl in *; try lia; auto.
  apply IH; lia.
Qed.

Lemma nth_error_set_nth_neq {A} (l : list A) i j x :
  i <> j -> nth_error (set_nth l i x) j = nth_error l j.
Proof.
  revert i j; induction l as [|y l IH]; intros [|i] [|j] H; simpl; auto; try lia.
Qed.

Lemma mapi_length {A B} (f : A -> nat -> B) l i : length (mapi f l i) = length l.
Proof.
  revert i; induction l as [|x l IH]; intros i; simpl; auto.
Qed.

Lemma nth_error_mapi {A B} (f : A -> nat -> B) l i j :
  nth_error (mapi f l i) j = option_map (fun x => f x (i + j)) (nth_error l j).
Proof.
  revert i j; induction l as [|x l IH]; intros i [|j]; simpl; auto.
  - now rewrite Nat.add_0_r.
  - rewrite IH. now replace (S i + j) with (i + S j) by lia.
Qed.

Lemma mapR_ok {A B} (f : A -> result B) (P : B -> Prop) (l : list A) :
  (forall x, In x l -> exists y, f x = Ok y /\ P y) ->
  exists ys, mapR f l = Ok ys /\ length ys = length l /\ Forall P ys.
Proof.
  induction l as [|x l IH]; intros H; simpl.
  - exists []; auto.
  - destruct (H x (or_introl eq_refl)) as (y & Hy & Py).
    destruct IH as (ys & Hys & Hlen & HP); [intros; apply H; now right|].
    exists (y :: ys). rewrite Hy, Hys; simpl. auto.
Qed.

Lemma mapR_inv {A B} (f : A -> result B) (l : list A) ys :
  mapR f l = Ok ys -> Forall2 (fun x y => f x = Ok y) l ys.
Proof.
  revert ys; induction l as [|x l IH]; intros ys; simpl.
  - intros [= <-]; constructor.
  - destruct (f x) as [y|e] eqn:Hy; simpl; [|discriminate].
    destruct (mapR f l) as [ys'|e] eqn:Hys; simpl; [|discriminate].
    intros [= <-]. constructor; auto.
Qed.

Lemma mapiR_ok {A B} (f : A -> nat -> result B) (P : A -> nat -> B -> Prop)
      (l : list A) (i : nat) :
  (forall j x, nth_error l j = Some x -> exists y, f x (i + j) = Ok y /\ P x (i + j) y) ->
  exists ys, mapiR f l i = Ok ys /\ length ys = length l /\
             forall j x, nth_error l j = Some x ->
                         exists y, nth_error ys j = Some y /\ P x (i + j) y.
Proof.
  revert i; induction l as [|x l IH]; intros i H; simpl.
  - exists []. split; [reflexivity|]. split; [reflexivity|].
    intros [|j] x; discriminate.
  - destruct (H 0 x eq_refl) as (y & Hy & Py). rewrite Nat.add_0_r in Hy, Py.
    destruct (IH (S i)) as (ys & Hys & Hlen & HP).
    { intros j x' Hj. replace (S i + j) with (i + S j) by lia. now apply H. }
    exists (y :: ys). rewrite Hy, Hys; simpl.
    split; [reflexivity|]. split; [now rewrite Hlen|].
    intros [|j] x' Hj; simpl in *.
    + injection Hj as <-. exists y. now rewrite Nat.add_0_r.
    + destruct (HP j x' Hj) as (y' & Hy' & Py').
      exists y'. split; auto. now replace (i + S j) with (S i + j) by lia.
Qed.

Lemma filteri_In {A} (p : A -> nat -> bool) l i x : In x (filteri p l i) -> In x l.
Proof.
  revert i; induction l as [|y l IH]; intros i; simpl; auto.
  destruct (p y i); simpl; intros H.
  - destruct H; eauto.
  - eauto.
Qed.

Lemma fold_left_invariant {A B} (P : A -> Prop) (f : A -> B -> A) l a :
  P a -> (forall a b, In b l -> P a -> P (f a b)) -> P (fold_left f l a).
Proof.
  revert a; induction l as [|b l IH]; intros a Ha Hf; simpl; auto.
  apply IH; [apply Hf; simpl; auto|]. intros; apply Hf; simpl; auto.
Qed.

Lemma Forall_set_nth {A} (P : A -> Prop) l i x :
  Forall P l -> P x -> Forall P (set_nth l i x).
Proof.
  intros H Hx; revert i; induction H as [|y l Hy Hl IH]; intros [|i]; simpl;
    constructor; auto.
Qed.

Section ClusteringProperties.

Context {N : Number}.
Variable random : nat -> num.

(** ** The nearest-centroid scan always answers with a valid index *)

Lemma nearestFrom_ok v cs : forall steps i minDist minIdx,
  i + steps <= length cs ->
  exists idx, nearestFrom v cs i steps minDist minIdx = Ok idx /\
              (idx = minIdx \/ i <= idx < i + steps).
Proof.
  induction steps as [|steps IH]; intros i minDist minIdx Hle; simpl.
  - eexists; split; eauto.
  - destruct (nth_error cs i) as [c|] eqn:Hc.
    2:{ apply nth_error_None in Hc; lia. }
    simpl. destruct (euclideanDistance v c <? minDist)%js.
    + destruct (IH (S i) (euclideanDistance v c) i) as (idx & -> & H); [lia|].
      eexists; split; eauto. right; lia.
    + destruct (IH (S i) minDist minIdx) as (idx & -> & H); [lia|].
      eexists; split; eauto. destruct H; [auto|right; lia].
Qed.

Lemma nearest_ok cs k v :
  0 < k -> k <= length cs -> exists idx, nearest cs k v = Ok idx /\ idx < k.
Proof.
  intros Hk Hle. unfold nearest.
  destruct (@nearestFrom_ok v cs k 0 infinity 0) as (idx & -> & H); [lia|].
  eexists; split; eauto. lia.
Qed.

Lemma assign_all_ok cs k vs :
  0 < k -> k <= length cs ->
  exists asg, mapR (nearest cs k) vs = Ok asg /\ length asg = length vs /\
              Forall (fun a => a < k) asg.
Proof.
  intros Hk Hle. apply mapR_ok. intros v _. now apply nearest_ok.
Qed.

(** ** Centroid updates *)

Section CentroidInvariant.

(** A property of vectors that holds for the points and is kept by the mean
    of any non-empty selection of points. *)
Variable P : vec -> Prop.
Variable vs : list vec.
Hypothesis P_points : forall v, In v vs -> P v.
Hypothesis P_mean :
  forall l, l <> [] -> (forall v, In v l -> In v vs) -> P (meanVector l).

Lemma updateCentroids_keeps k asg cs :
  Forall P cs ->
  length (updateCentroids vs k asg cs) = length cs /\
  Forall P (updateCentroids vs k asg cs).
Proof.
  intros HP. unfold updateCentroids.
  apply fold_left_invariant with
    (P := fun cs' => length cs' = length cs /\ Forall P cs'); [auto|].
  intros cs' i _ [Hlen HP'].
  match goal with |- context [filteri ?p vs 0] => set (members := filteri p vs 0) end.
  destruct (0 <? length members)%nat eqn:Hm; [|auto].
  rewrite set_nth_length. split; [auto|].
  apply Forall_set_nth; auto. apply P_mean.
  - apply Nat.ltb_lt in Hm. destruct members; simpl in *; [lia|discriminate].
  - intros v Hv. eapply filteri_In; eauto.
Qed.

Lemma kMeansLoop_ok k : 0 < k -> forall iters cs asg,
  length cs = k -> Forall P cs ->
  length asg = length vs -> Forall (fun a => a < k) asg ->
  exists cs' asg',
    kMeansLoop vs k iters cs asg = Ok (cs', asg') /\
    length cs' = k /\ Forall P cs' /\
    length asg' = length vs /\ Forall (fun a => a < k) asg'.
Proof.
  intros Hk. induction iters as [|iters IH]; intros cs asg Hcs HP Hasg Hlt; simpl.
  - exists cs, asg; auto.
  - destruct (@assign_all_ok cs k vs) as (new & -> & Hnew & Hnewlt); [lia..|].
    simpl. destruct (arraysEqual asg new).
    + exists cs, asg; auto.
    + destruct (@updateCentroids_keeps k new cs HP) as [Hlen HP'].
      apply IH; auto. congruence.
Qed.

(** ** Seeding *)

Lemma spread_at_ok p :
  valid_draws random (length vs) ->
  exists v, spread_at vs (random p * of_nat (length vs))%js = Ok v /\ In v vs.
Proof.
  intros Hv. destruct (Hv p) as (z & Hz & Hz0 & Hzn). unfold spread_at. rewrite Hz.
  destruct (z <? 0)%Z eqn:Hneg; [apply Z.ltb_lt in Hneg; lia|].
  destruct (nth_error vs (Z.to_nat z)) as [v|] eqn:Hnth.
  - exists v; split; auto. eapply nth_error_In; eauto.
  - apply nth_error_None in Hnth. lia.
Qed.

Lemma pickWeighted_In : forall l distances j threshold v,
  pickWeighted l distances j threshold = Some v -> In v l.
Proof.
  induction l as [|x l IH]; intros distances j threshold v; simpl; [discriminate|].
  destruct (threshold - operand distances j <=? zero)%js.
  - intros [= <-]; auto.
  - intros H; right; eapply IH; eauto.
Qed.

Lemma seedRest_ok :
  valid_draws random (length vs) ->
  forall steps cs pos,
    Forall P cs ->
    exists cs' pos',
      seedRest random vs steps cs pos = Return cs' pos' /\
      length cs' = length cs + steps /\ Forall P cs'.
Proof.
  intros Hv. induction steps as [|steps IH]; intros cs pos HP; simpl.
  - exists cs, pos. unfold ret. split; auto.
  - unfold bind, Math_random.
    match goal with |- context [pickWeighted vs ?d 0 ?t] =>
      destruct (pickWeighted vs d 0 t) as [v|] eqn:Hpick end.
    + destruct (IH (cs ++ [v]) (S pos)) as (cs' & pos' & Hrun & Hlen & HP').
      { apply Forall_app; split; auto. constructor; auto.
        apply P_points. eapply pickWeighted_In; eauto. }
      exists cs', pos'. rewrite Hrun. rewrite length_app in Hlen; simpl in Hlen.
      split; auto. split; auto; lia.
    + destruct (spread_at_ok (S pos) Hv) as (v & Hsp & Hin). rewrite Hsp; simpl.
      destruct (IH (cs ++ [v]) (S (S pos))) as (cs' & pos' & Hrun & Hlen & HP').
      { apply Forall_app; split; auto. }
      exists cs', pos'. unfold ret. rewrite Hrun.
      rewrite length_app in Hlen; simpl in Hlen.
      split; auto. split; auto; lia.
Qed.

Lemma kMeansPlusPlusInit_ok k pos :
  valid_draws random (length vs) -> (0 < k)%Z ->
  exists cs pos',
    kMeansPlusPlusInit random vs k pos = Return cs pos' /\
    length cs = Z.to_nat k /\ Forall P cs.
Proof.
  intros Hv Hk. unfold kMeansPlusPlusInit, bind, Math_random.
  destruct (spread_at_ok pos Hv) as (v & -> & Hin); simpl.
  destruct (@seedRest_ok Hv (Z.to_nat (k - 1)) [v] (S pos)) as (cs & pos' & -> & Hlen & HP).
  { constructor; auto. }
  exists cs, pos'. split; auto. split; auto. simpl in Hlen. lia.
Qed.

Lemma kMeans_ok k maxIterations pos :
  valid_draws random (length vs) -> (0 < k <= Z.of_nat (length vs))%Z ->
  exists cs asg pos',
    kMeans random vs k maxIterations pos = Return (cs, asg) pos' /\
    length cs = Z.to_nat k /\ Forall P cs /\
    length asg = length vs /\ Forall (fun a => a < Z.to_nat k) asg.
Proof.
  intros Hv [Hk Hkn]. unfold kMeans.
  destruct (length vs =? 0)%nat eqn:Hn; [apply Nat.eqb_eq in Hn; lia|].
  destruct (k <=? 0)%Z eqn:Hk0; [apply Z.leb_le in Hk0; lia|].
  destruct (k >? Z.of_nat (length vs))%Z eqn:Hk1.
  { rewrite Z.gtb_ltb in Hk1. apply Z.ltb_lt in Hk1; lia. }
  unfold bind.
  destruct (@kMeansPlusPlusInit_ok k pos Hv Hk) as (cs & pos' & -> & Hlen & HP).
  destruct (@kMeansLoop_ok (Z.to_nat k) ltac:(lia)
              (Z.to_nat (default 100%Z maxIterations)) cs (repeat 0 (length vs)))
    as (cs' & asg' & -> & H1 & H2 & H3 & H4); auto.
  - apply repeat_length.
  - apply Forall_forall. intros a Ha. apply repeat_spec in Ha. lia.
  - exists cs', asg', pos'. simpl. unfold ret. auto.
Qed.

End CentroidInvariant.

(** ** Building the result record *)

Lemma clusters_ids asg : forall (cs : list vec) i,
  map cl_id
      (mapi (fun centroid id =>
               {| cl_id := id;
                  cl_centroid := centroid;
                  cl_size := length (filter (fun a => (a =? id)%nat) asg) |}) cs i)
  = seq i (length cs).
Proof.
  induction cs as [|c cs IH]; intros i; simpl; auto. now rewrite IH.
Qed.

Lemma buildResult_ok (embeddings : list Embedding) cs asg k :
  length cs = k -> length asg = length embeddings -> Forall (fun a => a < k) asg ->
  exists res,
    buildResult embeddings (map vector embeddings) cs asg = Ok res /\
    map cl_id (clusters res) = seq 0 k /\
    map cl_centroid (clusters res) = cs /\
    (forall c, In c (clusters res) ->
               cl_size c = length (filter (fun a => (a =? cl_id c)%nat) asg)) /\
    map ca_id (assignments res) = map id embeddings /\
    map ca_clusterId (assignments res) = asg /\
    (forall idx e a,
        nth_error embeddings idx = Some e -> nth_error (assignments res) idx = Some a ->
        exists c, nth_error cs (ca_clusterId a) = Some c /\
                  ca_distance a = euclideanDistance (vector e) c).
Proof.
  intros Hcs Hasg Hlt. unfold buildResult.
  match goal with |- context [mapiR ?f embeddings 0] =>
    destruct (@mapiR_ok _ _ f
      (fun e idx a => ca_id a = id e /\ nth_error asg idx = Some (ca_clusterId a) /\
                      exists c, nth_error cs (ca_clusterId a) = Some c /\
                                ca_distance a = euclideanDistance (vector e) c)
      embeddings 0) as (cas & Hrun & Hlen & Hnth) end.
  { intros j e Hj. simpl. unfold lookup.
    destruct (nth_error asg j) as [a|] eqn:Ha.
    2:{ apply nth_error_None in Ha.
        assert (j < length embeddings) by (apply nth_error_Some; congruence). lia. }
    simpl. rewrite nth_error_map, Hj. simpl.
    assert (Hak : a < k).
    { rewrite Forall_forall in Hlt. apply Hlt. eapply nth_error_In; eauto. }
    destruct (nth_error cs a) as [c|] eqn:Hc.
    2:{ apply nth_error_None in Hc. lia. }
    simpl. eexists; split; [reflexivity|]. simpl. eauto. }
  rewrite Hrun. simpl. eexists; split; [reflexivity|]. simpl in Hnth |- *.
  split; [rewrite clusters_ids; now rewrite Hcs|].
  split.
  { clear. generalize 0. induction cs as [|c cs IH]; intros i; simpl; auto.
    now rewrite IH. }
  split.
  { intros c Hc. apply In_nth_error in Hc. destruct Hc as (j & Hj).
    rewrite nth_error_mapi in Hj. destruct (nth_error cs j); simpl in Hj; [|discriminate].
    injection Hj as <-. reflexivity. }
  split.
  { apply nth_error_ext. intros j. rewrite !nth_error_map.
    destruct (nth_error embeddings j) as [e|] eqn:He.
    - destruct (Hnth j e He) as (a & -> & Hid & _). simpl. now rewrite Hid.
    - apply nth_error_None in He.
      assert (Hn : nth_error cas j = None) by (apply nth_error_None; lia).
      now rewrite Hn. }
  split.
  { apply nth_error_ext. intros j. rewrite nth_error_map.
    destruct (nth_error embeddings j) as [e|] eqn:He.
    - destruct (Hnth j e He) as (a & -> & _ & Ha & _). simpl. now rewrite Ha.
    - apply nth_error_None in He.
      assert (Hn : nth_error cas j = None) by (apply nth_error_None; lia).
      rewrite Hn. simpl. symmetry. apply nth_error_None. lia. }
  intros idx e a He Ha. destruct (Hnth idx e He) as (a' & Ha' & _ & _ & Hc).
  rewrite Ha in Ha'. injection Ha' as <-. exact Hc.
Qed.

(** C1.  For a non-empty list of points and [0 < k <= points.length],
    [cluster] returns exactly [k] clusters, numbered [0 .. k-1] without
    compaction (a cluster without members stays, with size 0: the size is the
    number of assignments that name it), and exactly one assignment per
    point, in input order, each with a cluster id below [k]. *)
Theorem cluster_returns_k_clusters
        (embeddings : list Embedding) (k : Z) (maxIterations : option Z) (pos : nat) :
  (0 < k <= Z.of_nat (length embeddings))%Z ->
  valid_draws random (length embeddings) ->
  exists res pos',
    cluster random embeddings {| co_k := k; co_maxIterations := maxIterations |} pos
    = Return res pos' /\
    Z.of_nat (length (clusters res)) = k /\
    map cl_id (clusters res) = seq 0 (Z.to_nat k) /\
    (forall c, In c (clusters res) ->
       cl_size c
       = length (filter (fun a => (ca_clusterId a =? cl_id c)%nat) (assignments res))) /\
    length (assignments res) = length embeddings /\
    map ca_id (assignments res) = map id embeddings /\
    Forall (fun a => (Z.of_nat (ca_clusterId a) < k)%Z) (assignments res).
Proof.
  intros Hk Hv. unfold cluster, Effect_try, bind. simpl.
  destruct (@kMeans_ok (fun _ => True) (map vector embeddings)
              (fun _ _ => I) (fun _ _ _ => I) k maxIterations pos)
    as (cs & asg & pos' & -> & Hcs & _ & Hasg & Hlt);
    rewrite ?length_map; auto.
  rewrite length_map in Hasg.
  destruct (@buildResult_ok embeddings cs asg (Z.to_nat k) Hcs Hasg Hlt)
    as (res & -> & Hids & Hcent & Hsize & Hcaid & Hcl & _).
  simpl. exists res, pos'. split; [reflexivity|].
  assert (Hlen : length (clusters res) = Z.to_nat k).
  { rewrite <- (length_map cl_id), Hids. apply length_seq. }
  split; [lia|]. split; [exact Hids|].
  split.
  { intros c Hc. rewrite (Hsize c Hc), <- Hcl.
    clear. induction (assignments res) as [|a l IH]; simpl; auto.
    destruct (ca_clusterId a =? cl_id c)%nat; simpl; now rewrite IH. }
  split; [rewrite <- (length_map ca_id), Hcaid; apply length_map|].
  split; [exact Hcaid|].
  rewrite <- Hcl in Hlt. rewrite Forall_map in Hlt.
  eapply Forall_impl; [|exact Hlt]. simpl. intros a Ha. lia.
Qed.

(** ** Mini-batch k-means *)

Lemma lookupZ_ok {A} (l : list A) idx :
  (0 <= idx < Z.of_nat (length l))%Z -> exists x, lookupZ l idx = Ok x.
Proof.
  intros [H0 Hn]. unfold lookupZ, lookup.
  destruct (idx <? 0)%Z eqn:Hneg; [apply Z.ltb_lt in Hneg; lia|].
  destruct (nth_error l (Z.to_nat idx)) as [x|] eqn:Hx; [eauto|].
  apply nth_error_None in Hx. lia.
Qed.

Lemma existsb_Zeqb_In idx (l : list Z) : existsb (Z.eqb idx) l = true <-> In idx l.
Proof.
  rewrite existsb_exists. split.
  - intros (x & Hx & Heq). apply Z.eqb_eq in Heq. now subst.
  - intros H. exists idx. split; auto. apply Z.eqb_refl.
Qed.

(** A batch that misses fewer than [n] of the indices below [n] misses one
    of them. *)
Lemma missing_index (n : nat) (batch : list Z) :
  NoDup batch -> length batch < n ->
  exists i, i < n /\ ~ In (Z.of_nat i) batch.
Proof.
  intros Hnd Hlen.
  destruct (filter (fun i => negb (existsb (Z.eqb (Z.of_nat i)) batch)) (seq 0 n))
    as [|i rest] eqn:Hf.
  - exfalso.
    assert (Hincl : incl (map Z.of_nat (seq 0 n)) batch).
    { intros z Hz. apply in_map_iff in Hz. destruct Hz as (i & <- & Hi).
      apply existsb_Zeqb_In.
      destruct (existsb (Z.eqb (Z.of_nat i)) batch) eqn:He; auto.
      assert (Hin : In i (filter (fun i => negb (existsb (Z.eqb (Z.of_nat i)) batch))
                                 (seq 0 n))).
      { apply filter_In. split; auto. now rewrite He. }
      rewrite Hf in Hin. destruct Hin. }
    assert (Hnd' : NoDup (map Z.of_nat (seq 0 n))).
    { apply Injective_map_NoDup; [|apply seq_NoDup].
      intros a b Hab. lia. }
    pose proof (NoDup_incl_length Hnd' Hincl) as Hle.
    rewrite length_map, length_seq in Hle. lia.
  - assert (Hin : In i (i :: rest)) by (left; reflexivity).
    rewrite <- Hf in Hin. apply filter_In in Hin. destruct Hin as [Hi Hneg].
    apply in_seq in Hi. exists i. split; [lia|].
    intros Hc. apply existsb_Zeqb_In in Hc. rewrite Hc in Hneg. discriminate.
Qed.

Section Sampling.

Variable n window : nat.
Variable b : Z.
Hypothesis b_le_n : (b <= Z.of_nat n)%Z.
Hypothesis Hvalid : valid_draws random n.
Hypothesis Hrec : recurrent_draws random n window.

Lemma batch_ok_snoc batch idx :
  batch_ok n batch -> (0 <= idx < Z.of_nat n)%Z -> ~ In idx batch ->
  batch_ok n (batch ++ [idx]).
Proof.
  intros [Hnd Hall] Hidx Hnew. split.
  - apply NoDup_app; [auto|repeat constructor; intros []|].
    intros x Hx [<- | []]. auto.
  - apply Forall_app; split; auto.
Qed.

(** The sampling loop ends once it has [missing * window] draws to spend. *)
Lemma sampleBatch_ok : forall missing batch pos fuel,
  batch_ok n batch ->
  (b <= Z.of_nat (length batch) + Z.of_nat missing)%Z ->
  missing * window <= fuel ->
  exists batch' pos',
    sampleBatch random fuel n b batch pos = Return batch' pos' /\ batch_ok n batch'.
Proof.
  induction missing as [|missing IH]; intros batch pos fuel Hok Hb Hfuel.
  - exists batch, pos. split; auto.
    destruct fuel; simpl;
      (destruct (Z.of_nat (length batch) <? b)%Z eqn:Hlt;
       [apply Z.ltb_lt in Hlt; lia | reflexivity]).
  - destruct (Z.of_nat (length batch) <? b)%Z eqn:Hlt.
    2:{ exists batch, pos. split; auto. destruct fuel; simpl; now rewrite Hlt. }
    apply Z.ltb_lt in Hlt.
    destruct (@missing_index n batch) as (i & Hi & Hnew); [apply Hok | lia |].
    destruct (Hrec pos Hi) as (q & [Hq1 Hq2] & Hdraw).
    assert (Hd : exists d, q = pos + d /\ d < window) by (exists (q - pos); lia).
    destruct Hd as (d & -> & Hdw). clear Hq1 Hq2.
    assert (Hfuel' : S d + missing * window <= fuel) by (simpl in Hfuel; lia).
    clear Hfuel Hdw. revert pos fuel Hdraw Hfuel'.
    induction d as [|d IHd]; intros pos fuel Hdraw Hfuel.
    + destruct fuel as [|fuel]; [lia|]. simpl.
      apply Z.ltb_lt in Hlt. rewrite Hlt. apply Z.ltb_lt in Hlt.
      unfold bind at 1, Math_random. rewrite Nat.add_0_r in Hdraw. rewrite Hdraw.
      destruct (existsb (Z.eqb (Z.of_nat i)) batch) eqn:He.
      { apply existsb_Zeqb_In in He. contradiction. }
      apply IH; [apply batch_ok_snoc; auto; lia | | lia].
      rewrite length_app; simpl. lia.
    + destruct fuel as [|fuel]; [lia|]. simpl.
      apply Z.ltb_lt in Hlt. rewrite Hlt. apply Z.ltb_lt in Hlt.
      unfold bind at 1, Math_random.
      destruct (Hvalid pos) as (z & Hz & Hzr). rewrite Hz.
      destruct (existsb (Z.eqb z) batch) eqn:He.
      * apply IHd; [|lia]. now replace (S pos + d) with (pos + S d) by lia.
      * apply IH; [apply batch_ok_snoc; auto | | lia].
        { intros Hc. apply existsb_Zeqb_In in Hc. congruence. }
        rewrite length_app; simpl. lia.
Qed.

End Sampling.

Lemma moveToward_length eta c x : length (moveToward eta c x) = length c.
Proof. apply mapi_length. Qed.

Lemma updateBatch_ok vs k : forall batch cs counts,
  length cs = k -> length counts = k ->
  Forall (fun '(vi, ci) => (0 <= vi < Z.of_nat (length vs))%Z /\ ci < k) batch ->
  exists cs' counts',
    updateBatch vs batch cs counts = Ok (cs', counts') /\
    length cs' = k /\ length counts' = k.
Proof.
  induction batch as [|[vi ci] batch IH]; intros cs counts Hcs Hcounts Hall; simpl.
  - exists cs, counts; auto.
  - inversion Hall as [|? ? Hhd Hrest]; subst. simpl in Hhd. destruct Hhd as [Hvi Hci].
    unfold lookup at 1.
    destruct (nth_error counts ci) as [count|] eqn:Hcount.
    2:{ apply nth_error_None in Hcount. lia. }
    simpl. unfold lookup at 1.
    destruct (nth_error cs ci) as [c|] eqn:Hc.
    2:{ apply nth_error_None in Hc. lia. }
    simpl. destruct (@lookupZ_ok _ vs vi Hvi) as (x & ->). simpl.
    apply IH; auto; now rewrite set_nth_length.
Qed.

Lemma sumSqFrom_ok new : forall old i sumSq,
  i + length old <= length new -> exists s, sumSqFrom old new i sumSq = Ok s.
Proof.
  induction old as [|oc old IH]; intros i sumSq Hle; simpl.
  - eauto.
  - destruct (nth_error new i) as [nc|] eqn:Hnc.
    + apply IH. simpl in Hle. lia.
    + apply nth_error_None in Hnc. simpl in Hle. lia.
Qed.

Lemma centroidDelta_ok old new :
  length old <= length new -> exists d, centroidDelta old new = Ok d.
Proof.
  intros Hle. unfold centroidDelta.
  destruct (@sumSqFrom_ok new old 0 zero) as (s & ->); [lia|]. simpl. eauto.
Qed.

Lemma combine_Forall {A B} (P : A -> Prop) (Q : B -> Prop) (l : list A) (l' : list B) :
  Forall P l -> Forall Q l' -> Forall (fun '(a, b) => P a /\ Q b) (combine l l').
Proof.
  intros HP; revert l'; induction HP as [|a l Ha Hl IH]; intros l' HQ; simpl.
  - constructor.
  - destruct HQ as [|b l' Hb Hl']; constructor; auto.
Qed.

Section MiniBatch.

Variable vs : list vec.
Variable window fuel : nat.
Variable b : Z.
Hypothesis b_le_n : (b <= Z.of_nat (length vs))%Z.
Hypothesis Hvalid : valid_draws random (length vs).
Hypothesis Hrec : recurrent_draws random (length vs) window.
Hypothesis Hfuel : length vs * window <= fuel.

Local Arguments Nat.modulo _ _ : simpl never.

Lemma miniBatchLoop_ok k : 0 < k -> forall steps iter cs counts prev pos,
  length cs = k -> length counts = k -> length prev = k ->
  exists cs' pos',
    miniBatchLoop random fuel vs k b iter steps cs counts prev pos = Return cs' pos' /\
    length cs' = k.
Proof.
  intros Hk. induction steps as [|steps IH]; intros iter cs counts prev pos Hcs Hcounts Hprev;
    simpl.
  - exists cs, pos. split; auto.
  - unfold bind at 1.
    destruct (@sampleBatch_ok (length vs) window b b_le_n Hvalid Hrec
                (length vs) [] pos fuel) as (batch & pos' & -> & Hnd & Hall).
    { split; constructor. }
    { simpl. lia. }
    { exact Hfuel. }
    unfold bind at 1.
    destruct (@mapR_ok _ _
                (fun idx => let? v := lookupZ vs idx in nearest cs k v)
                (fun a => a < k) batch) as (basg & Hb & Hblen & Hblt).
    { intros idx Hidx. rewrite Forall_forall in Hall.
      destruct (@lookupZ_ok _ vs idx (Hall idx Hidx)) as (v & ->). simpl.
      apply nearest_ok; lia. }
    rewrite Hb. simpl. unfold bind at 1.
    destruct (@updateBatch_ok vs k (combine batch basg) cs counts Hcs Hcounts)
      as (cs1 & counts1 & -> & Hcs1 & Hcounts1).
    { apply combine_Forall; auto. }
    simpl.
    destruct ((iter mod 10 =? 0) && (0 <? iter))%nat.
    + unfold bind at 1.
      destruct (@centroidDelta_ok prev cs1) as (d & ->); [lia|]. simpl.
      destruct (d <? lit 1 (-4))%js.
      * exists cs1, pos'. split; auto.
      * apply IH; auto.
    + apply IH; auto.
Qed.

Lemma miniBatchKMeans_ok k batchSize maxIterations pos :
  (0 < k <= Z.of_nat (length vs))%Z ->
  b = Z.min (default 100%Z batchSize) (Z.of_nat (length vs)) ->
  exists cs asg pos',
    miniBatchKMeans random fuel vs k batchSize maxIterations pos
    = Return (cs, asg) pos' /\
    length cs = Z.to_nat k /\
    mapR (nearest cs (Z.to_nat k)) vs = Ok asg /\
    length asg = length vs /\ Forall (fun a => a < Z.to_nat k) asg.
Proof.
  intros [Hk Hkn] Hb. unfold miniBatchKMeans.
  destruct (length vs =? 0)%nat eqn:Hn; [apply Nat.eqb_eq in Hn; lia|].
  destruct (k <=? 0)%Z eqn:Hk0; [apply Z.leb_le in Hk0; lia|].
  destruct (k >? Z.of_nat (length vs))%Z eqn:Hk1.
  { rewrite Z.gtb_ltb in Hk1. apply Z.ltb_lt in Hk1; lia. }
  unfold bind at 1.
  destruct (@kMeansPlusPlusInit_ok (fun _ => True) vs (fun _ _ => I) k pos Hvalid Hk)
    as (cs & pos' & -> & Hlen & _).
  unfold bind at 1. rewrite <- Hb.
  destruct (@miniBatchLoop_ok (Z.to_nat k) ltac:(lia)
              (Z.to_nat (default 100%Z maxIterations)) 0 cs
              (repeat 0 (Z.to_nat k)) cs pos') as (cs' & pos'' & -> & Hlen');
    auto using repeat_length.
  destruct (@assign_all_ok cs' (Z.to_nat k) vs) as (asg & Hasg & Halen & Hlt); [lia..|].
  unfold bind. rewrite Hasg. simpl.
  exists cs', asg, pos''. auto.
Qed.

End MiniBatch.

End ClusteringProperties.

(** ** One iteration of k-means *)

Lemma filteri_shift {A} (p q : A -> nat -> bool) (l : list A) i j :
  (forall x m, p x (i + m) = q x (j + m)) -> filteri p l i = filteri q l j.
Proof.
  revert i j; induction l as [|x l IH]; intros i j H; simpl; auto.
  pose proof (H x 0) as H0. rewrite !Nat.add_0_r in H0. rewrite H0.
  rewrite (IH (S i) (S j)); auto.
  intros y m. specialize (H y (S m)). now rewrite !Nat.add_succ_r in H.
Qed.

Lemma mapi_shift {A B} (f g : A -> nat -> B) (l : list A) i j :
  (forall x m, f x (i + m) = g x (j + m)) -> mapi f l i = mapi g l j.
Proof.
  revert i j; induction l as [|x l IH]; intros i j H; simpl; auto.
  pose proof (H x 0) as H0. rewrite !Nat.add_0_r in H0. rewrite H0.
  f_equal. apply IH. intros y m. specialize (H y (S m)).
  now rewrite !Nat.add_succ_r in H.
Qed.

Lemma arraysEqual_eq {N : Number} (a b : list nat) : arraysEqual a b = true <-> a = b.
Proof.
  unfold arraysEqual. rewrite andb_true_iff, Nat.eqb_eq.
  split.
  - intros [Hlen Hall].
    assert (G : forall (a b pre : list nat),
               length a = length b ->
               everyi (fun v i => match nth_error (pre ++ b) i with
                                  | Some w => (v =? w)%nat
                                  | None => false
                                  end) a (length pre) = true -> a = b).
    { clear. induction a as [|x a IH]; intros [|y b] pre Hlen; simpl in *;
        try discriminate; auto.
      rewrite nth_error_app2, Nat.sub_diag by lia. simpl.
      intros H. apply andb_true_iff in H. destruct H as [Hxy Hrest].
      apply Nat.eqb_eq in Hxy. subst y. f_equal.
      apply (IH b (pre ++ [x])); [lia|].
      rewrite length_app; simpl. rewrite Nat.add_1_r.
      now rewrite <- app_assoc. }
    now apply (G a b []).
  - intros <-. split; auto.
    assert (G : forall (a pre : list nat),
               everyi (fun v i => match nth_error (pre ++ a) i with
                                  | Some w => (v =? w)%nat
                                  | None => false
                                  end) a (length pre) = true).
    { clear. induction a as [|x a IH]; intros pre; simpl; auto.
      rewrite nth_error_app2, Nat.sub_diag by lia. simpl.
      rewrite Nat.eqb_refl. simpl.
      specialize (IH (pre ++ [x])). rewrite length_app in IH; simpl in IH.
      rewrite Nat.add_1_r, <- app_assoc in IH. exact IH. }
    apply (G a []).
Qed.

Section Iteration.

Context {N : Number} {L : OrderLaws}.

Lemma nearestFrom_nearest v cs k : 0 < k -> k <= length cs ->
  forall steps i minDist minIdx,
    i + steps = k ->
    (forall j cj, j < i -> nth_error cs j = Some cj ->
                  (euclideanDistance v cj <? minDist)%js = false) ->
    (minDist = infinity /\ minIdx = 0) \/
    (minIdx < i /\ exists c, nth_error cs minIdx = Some c /\
       minDist = euclideanDistance v c /\
       forall j cj, j < minIdx -> nth_error cs j = Some cj ->
                    (euclideanDistance v cj <=? minDist)%js = false) ->
    exists idx, nearestFrom v cs i steps minDist minIdx = Ok idx /\
                is_nearest cs k v idx.
Proof.
  intros Hk Hlen. induction steps as [|steps IH]; intros i minDist minIdx Hi Hlow Hsel.
  - simpl. exists minIdx. split; auto. rewrite Nat.add_0_r in Hi. subst i.
    destruct Hsel as [[-> ->] | (Hlt & c & Hc & -> & Hties)].
    + destruct (nth_error cs 0) as [c0|] eqn:Hc0.
      2:{ apply nth_error_None in Hc0. lia. }
      split; [lia|]. exists c0. split; auto. intros j cj Hj Hcj. split; [|lia].
      apply above_infinity; eauto.
    + split; [lia|]. exists c. split; auto. intros j cj Hj Hcj. split; eauto.
  - simpl. destruct (nth_error cs i) as [c|] eqn:Hc.
    2:{ apply nth_error_None in Hc. lia. }
    simpl. destruct (euclideanDistance v c <? minDist)%js eqn:Hlt.
    + apply IH; [lia| |].
      * intros j cj Hj Hcj.
        destruct (Nat.eq_dec j i) as [-> | Hne].
        { assert (cj = c) by congruence. subst. apply ltb_irrefl. }
        destruct (euclideanDistance v cj <? euclideanDistance v c)%js eqn:Hlt'; auto.
        pose proof (ltb_trans _ _ _ Hlt' Hlt) as Hc'.
        rewrite (Hlow j cj ltac:(lia) Hcj) in Hc'. discriminate.
      * right. split; [lia|]. exists c. split; auto. split; auto.
        intros j cj Hj Hcj.
        destruct (euclideanDistance v cj <=? euclideanDistance v c)%js eqn:Hle; auto.
        pose proof (leb_ltb_trans _ _ _ Hle Hlt) as Hc'.
        rewrite (Hlow j cj Hj Hcj) in Hc'. discriminate.
    + apply IH; [lia| |].
      * intros j cj Hj Hcj.
        destruct (Nat.eq_dec j i) as [-> | Hne].
        { assert (cj = c) by congruence. now subst. }
        apply (Hlow j cj); auto; lia.
      * destruct Hsel as [Hsel | (Hm & Hsel)]; [left; auto|right].
        split; [lia|]. exact Hsel.
Qed.

Lemma nearest_is_nearest cs k v :
  0 < k -> k <= length cs ->
  exists idx, nearest cs k v = Ok idx /\ is_nearest cs k v idx.
Proof.
  intros Hk Hlen. unfold nearest.
  apply nearestFrom_nearest with (k := k); auto.
  intros j cj Hj; lia.
Qed.

End Iteration.

Section Means.

Context {N : Number}.

Lemma mapi_mapi {A B C} (f : B -> nat -> C) (g : A -> nat -> B) (l : list A) i :
  mapi f (mapi g l i) i = mapi (fun x j => f (g x j) j) l i.
Proof.
  revert i; induction l as [|x l IH]; intros i; simpl; auto. now rewrite IH.
Qed.

Lemma accumulate_columns (vectors : list vec) : forall (init : vec),
  fold_left (fun mean v => mapi (fun m i => (m + operand v i)%js) mean 0) vectors init
  = mapi (fun m i => fold_left add (map (fun v => operand v i) vectors) m) init 0.
Proof.
  induction vectors as [|v vectors IH]; intros init; simpl.
  - generalize 0. induction init as [|m init IHi]; intros i; simpl; auto.
    now rewrite <- IHi.
  - rewrite IH. apply mapi_mapi.
Qed.

Lemma mapi_repeat {A B} (f : A -> nat -> B) (a : A) n i :
  mapi f (repeat a n) i = map (f a) (seq i n).
Proof.
  revert i; induction n as [|n IH]; intros i; simpl; auto. now rewrite IH.
Qed.

(** [meanVector] is the arithmetic mean, coordinate by coordinate: the sum
    of the coordinate over the vectors, divided by their number.  The
    coordinates are those of the first vector. *)
Lemma meanVector_is_mean (v0 : vec) (rest : list vec) :
  meanVector (v0 :: rest)
  = map (fun i => (sum (map (fun v => operand v i) (v0 :: rest))
                   / of_nat (length (v0 :: rest)))%js)
        (seq 0 (length v0)).
Proof.
  unfold meanVector. rewrite accumulate_columns, mapi_repeat, map_map. reflexivity.
Qed.

Lemma filteri_members (i : nat) : forall (vs : list vec) (asg : list nat),
  filteri (fun _ idx => match nth_error asg idx with
                        | Some a => (a =? i)%nat
                        | None => false
                        end) vs 0
  = members vs asg i.
Proof.
  unfold members. induction vs as [|v vs IH]; intros asg; simpl; auto.
  destruct asg as [|a asg]; simpl.
  - clear. generalize 1. induction vs as [|v vs IH]; intros n; simpl; auto.
    destruct n; simpl; apply IH.
  - rewrite (@filteri_shift _
               (fun _ idx => match nth_error (a :: asg) idx with
                             | Some a0 => (a0 =? i)%nat
                             | None => false
                             end)
               (fun _ idx => match nth_error asg idx with
                             | Some a0 => (a0 =? i)%nat
                             | None => false
                             end) vs 1 0) by reflexivity.
    rewrite IH. destruct (a =? i)%nat; reflexivity.
Qed.

(** After the update, the centroid of a cluster with members is their mean,
    and the centroid of a cluster without members is the previous one. *)
Lemma updateCentroids_spec vs asg cs : forall k i,
  k <= length cs ->
  nth_error (updateCentroids vs k asg cs) i
  = if (i <? k)%nat
    then match members vs asg i with
         | [] => nth_error cs i
         | m :: ms => Some (meanVector (m :: ms))
         end
    else nth_error cs i.
Proof.
  unfold updateCentroids.
  induction k as [|k IH]; intros i Hk.
  - simpl. reflexivity.
  - rewrite seq_S, fold_left_app. simpl.
    rewrite filteri_members.
    match goal with |- context [fold_left ?f (seq 0 k) cs] =>
      set (cs' := fold_left f (seq 0 k) cs) in * end.
    assert (Hlen : length cs' = length cs).
    { unfold cs'. apply fold_left_invariant with (P := fun l => length l = length cs); auto.
      intros l j _ Hl. destruct (0 <? _)%nat; auto. now rewrite set_nth_length. }
    destruct (Nat.eq_dec i k) as [-> | Hne].
    + replace (k <? S k)%nat with true by (symmetry; apply Nat.ltb_lt; lia).
      destruct (members vs asg k) as [|m ms]; simpl.
      * rewrite IH by lia. now rewrite Nat.ltb_irrefl.
      * apply nth_error_set_nth_eq. lia.
    + assert (Hold : nth_error
                       (if (0 <? length (members vs asg k))%nat
                        then set_nth cs' k (meanVector (members vs asg k)) else cs') i
                     = nth_error cs' i).
      { destruct (0 <? _)%nat; auto. apply nth_error_set_nth_neq. lia. }
      rewrite Hold, IH by lia.
      destruct (i <? k)%nat eqn:Hik.
      * apply Nat.ltb_lt in Hik.
        replace (i <? S k)%nat with true by (symmetry; apply Nat.ltb_lt; lia).
        reflexivity.
      * apply Nat.ltb_ge in Hik.
        replace (i <? S k)%nat with false by (symmetry; apply Nat.ltb_ge; lia).
        reflexivity.
Qed.

End Means.

(** ** The two instances satisfy the order laws *)

Lemma SFcompare_spec (a b : spec_float) :
  match SFcompare a b with
  | None => ~ (sf_notnan a /\ sf_notnan b)
  | Some Lt => sf_notnan a /\ sf_notnan b /\ lt3 (sf_key a) (sf_key b)
  | Some Eq => sf_notnan a /\ sf_notnan b /\ sf_key a = sf_key b
  | Some Gt => sf_notnan a /\ sf_notnan b /\ lt3 (sf_key b) (sf_key a)
  end.
Proof.
  destruct a as [[]|[]| |[] ma ea], b as [[]|[]| |[] mb eb];
    cbn [SFcompare sf_notnan sf_key lt3];
    try tauto; try (repeat split; auto; lia).
  all: change (Pos.compare_cont Eq ma mb) with (Pos.compare ma mb).
  all: destruct (Z.compare_spec ea eb); try (repeat split; auto; lia).
  all: destruct (Pos.compare_spec ma mb); cbn [CompOpp]; subst;
       try (repeat split; auto; lia).
Qed.

Lemma lt3_asym a b : lt3 a b -> lt3 b a -> False.
Proof. destruct a as [[a1 a2] a3], b as [[b1 b2] b3]; simpl; lia. Qed.

Lemma lt3_irrefl a : ~ lt3 a a.
Proof. destruct a as [[a1 a2] a3]; simpl; lia. Qed.

Lemma lt3_trans a b c : lt3 a b -> lt3 b c -> lt3 a c.
Proof.
  destruct a as [[a1 a2] a3], b as [[b1 b2] b3], c as [[c1 c2] c3]; simpl; lia.
Qed.

Lemma lt3_total a b : lt3 a b \/ a = b \/ lt3 b a.
Proof.
  destruct a as [[a1 a2] a3], b as [[b1 b2] b3]; simpl.
  destruct (Z.lt_total a1 b1) as [?|[?|?]]; try lia.
  destruct (Z.lt_total a2 b2) as [?|[?|?]]; try lia.
  destruct (Z.lt_total a3 b3) as [?|[?|?]]; try lia.
  subst. auto.
Qed.

Lemma float_ltb_iff a b :
  PrimFloat.ltb a b = true <-> fnotnan a /\ fnotnan b /\ lt3 (fkey a) (fkey b).
Proof.
  rewrite ltb_spec. unfold SFltb, fnotnan, fkey.
  pose proof (SFcompare_spec (Prim2SF a) (Prim2SF b)) as H.
  destruct (SFcompare (Prim2SF a) (Prim2SF b)) as [[]|]; split; try tauto;
    try discriminate.
  - intros (_ & _ & Hlt). destruct H as (_ & _ & Heq). rewrite Heq in Hlt.
    now apply lt3_irrefl in Hlt.
  - intros (_ & _ & Hlt). destruct H as (_ & _ & Hgt). destruct (lt3_asym _ _ Hlt Hgt).
Qed.

Lemma float_eqb_iff a b :
  PrimFloat.eqb a b = true <-> fnotnan a /\ fnotnan b /\ fkey a = fkey b.
Proof.
  rewrite eqb_spec. unfold SFeqb, fnotnan, fkey.
  pose proof (SFcompare_spec (Prim2SF a) (Prim2SF b)) as H.
  destruct (SFcompare (Prim2SF a) (Prim2SF b)) as [[]|]; split; try tauto;
    try discriminate.
  - intros (_ & _ & Heq). destruct H as (_ & _ & Hlt). rewrite Heq in Hlt.
    now apply lt3_irrefl in Hlt.
  - intros (_ & _ & Heq). destruct H as (_ & _ & Hlt). rewrite Heq in Hlt.
    now apply lt3_irrefl in Hlt.
Qed.

Lemma float_leb_iff a b :
  PrimFloat.leb a b = true <->
  fnotnan a /\ fnotnan b /\ (lt3 (fkey a) (fkey b) \/ fkey a = fkey b).
Proof.
  rewrite leb_spec. unfold SFleb, fnotnan, fkey.
  pose proof (SFcompare_spec (Prim2SF a) (Prim2SF b)) as H.
  destruct (SFcompare (Prim2SF a) (Prim2SF b)) as [[]|]; split; try tauto;
    try discriminate.
  intros (_ & _ & [Hlt | Heq]); destruct H as (_ & _ & Hgt).
  - destruct (lt3_asym _ _ Hlt Hgt).
  - rewrite Heq in Hgt. now apply lt3_irrefl in Hgt.
Qed.

Lemma not_true_false b : b <> true -> b = false.
Proof. destruct b; congruence. Qed.

Lemma float_order_laws : @OrderLaws float_number.
Proof.
  constructor; simpl.
  - intros a. apply not_true_false. rewrite float_ltb_iff.
    intros (_ & _ & H). now apply lt3_irrefl in H.
  - intros a b c. rewrite !float_ltb_iff. intros (? & ? & ?) (? & ? & ?).
    repeat split; auto. eapply lt3_trans; eauto.
  - intros a b c. rewrite float_leb_iff, !float_ltb_iff.
    intros (? & ? & [? | Heq]) (? & ? & ?); repeat split; auto.
    + eapply lt3_trans; eauto.
    + now rewrite Heq.
  - intros a b c. rewrite float_leb_iff, !float_ltb_iff.
    intros (? & ? & ?) (? & ? & [? | Heq]); repeat split; auto.
    + eapply lt3_trans; eauto.
    + now rewrite <- Heq.
  - intros a b c. rewrite !float_leb_iff.
    intros (? & ? & [? | Heq]) (? & ? & [? | Heq']); repeat split; auto.
    + left. eapply lt3_trans; eauto.
    + left. now rewrite <- Heq'.
    + left. now rewrite Heq.
    + right. congruence.
  - intros a b. rewrite float_ltb_iff, float_leb_iff. tauto.
  - intros a b. rewrite !float_eqb_iff, float_leb_iff.
    intros (Ha & _ & _) (Hb & _ & _) Hlt. repeat split; auto.
    destruct (lt3_total (fkey a) (fkey b)) as [?|[?|Hgt]]; auto.
    exfalso. assert (PrimFloat.ltb b a = true) by (apply float_ltb_iff; auto).
    congruence.
  - intros a b Ha Hb. apply not_true_false. rewrite float_ltb_iff.
    intros (Hnb & Hna & Hlt).
    assert (Ha' : ~ lt3 (fkey a) (2, 0, 0)%Z).
    { intros Hc. assert (PrimFloat.ltb a PrimFloat.infinity = true).
      { apply float_ltb_iff. repeat split; auto. } congruence. }
    assert (Hb' : ~ lt3 (fkey b) (2, 0, 0)%Z).
    { intros Hc. assert (PrimFloat.ltb b PrimFloat.infinity = true).
      { apply float_ltb_iff. repeat split; auto. } congruence. }
    unfold fkey, fnotnan in *.
    destruct (Prim2SF a) as [[]|[]| |[] ma ea], (Prim2SF b) as [[]|[]| |[] mb eb];
      simpl in *; lia.
Qed.

Lemma Rltb_true a b : Rltb a b = true <-> (a < b)%R.
Proof. unfold Rltb. destruct (Rlt_dec a b); split; auto; discriminate. Qed.

Lemma Rltb_false a b : Rltb a b = false <-> (b <= a)%R.
Proof. unfold Rltb. destruct (Rlt_dec a b); split; auto; try discriminate; lra. Qed.

Lemma Reqb_true a b : Reqb a b = true <-> a = b.
Proof. unfold Reqb. destruct (Req_dec_T a b); split; auto; discriminate. Qed.

Lemma Reqb_false a b : Reqb a b = false <-> a <> b.
Proof. unfold Reqb. destruct (Req_dec_T a b); split; auto; try discriminate; tauto. Qed.

Ltac xreal_cases :=
  repeat match goal with x : xreal |- _ => destruct x end;
  simpl; unfold xleb; simpl;
  repeat match goal with
         | |- context [Rltb ?a ?b] =>
           let H := fresh "H" in
           destruct (Rltb a b) eqn:H;
           [apply Rltb_true in H | apply Rltb_false in H]
         | |- context [Reqb ?a ?b] =>
           let H := fresh "H" in
           destruct (Reqb a b) eqn:H;
           [apply Reqb_true in H | apply Reqb_false in H]
         end;
  simpl; intros; try reflexivity; try discriminate; try lra;
  try (exfalso; match goal with H : _ <> _ |- _ => apply H; lra end).

Lemma exact_order_laws : @OrderLaws exact_number.
Proof.
  constructor; simpl.
  - intros a; xreal_cases.
  - intros a b c; xreal_cases.
  - intros a b c; xreal_cases.
  - intros a b c; xreal_cases.
  - intros a b c; xreal_cases.
  - intros a b; xreal_cases.
  - intros a b; xreal_cases.
  - intros a b; xreal_cases.
Qed.

(** ** The distance the code computes is the Euclidean distance *)

Lemma reducei_combine {N : Number} (b : @vec N) : forall (a : @vec N) acc,
  (length a <= length b)%nat ->
  reducei (fun sum val i => add sum (pow2 (sub val (operand b i)))) a 0%nat acc
  = fold_left (fun sum '(x, y) => add sum (pow2 (sub x y))) (combine a b) acc.
Proof.
  assert (G : forall (a pre b' : @vec N) acc,
             (length a <= length b')%nat ->
             reducei (fun sum val i => add sum (pow2 (sub val (operand (pre ++ b') i))))
                     a (length pre) acc
             = fold_left (fun sum '(x, y) => add sum (pow2 (sub x y))) (combine a b') acc).
  { induction a as [|x a IH]; intros pre b' acc Hlen; simpl; auto.
    destruct b' as [|y b']; simpl in *; [lia|].
    replace (operand (pre ++ y :: b') (length pre)) with y
      by (unfold operand; rewrite app_nth2, Nat.sub_diag by lia; reflexivity).
    specialize (IH (pre ++ [y]) b'). rewrite length_app in IH. simpl in IH.
    rewrite Nat.add_1_r, <- app_assoc in IH. simpl in IH. apply IH. lia. }
  intros a acc Hlen. apply (G a [] b acc Hlen).
Qed.

Lemma euclideanDistance_euclidean {N : Number} (a b : @vec N) :
  length a <= length b -> euclideanDistance a b = euclidean a b.
Proof.
  intros Hlen. unfold euclideanDistance, euclidean, sum. f_equal.
  rewrite reducei_combine by exact Hlen.
  generalize (@zero N).
  induction (combine a b) as [|[x y] l IH]; intros acc; simpl; auto.
Qed.

Lemma is_nearest_euclidean {N : Number} (centroids : list (@vec N)) k v idx :
  (forall c, In c centroids -> length v = length c) ->
  is_nearest centroids k v idx -> nearest_under euclidean centroids k v idx.
Proof.
  intros Hdim (Hidx & c & Hc & Hall). split; [exact Hidx|].
  exists c. split; [exact Hc|]. intros j cj Hj Hcj.
  rewrite <- !euclideanDistance_euclidean
    by (apply Nat.eq_le_incl, Hdim; eapply nth_error_In; eauto).
  now apply Hall.
Qed.

(** C2.  One round of the k-means loop: every point is assigned to its
    nearest centroid (no centroid is strictly nearer, ties go to the lowest
    index), where the distance of a point to a centroid of its dimension is
    the Euclidean distance, the square root of the sum of the squared
    coordinate differences; the loop ends when the new assignment vector
    equals the previous one exactly, or when no round is left; otherwise
    each centroid becomes the arithmetic mean of the points now assigned to
    it, a cluster without points keeping its previous centroid, and the
    loop goes on with one round less. *)
Theorem kMeans_iteration {N : Number} {L : OrderLaws}
        (vectors centroids : list vec) (k : nat) (assignments : list nat) :
  0 < k -> length centroids = k ->
  exists newAssignments,
    Forall2 (is_nearest centroids k) vectors newAssignments /\
    (forall a b : vec, length a = length b -> euclideanDistance a b = euclidean a b) /\
    ((forall v c, In v vectors -> In c centroids -> length v = length c) ->
     Forall2 (nearest_under euclidean centroids k) vectors newAssignments) /\
    kMeansLoop vectors k 0 centroids assignments = Ok (centroids, assignments) /\
    (forall iters,
        kMeansLoop vectors k (S iters) centroids assignments
        = if list_eq_dec Nat.eq_dec assignments newAssignments
          then Ok (centroids, assignments)
          else kMeansLoop vectors k iters
                          (updateCentroids vectors k newAssignments centroids)
                          newAssignments) /\
    length (updateCentroids vectors k newAssignments centroids) = k /\
    forall i, i < k ->
      nth_error (updateCentroids vectors k newAssignments centroids) i
      = match members vectors newAssignments i with
        | [] => nth_error centroids i
        | m :: ms =>
          Some (map (fun d => (sum (map (fun v => operand v d) (m :: ms))
                               / of_nat (length (m :: ms)))%js)
                    (seq 0 (length m)))
        end.
Proof.
  intros Hk Hlen.
  destruct (@assign_all_ok N centroids k vectors) as (new & Hnew & Hnlen & Hlt); [lia..|].
  assert (Hnear : Forall2 (is_nearest centroids k) vectors new).
  { apply mapR_inv in Hnew. eapply Forall2_impl; [|exact Hnew].
    intros v a Ha. simpl in Ha.
    destruct (@nearest_is_nearest N L centroids k v) as (idx & Hidx & Hnear); [lia..|].
    congruence. }
  exists new. split; [exact Hnear|].
  split; [intros a b Hab; apply euclideanDistance_euclidean, Nat.eq_le_incl, Hab|].
  split.
  { intros Hdim. clear - Hnear Hdim.
    induction Hnear as [|v idx vs new Hv Hrest IH]; constructor.
    - apply is_nearest_euclidean; [|exact Hv].
      intros c Hc. apply Hdim; [left; reflexivity | exact Hc].
    - apply IH. intros v' c Hv' Hc. apply Hdim; [right; exact Hv' | exact Hc]. }
  split; [reflexivity|].
  split.
  { intros iters. simpl. rewrite Hnew. simpl.
    destruct (list_eq_dec Nat.eq_dec assignments new) as [-> | Hne].
    - now rewrite (proj2 (arraysEqual_eq new new) eq_refl).
    - destruct (arraysEqual assignments new) eqn:Heq; auto.
      apply arraysEqual_eq in Heq. contradiction. }
  split.
  { destruct (@updateCentroids_keeps N (fun _ => True) vectors (fun _ _ _ => I)
                k new centroids) as [H _]; [apply Forall_forall; auto|].
    congruence. }
  intros i Hi. rewrite updateCentroids_spec by lia.
  replace (i <? k)%nat with true by (symmetry; apply Nat.ltb_lt; lia).
  destruct (members vectors new i) as [|m ms]; auto.
  now rewrite meanVector_is_mean.
Qed.

Example kMeans_iteration_witness :
  exists newAssignments,
    Forall2 (@nearest_under float_number (@euclidean float_number)
                            [[1; 0]; [0; 1]]%float 2)
            [[1; 0]; [0; 1]; [0; 2]]%float newAssignments /\
    (forall iters,
        @kMeansLoop float_number [[1; 0]; [0; 1]; [0; 2]]%float 2 (S iters)
                    [[1; 0]; [0; 1]]%float [0; 0; 0]
        = if list_eq_dec Nat.eq_dec [0; 0; 0] newAssignments
          then Ok ([[1; 0]; [0; 1]]%float, [0; 0; 0])
          else @kMeansLoop float_number [[1; 0]; [0; 1]; [0; 2]]%float 2 iters
                 (@updateCentroids float_number [[1; 0]; [0; 1]; [0; 2]]%float 2
                                   newAssignments [[1; 0]; [0; 1]]%float)
                 newAssignments).
Proof.
  destruct (@kMeans_iteration float_number float_order_laws
              [[1; 0]; [0; 1]; [0; 2]]%float [[1; 0]; [0; 1]]%float 2 [0; 0; 0]
              ltac:(lia) eq_refl)
    as (new & _ & _ & Hnear & _ & Hstep & _).
  exists new. split; [|exact Hstep].
  apply Hnear. intros v c Hv Hc. simpl in Hv, Hc.
  destruct Hv as [<- | [<- | [<- | []]]]; destruct Hc as [<- | [<- | []]]; reflexivity.
Defined.

(** ** The concept mapper *)

Section ConceptMapperProperties.

Context {N : Number}.

Variable centroid : vec.
Variable thr : num.

Let sim (c : ConceptInput) : num := cosineSimilarity centroid (embedding c).

Lemma cosineSimilarity_mismatch (a b : vec) :
  length a <> length b -> cosineSimilarity a b = zero.
Proof.
  intros H. unfold cosineSimilarity.
  destruct (length a =? length b)%nat eqn:He; auto.
  apply Nat.eqb_eq in He. contradiction.
Qed.

(** Whatever the scan holds comes from a concept that passed the threshold,
    and it holds nothing only if no concept passed. *)
Lemma scanConcepts_sound : forall concepts best,
  match scanConcepts centroid thr concepts best with
  | Some (cid, s) =>
    best = Some (cid, s) \/
    exists c, In c concepts /\ concept_id c = cid /\ s = sim c /\ (s >=? thr)%js = true
  | None =>
    best = None /\ forall c, In c concepts -> (sim c >=? thr)%js = false
  end.
Proof.
  induction concepts as [|c concepts IH]; intros best; simpl.
  - destruct best as [[cid s]|]; [auto | split; [reflexivity | intros c []]].
  - fold (sim c).
    match goal with |- context [scanConcepts _ _ concepts ?b] =>
      specialize (IH b); destruct (scanConcepts centroid thr concepts b) as [[cid s]|]
    end.
    + destruct IH as [IH | (c' & Hin & Hid & Hs & Hge)].
      * destruct (sim c >=? thr)%js eqn:Hge; auto.
        destruct best as [[bid bs]|].
        -- destruct (sim c >? bs)%js; auto.
           injection IH as <- <-. right. exists c. auto.
        -- injection IH as <- <-. right. exists c. auto.
      * right. exists c'. auto.
    + destruct IH as [IH Hall].
      destruct (sim c >=? thr)%js eqn:Hge.
      * destruct best as [[bid bs]|]; [destruct (sim c >? bs)%js|]; discriminate.
      * split; auto. intros c' [<- | Hin]; auto.
Qed.

Section Maximum.

Context {L : OrderLaws}.

(** The state of the scan after the concepts [pre]: nothing if none passed
    the threshold, else the first concept of greatest similarity among
    them. *)
Definition scan_invariant (pre : list ConceptInput) (best : option (string * num)) : Prop :=
  match best with
  | None => forall c, In c pre -> (sim c >=? thr)%js = false
  | Some (cid, s) =>
    exists p c,
      nth_error pre p = Some c /\ concept_id c = cid /\ s = sim c /\
      (s >=? thr)%js = true /\
      (forall c', In c' pre -> (sim c' >? s)%js = false) /\
      (forall q c', q < p -> nth_error pre q = Some c' -> (sim c' >=? s)%js = false)
  end.

Lemma scan_step pre c best :
  scan_invariant pre best ->
  scan_invariant (pre ++ [c])
    (if (sim c >=? thr)%js
     then match best with
          | None => Some (concept_id c, sim c)
          | Some (_, b) => if (sim c >? b)%js then Some (concept_id c, sim c) else best
          end
     else best).
Proof.
  intros Hinv.
  assert (Hnew : forall s, s = sim c -> (s >=? thr)%js = true ->
            (forall c', In c' pre -> (sim c' >? s)%js = false) ->
            (forall c', In c' pre -> (sim c' >=? s)%js = false) ->
            scan_invariant (pre ++ [c]) (Some (concept_id c, s))).
  { intros s -> Hge Hgt Hties. exists (length pre), c.
    split; [rewrite nth_error_app2, Nat.sub_diag by lia; reflexivity|].
    repeat split; auto.
    - intros c' Hin. apply in_app_iff in Hin. destruct Hin as [Hin | [<- | []]]; auto.
      apply ltb_irrefl.
    - intros q c' Hq Hc'. rewrite nth_error_app1 in Hc' by lia.
      apply Hties. eapply nth_error_In; eauto. }
  destruct (sim c >=? thr)%js eqn:Hge.
  - destruct best as [[bid bs]|].
    + destruct Hinv as (p & cb & Hp & Hid & Hs & Hbge & Hmax & Hties).
      destruct (sim c >? bs)%js eqn:Hgt.
      * apply Hnew; auto.
        -- intros c' Hin. destruct (sim c' >? sim c)%js eqn:Hc; auto.
           pose proof (ltb_trans _ _ _ Hgt Hc) as Hc'.
           rewrite (Hmax c' Hin) in Hc'. discriminate.
        -- intros c' Hin. destruct (sim c' >=? sim c)%js eqn:Hc; auto.
           pose proof (ltb_leb_trans _ _ _ Hgt Hc) as Hc'.
           rewrite (Hmax c' Hin) in Hc'. discriminate.
      * exists p, cb. split; [rewrite nth_error_app1; auto; apply nth_error_Some; congruence|].
        repeat split; auto.
        -- intros c' Hin. apply in_app_iff in Hin. destruct Hin as [Hin | [<- | []]]; auto.
        -- intros q c' Hq Hc'.
           assert (p < length pre) by (apply nth_error_Some; congruence).
           rewrite nth_error_app1 in Hc' by lia. eauto.
    + simpl in Hinv. apply Hnew; auto.
      * intros c' Hin. destruct (sim c' >? sim c)%js eqn:Hc; auto.
        pose proof (ltb_leb _ _ (leb_ltb_trans _ _ _ Hge Hc)) as Hc'.
        rewrite (Hinv c' Hin) in Hc'. discriminate.
      * intros c' Hin. destruct (sim c' >=? sim c)%js eqn:Hc; auto.
        pose proof (leb_trans _ _ _ Hge Hc) as Hc'.
        rewrite (Hinv c' Hin) in Hc'. discriminate.
  - destruct best as [[bid bs]|]; simpl in *.
    + destruct Hinv as (p & cb & Hp & Hid & Hs & Hbge & Hmax & Hties).
      exists p, cb. split; [rewrite nth_error_app1; auto; apply nth_error_Some; congruence|].
      repeat split; auto.
      * intros c' Hin. apply in_app_iff in Hin. destruct Hin as [Hin | [<- | []]]; auto.
        destruct (sim c >? bs)%js eqn:Hc; auto.
        pose proof (ltb_leb _ _ (leb_ltb_trans _ _ _ Hbge Hc)) as Hc'. congruence.
      * intros q c' Hq Hc'.
        assert (p < length pre) by (apply nth_error_Some; congruence).
        rewrite nth_error_app1 in Hc' by lia. eauto.
    + intros c' Hin. apply in_app_iff in Hin. destruct Hin as [Hin | [<- | []]]; auto.
Qed.

Lemma scanConcepts_invariant : forall concepts pre best,
  scan_invariant pre best ->
  scan_invariant (pre ++ concepts) (scanConcepts centroid thr concepts best).
Proof.
  induction concepts as [|c concepts IH]; intros pre best Hinv; simpl.
  - now rewrite app_nil_r.
  - replace (pre ++ c :: concepts) with ((pre ++ [c]) ++ concepts)
      by (now rewrite <- app_assoc).
    apply IH. apply scan_step. exact Hinv.
Qed.

End Maximum.

End ConceptMapperProperties.

(** ** The suggested label *)

Lemma slice0_length n s : String.length (slice0 n s) <= n.
Proof.
  revert s; induction n as [|n IH]; intros [|c s]; simpl; try lia.
  specialize (IH s). lia.
Qed.

(** The label is the longest prefix of the summary that has at most [n]
    characters and no sentence terminator. *)
Lemma label_is_prefix n : forall s,
  exists rest,
    s = String.append (slice0 n (firstSentence s)) rest /\
    (forall c, In c (list_ascii_of_string (slice0 n (firstSentence s))) ->
               isTerminator c = false) /\
    (String.length (slice0 n (firstSentence s)) < n ->
     rest = EmptyString \/
     exists t rest', rest = String t rest' /\ isTerminator t = true).
Proof.
  induction n as [|n IH]; intros s.
  - exists s. destruct s; simpl; repeat split; auto; try tauto; lia.
  - destruct s as [|c s]; simpl.
    + exists EmptyString. repeat split; auto. tauto.
    + destruct (isTerminator c) eqn:Hc; simpl.
      * exists (String c s). repeat split; eauto. tauto.
      * destruct (IH s) as (rest & Hs & Hno & Hmax).
        exists rest. split; [now rewrite <- Hs|].
        split.
        -- intros c' [<- | Hin]; auto.
        -- intros Hlt. apply Hmax. lia.
Qed.

(** C9, as the code has it.  [mapCluster] always succeeds.  It reports a
    match if and only if some concept's cosine similarity to the centroid is
    at least the threshold; the match is then the first concept, in input
    order, of greatest similarity, and the confidence is that similarity.
    Otherwise it reports no match and suggests as label the summary up to
    its first '.', '!' or '?', cut to 50 characters: a label that may be
    empty. *)
Theorem mapCluster_matches_best {N : Number} {L : OrderLaws}
        (cluster : ClusterInput) (concepts : list ConceptInput) (options : MapOptions) :
  exists r,
    mapCluster cluster concepts options = Success r /\
    mr_clusterId r = ci_id cluster /\
    (matched r = true <->
     exists c, In c concepts /\
       (cosineSimilarity (ci_centroid cluster) (embedding c) >=? threshold options)%js
       = true) /\
    (matched r = true ->
     exists p c,
       nth_error concepts p = Some c /\
       conceptId r = Some (concept_id c) /\
       confidence r = Some (cosineSimilarity (ci_centroid cluster) (embedding c)) /\
       suggestedLabel r = None /\
       (cosineSimilarity (ci_centroid cluster) (embedding c) >=? threshold options)%js
       = true /\
       (forall c', In c' concepts ->
          (cosineSimilarity (ci_centroid cluster) (embedding c')
           >? cosineSimilarity (ci_centroid cluster) (embedding c))%js = false) /\
       (forall q c', q < p -> nth_error concepts q = Some c' ->
          (cosineSimilarity (ci_centroid cluster) (embedding c')
           >=? cosineSimilarity (ci_centroid cluster) (embedding c))%js = false)) /\
    (matched r = false ->
     conceptId r = None /\ confidence r = None /\
     exists label rest,
       suggestedLabel r = Some label /\
       summary cluster = String.append label rest /\
       String.length label <= 50 /\
       (forall c, In c (list_ascii_of_string label) -> isTerminator c = false) /\
       (String.length label < 50 ->
        rest = EmptyString \/
        exists t rest', rest = String t rest' /\ isTerminator t = true)).
Proof.
  unfold mapCluster, mapClusterBody.
  pose proof (@scanConcepts_invariant N (ci_centroid cluster) (threshold options) L
                concepts [] None) as Hinv.
  pose proof (@scanConcepts_sound N (ci_centroid cluster) (threshold options)
                concepts None) as Hsound.
  cbv zeta in Hinv, Hsound. simpl in Hinv.
  destruct (scanConcepts (ci_centroid cluster) (threshold options) concepts None)
    as [[cid s]|]; simpl.
  - eexists; split; [reflexivity|]. simpl.
    specialize (Hinv ltac:(intros c [])).
    destruct Hinv as (p & c & Hp & Hid & Hs & Hge & Hmax & Hties). subst.
    split; [reflexivity|]. split.
    { split; auto. intros _. exists c. split; auto. eapply nth_error_In; eauto. }
    split; [|discriminate].
    intros _. exists p, c. repeat split; auto.
  - eexists; split; [reflexivity|]. simpl.
    destruct Hsound as [_ Hall].
    split; [reflexivity|]. split.
    { split; [discriminate|]. intros (c & Hin & Hge). rewrite (Hall c Hin) in Hge.
      discriminate. }
    split; [discriminate|].
    intros _. split; auto. split; auto.
    destruct (label_is_prefix 50 (summary cluster)) as (rest & Hs & Hno & Hmax).
    exists (slice0 50 (firstSentence (summary cluster))), rest.
    split; auto. split; auto. split; [apply slice0_length|]. split; auto.
Qed.

Example mapCluster_matches_best_witness :
  exists r,
    mapCluster
      {| ci_id := 1; summary := "React hooks and state management";
         ci_centroid := fvec [1; 2; 3]%float |}
      [ {| concept_id := "programming/react-hooks"; label := "React Hooks";
           embedding := fvec [1; 2; 3]%float |};
        {| concept_id := "programming/vue"; label := "Vue.js";
           embedding := fvec [9; 8; 7]%float |} ]
      {| threshold := fnum 0.5%float |}
    = Success r /\ mr_clusterId r = 1%Z.
Proof.
  destruct (@mapCluster_matches_best float_number float_order_laws
              {| ci_id := 1; summary := "React hooks and state management";
                 ci_centroid := fvec [1; 2; 3]%float |}
              [ {| concept_id := "programming/react-hooks"; label := "React Hooks";
                   embedding := fvec [1; 2; 3]%float |};
                {| concept_id := "programming/vue"; label := "Vue.js";
                   embedding := fvec [9; 8; 7]%float |} ]
              {| threshold := fnum 0.5%float |}) as (r & Hr & Hid & _).
  exists r. split; [exact Hr | exact Hid].
Defined.

(** The claim's non-empty label fails on a summary that is empty or opens
    with a terminator. *)
Example mapCluster_empty_label :
  @mapCluster float_number
    {| ci_id := 2; summary := ""; ci_centroid := fvec [1; 0; 0]%float |}
    [ {| concept_id := "programming/react"; label := "React";
         embedding := fvec [0; 1; 0]%float |} ]
    {| threshold := fnum 0.8%float |}
  = Success {| mr_clusterId := 2; matched := false; conceptId := None;
               confidence := None; suggestedLabel := Some "" |}
  /\
  @mapCluster float_number
    {| ci_id := 2; summary := "...and then there were none";
       ci_centroid := fvec [1; 0; 0]%float |}
    [ {| concept_id := "programming/react"; label := "React";
         embedding := fvec [0; 1; 0]%float |} ]
    {| threshold := fnum 0.8%float |}
  = Success {| mr_clusterId := 2; matched := false; conceptId := None;
               confidence := None; suggestedLabel := Some "" |}.
Proof.
  split; reflexivity.
Qed.

(** C10.  A concept whose embedding has another length than the centroid
    has similarity 0 and raises nothing: [mapCluster] succeeds on every
    input, and when the concept it reports can only be one of mismatched
    length, the threshold is at most 0. *)
Theorem mapCluster_total_on_mismatch {N : Number}
        (cluster : ClusterInput) (concepts : list ConceptInput) (options : MapOptions) :
  (forall b, length (ci_centroid cluster) <> length b ->
             cosineSimilarity (ci_centroid cluster) b = zero) /\
  exists r,
    mapCluster cluster concepts options = Success r /\
    forall cid,
      matched r = true -> conceptId r = Some cid ->
      (forall c, In c concepts -> concept_id c = cid ->
                 length (embedding c) <> length (ci_centroid cluster)) ->
      (threshold options <=? zero)%js = true.
Proof.
  split; [intros b; apply cosineSimilarity_mismatch|].
  unfold mapCluster, mapClusterBody.
  pose proof (@scanConcepts_sound N (ci_centroid cluster) (threshold options)
                concepts None) as Hsound.
  cbv zeta in Hsound.
  destruct (scanConcepts (ci_centroid cluster) (threshold options) concepts None)
    as [[cid s]|]; simpl.
  - eexists; split; [reflexivity|]. simpl.
    intros cid' _ [= <-] Hmis.
    destruct Hsound as [Hc | (c & Hin & Hid & Hs & Hge)]; [discriminate|].
    rewrite Hs, cosineSimilarity_mismatch in Hge; auto.
    specialize (Hmis c Hin Hid). congruence.
  - eexists; split; [reflexivity|]. simpl. discriminate.
Qed.

(** ** Witnesses on binary64 *)

Lemma steady_valid : valid_draws steady 4.
Proof. intros p. exists 2%Z. split; [reflexivity | lia]. Qed.

Lemma alternating_valid : valid_draws alternating 2.
Proof.
  intros p. unfold alternating. destruct (Nat.even p).
  - exists 0%Z. split; [reflexivity | lia].
  - exists 1%Z. split; [reflexivity | lia].
Qed.

Lemma alternating_recurrent : recurrent_draws alternating 2 2.
Proof.
  intros p i Hi. unfold alternating.
  assert (Hs : Nat.even (S p) = negb (Nat.even p)).
  { rewrite Nat.even_succ. unfold Nat.odd. reflexivity. }
  destruct (Nat.even p) eqn:Hp; destruct i as [|[|i]]; try lia.
  - exists p. split; [lia|]. rewrite Hp. reflexivity.
  - exists (S p). split; [lia|]. rewrite Hs. reflexivity.
  - exists (S p). split; [lia|]. rewrite Hs. reflexivity.
  - exists p. split; [lia|]. rewrite Hp. reflexivity.
Qed.

Example cluster_returns_k_clusters_witness :
  exists res pos',
    cluster steady four_points {| co_k := 2; co_maxIterations := None |} 0
    = Return res pos' /\
    Z.of_nat (length (clusters res)) = 2%Z /\
    map cl_id (clusters res) = seq 0 (Z.to_nat 2) /\
    (forall c, In c (clusters res) ->
       cl_size c
       = length (filter (fun a => (ca_clusterId a =? cl_id c)%nat) (assignments res))) /\
    length (assignments res) = length four_points /\
    map ca_id (assignments res) = map id four_points /\
    Forall (fun a => (Z.of_nat (ca_clusterId a) < 2)%Z) (assignments res).
Proof.
  apply (@cluster_returns_k_clusters float_number steady four_points 2 None 0).
  - simpl. lia.
  - exact steady_valid.
Defined.

(** C3, where the code departs from it.  Only [clusterSoft] compares the
    dimensions: on a vector of three numbers and a vector of two it fails
    before drawing anything, while [cluster] and [clusterMiniBatch] return
    a clustering for the same input, with a distance that is NaN. *)
Theorem dimension_check_only_in_clusterSoft :
  (forall (E : Elementary float_number) options pos,
      clusterSoft steady mismatched_points options pos
      = Throw {| reason := "Error: Dimension mismatch: vector 1 has 2 dims, expected 3" |}
              pos) /\
  cluster steady mismatched_points {| co_k := 1; co_maxIterations := None |} 0
  = Return {| clusters := [ {| cl_id := 0; cl_centroid := fvec [1; 2]%float;
                               cl_size := 2 |} ];
              assignments :=
                [ {| ca_id := "a"; ca_clusterId := 0; ca_distance := fnum PrimFloat.nan |};
                  {| ca_id := "b"; ca_clusterId := 0; ca_distance := fnum 0%float |} ] |} 1
  /\
  clusterMiniBatch alternating 4 mismatched_points
    {| mb_k := 1; mb_batchSize := None; mb_maxIterations := Some 3%Z |} 0
  = Return {| clusters := [ {| cl_id := 0;
                               cl_centroid := fvec [1; 2; PrimFloat.nan]%float;
                               cl_size := 2 |} ];
              assignments :=
                [ {| ca_id := "a"; ca_clusterId := 0; ca_distance := fnum PrimFloat.nan |};
                  {| ca_id := "b"; ca_clusterId := 0; ca_distance := fnum 0%float |} ] |} 7.
Proof.
  split; [|split].
  - intros E options pos. reflexivity.
  - reflexivity.
  - reflexivity.
Qed.

(** ** The BIC score *)

Section BIC.

Context {N : Number} {E : Elementary N}.

Lemma rssFrom_sum (centroids : list vec) (assignments : list nat) :
  forall vectors i rss,
    i + length vectors <= length assignments ->
    Forall (fun a => a < length centroids) assignments ->
    rssFrom vectors centroids assignments i rss
    = Ok (fold_left add
            (map (fun '(v, a) => pow2 (euclideanDistance v (nth a centroids [])))
                 (combine vectors (skipn i assignments)))
            rss).
Proof.
  induction vectors as [|v vectors IH]; intros i rss Hlen Hlt; simpl in *.
  - reflexivity.
  - destruct (nth_error assignments i) as [a|] eqn:Ha.
    2:{ apply nth_error_None in Ha. lia. }
    assert (Hak : a < length centroids).
    { rewrite Forall_forall in Hlt. apply Hlt. eapply nth_error_In; eauto. }
    destruct (nth_error centroids a) as [c|] eqn:Hc.
    2:{ apply nth_error_None in Hc. lia. }
    simpl. rewrite IH by (auto; lia).
    assert (Hskip : skipn i assignments = a :: skipn (S i) assignments).
    { clear - Ha. revert i Ha. induction assignments as [|x l IHl]; intros [|i] Ha;
        simpl in *; try discriminate.
      - now injection Ha as ->.
      - now apply IHl. }
    rewrite Hskip. simpl. now rewrite (nth_error_nth _ _ _ Hc).
Qed.

Lemma calculateBIC_computed (v0 : vec) (rest centroids : list vec)
      (assignments : list nat) :
  is_clustering (v0 :: rest) centroids assignments ->
  calculateBIC (v0 :: rest) centroids assignments
  = Ok (computedBIC (lit 1 (-10)) (length (v0 :: rest)) (length centroids) (length v0)
          (sum (map (fun '(v, a) => pow2 (euclideanDistance v (nth a centroids [])))
                    (combine (v0 :: rest) assignments)))).
Proof.
  intros [Hlen Hlt]. unfold calculateBIC. cbn [lookup nth_error rbind].
  rewrite rssFrom_sum by (auto; simpl in *; lia).
  reflexivity.
Qed.



End BIC.

Section ArgumentChecks.

Context {N : Number}.
Variable random : nat -> num.

(** ** The three argument checks *)

Lemma kMeans_rejects vectors k maxIterations pos :
  vectors = [] \/ (k <= 0)%Z \/ (k > Z.of_nat (length vectors))%Z ->
  exists msg,
    In msg ["Cannot cluster empty vector array"; "k must be positive";
            "k cannot exceed number of vectors"] /\
    kMeans random vectors k maxIterations pos = Throw (JsError msg) pos /\
    forall fuel batchSize,
      miniBatchKMeans random fuel vectors k batchSize maxIterations pos
      = Throw (JsError msg) pos.
Proof.
  intros H. unfold kMeans, miniBatchKMeans.
  destruct (length vectors =? 0)%nat eqn:Hn.
  { eexists; split; [left; reflexivity|]. split; reflexivity. }
  destruct (k <=? 0)%Z eqn:Hk.
  { eexists; split; [right; left; reflexivity|]. split; reflexivity. }
  destruct (k >? Z.of_nat (length vectors))%Z eqn:Hkn.
  { eexists; split; [right; right; left; reflexivity|]. split; reflexivity. }
  exfalso. apply Nat.eqb_neq in Hn. apply Z.leb_gt in Hk.
  rewrite Z.gtb_ltb in Hkn. apply Z.ltb_ge in Hkn.
  destruct H as [-> | [H | H]]; simpl in *; lia.
Qed.

(** C8.  [cluster] and [clusterMiniBatch] fail with a [ClusteringError]
    whenever the point list is empty, [k <= 0] or [k] exceeds the number of
    points.  The failure leaves the random source where it was: no seed has
    been drawn, so no iteration has begun. *)
Theorem cluster_rejects_invalid_input
        (embeddings : list Embedding) (k : Z) (maxIterations : option Z) (pos : nat) :
  embeddings = [] \/ (k <= 0)%Z \/ (k > Z.of_nat (length embeddings))%Z ->
  exists msg,
    In msg ["Error: Cannot cluster empty vector array"; "Error: k must be positive";
            "Error: k cannot exceed number of vectors"] /\
    cluster random embeddings {| co_k := k; co_maxIterations := maxIterations |} pos
    = Throw {| reason := msg |} pos /\
    forall fuel batchSize,
      clusterMiniBatch random fuel embeddings
        {| mb_k := k; mb_batchSize := batchSize; mb_maxIterations := maxIterations |} pos
      = Throw {| reason := msg |} pos.
Proof.
  intros H.
  destruct (@kMeans_rejects (map vector embeddings) k maxIterations pos)
    as (msg & Hin & Hk & Hmb).
  { rewrite length_map. destruct H as [-> | H]; auto. }
  exists (String.append "Error: " msg). split.
  { simpl in Hin. destruct Hin as [<- | [<- | [<- | []]]]; simpl; auto. }
  split.
  - unfold cluster, Effect_try, bind; simpl. now rewrite Hk.
  - intros fuel batchSize.
    unfold clusterMiniBatch, Effect_try, bind; simpl.
    specialize (Hmb fuel (Some (default 100%Z batchSize))).
    unfold miniBatchKMeans in *. simpl in *.
    destruct maxIterations; simpl in *; now rewrite Hmb.
Qed.

End ArgumentChecks.

Example cluster_rejects_invalid_input_witness :
  exists msg,
    In msg ["Error: Cannot cluster empty vector array"; "Error: k must be positive";
            "Error: k cannot exceed number of vectors"] /\
    cluster steady
      [fpoint "1" [1; 0]%float]
      {| co_k := 5; co_maxIterations := None |} 0
    = Throw {| reason := msg |} 0 /\
    forall fuel batchSize,
      clusterMiniBatch steady fuel
        [fpoint "1" [1; 0]%float]
        {| mb_k := 5; mb_batchSize := batchSize; mb_maxIterations := None |} 0
      = Throw {| reason := msg |} 0.
Proof.
  apply (@cluster_rejects_invalid_input float_number).
  right; right. simpl. lia.
Defined.

(** ** Exact arithmetic *)

Section Exact.

Local Open Scope R_scope.



Example guarded_quotient_binary64 :
  @div float_number (@add float_number (fnum 0) (@lit float_number 1 (-10)))
       (@of_nat float_number 2)
  = @add float_number (@div float_number (fnum 0) (@of_nat float_number 2))
         (@div float_number (@lit float_number 1 (-10)) (@of_nat float_number 2)).
Proof. reflexivity. Qed.

End Exact.

(** ** The BIC scan *)

Lemma NoDup_keys_functional {A B} (l : list (A * B)) k b b' :
  NoDup (map fst l) -> In (k, b) l -> In (k, b') l -> b = b'.
Proof.
  induction l as [|[k0 b0] l IH]; simpl; [tauto|].
  intros Hnd H1 H2. inversion Hnd as [|? ? Hnotin Hnd']; subst.
  assert (Hkey : forall x, In (k0, x) l -> False).
  { intros x Hx. apply Hnotin. apply in_map_iff. exists (k0, x). auto. }
  destruct H1 as [H1 | H1], H2 as [H2 | H2].
  - congruence.
  - injection H1 as -> ->. destruct (Hkey _ H2).
  - injection H2 as -> ->. destruct (Hkey _ H1).
  - auto.
Qed.

Section Selection.

Context {N : Number} {E : Elementary N}.
Variable random : nat -> num.

Lemma seedRest_returns_or_throws vs : forall steps cs pos,
  seedRest random vs steps cs pos <> Diverge.
Proof.
  induction steps as [|steps IH]; intros cs pos; simpl; [discriminate|].
  unfold bind, Math_random.
  match goal with |- context [pickWeighted vs ?d 0 ?t] =>
    destruct (pickWeighted vs d 0 t) end; [apply IH|].
  match goal with |- context [lift ?r] => destruct r end; simpl;
    [apply IH | discriminate].
Qed.

Lemma kMeans_returns_or_throws vs k maxIterations pos :
  kMeans random vs k maxIterations pos <> Diverge.
Proof.
  unfold kMeans. repeat match goal with |- context [if ?c then _ else _] =>
                          destruct c; [discriminate|] end.
  unfold bind, kMeansPlusPlusInit, bind, Math_random.
  match goal with |- context [lift ?r] => destruct r end; simpl; [|discriminate].
  match goal with |- context [seedRest random vs ?n ?c ?p] =>
    pose proof (@seedRest_returns_or_throws vs n c p) as Hs;
    destruct (seedRest random vs n c p) end; try discriminate; [|contradiction].
  match goal with |- context [lift ?r] => destruct r end; discriminate.
Qed.

Lemma scoreCandidate_returns_or_throws vs maxIterations k pos :
  scoreCandidate random vs maxIterations k pos <> Diverge.
Proof.
  unfold scoreCandidate, bind.
  pose proof (@kMeans_returns_or_throws vs k (Some maxIterations) pos) as Hk.
  destruct (kMeans random vs k (Some maxIterations) pos) as [[cs asg] p|e p|];
    try discriminate; [|contradiction].
  match goal with |- context [lift ?r] => destruct r end; discriminate.
Qed.

(** A candidate whose run throws leaves the scan as it was. *)
Lemma selectLoop_skips vs maxIterations k steps bestK bestBIC scores pos e pos1 :
  scoreCandidate random vs maxIterations k pos = Throw e pos1 ->
  selectLoop random vs maxIterations k (S steps) bestK bestBIC scores pos
  = selectLoop random vs maxIterations (k + 1) steps bestK bestBIC scores pos1.
Proof.
  intros H. simpl. unfold bind, try_catch. now rewrite H.
Qed.

(** A candidate whose run returns is recorded, and becomes the best one if
    its score is strictly below the best so far. *)
Lemma selectLoop_records vs maxIterations k steps bestK bestBIC scores pos bic pos1 :
  scoreCandidate random vs maxIterations k pos = Return bic pos1 ->
  selectLoop random vs maxIterations k (S steps) bestK bestBIC scores pos
  = selectLoop random vs maxIterations (k + 1) steps
               (if (bic <? bestBIC)%js then k else bestK)
               (if (bic <? bestBIC)%js then bic else bestBIC)
               (scores ++ [(k, bic)]) pos1.
Proof.
  intros H. simpl. unfold bind, try_catch. rewrite H. unfold ret.
  destruct (bic <? bestBIC)%js; reflexivity.
Qed.

Context {L : OrderLaws}.

Lemma scan_state_skip k bestK bestBIC scores :
  scan_state k bestK bestBIC scores -> scan_state (k + 1) bestK bestBIC scores.
Proof.
  intros (Hr & Hnd & Hlow & Hbest). repeat split; auto.
  - apply (Hr _ _ H).
  - specialize (Hr _ _ H). lia.
Qed.

Lemma scan_state_record k bestK bestBIC scores bic :
  (1 <= k)%Z ->
  scan_state k bestK bestBIC scores ->
  scan_state (k + 1)
             (if (bic <? bestBIC)%js then k else bestK)
             (if (bic <? bestBIC)%js then bic else bestBIC)
             (scores ++ [(k, bic)]).
Proof.
  intros Hk (Hr & Hnd & Hlow & Hbest).
  assert (Hfresh : ~ In k (map fst scores)).
  { intros Hin. apply in_map_iff in Hin. destruct Hin as ([k' b'] & <- & Hin).
    specialize (Hr _ _ Hin). simpl in Hr. lia. }
  split; [|split; [|split]].
  - intros k' b' Hin. apply in_app_iff in Hin. destruct Hin as [Hin | [[= <- <-] | []]].
    + specialize (Hr _ _ Hin). lia.
    + lia.
  - rewrite map_app. simpl. apply NoDup_app; auto.
    + repeat constructor. intros [].
    + intros x Hx [<- | []]. contradiction.
  - intros k' b' Hin. apply in_app_iff in Hin.
    destruct (bic <? bestBIC)%js eqn:Hlt.
    + destruct Hin as [Hin | [[= <- <-] | []]]; [|apply ltb_irrefl].
      destruct (b' <? bic)%js eqn:Hc; auto.
      pose proof (ltb_trans _ _ _ Hc Hlt) as Hc'.
      rewrite (Hlow _ _ Hin) in Hc'. discriminate.
    + destruct Hin as [Hin | [[= <- <-] | []]]; eauto.
  - destruct (bic <? bestBIC)%js eqn:Hlt.
    + right. split; [apply in_app_iff; right; left; reflexivity|].
      intros k' b' Hin Hk'. apply in_app_iff in Hin.
      destruct Hin as [Hin | [[= <- <-] | []]]; [|lia].
      destruct (b' <=? bic)%js eqn:Hc; auto.
      pose proof (leb_ltb_trans _ _ _ Hc Hlt) as Hc'.
      rewrite (Hlow _ _ Hin) in Hc'. discriminate.
    + destruct Hbest as [Hinit | [Hin Hties]]; [left; auto|right].
      split; [apply in_app_iff; left; auto|].
      intros k' b' Hin' Hk'. apply in_app_iff in Hin'.
      destruct Hin' as [Hin' | [[= <- <-] | []]]; eauto.
      specialize (Hr _ _ Hin). lia.
Qed.

(** The scan never throws and never diverges, whatever the random source. *)
Lemma selectLoop_scans vs maxIterations : forall steps k bestK bestBIC scores pos,
  (1 <= k)%Z ->
  scan_state k bestK bestBIC scores ->
  exists bestK' bestBIC' scores' pos',
    selectLoop random vs maxIterations k steps bestK bestBIC scores pos
    = Return (bestK', bestBIC', scores') pos' /\
    scan_state (k + Z.of_nat steps) bestK' bestBIC' scores'.
Proof.
  induction steps as [|steps IH]; intros k bestK bestBIC scores pos Hk Hst.
  - exists bestK, bestBIC, scores, pos. split; [reflexivity|].
    now rewrite Z.add_0_r.
  - replace (k + Z.of_nat (S steps))%Z with ((k + 1) + Z.of_nat steps)%Z by lia.
    pose proof (@scoreCandidate_returns_or_throws vs maxIterations k pos) as Hnd.
    destruct (scoreCandidate random vs maxIterations k pos) as [bic p1|e p1|] eqn:Hrun;
      [| |contradiction].
    + rewrite (@selectLoop_records vs maxIterations k steps bestK bestBIC scores pos bic p1 Hrun).
      apply IH; [lia|]. now apply scan_state_record.
    + rewrite (@selectLoop_skips vs maxIterations k steps bestK bestBIC scores pos e p1 Hrun).
      apply IH; [lia|]. now apply scan_state_skip.
Qed.

(** What the final state of the scan says about the chosen candidate. *)
Lemma scan_state_best k bestK bestBIC scores :
  scan_state k bestK bestBIC scores ->
  (1 <= bestK)%Z /\ (bestK = 1 \/ bestK < k)%Z /\
  forall b, In (bestK, b) scores ->
    forall k' b', In (k', b') scores ->
      (b' <? b)%js = false /\
      (eqb b b = true -> eqb b' b' = true -> (b <=? b')%js = true) /\
      ((k' < bestK)%Z -> (b' <=? b)%js = false).
Proof.
  intros (Hr & Hnd & Hlow & Hbest).
  assert (Hrange : (1 <= bestK /\ (bestK = 1 \/ bestK < k))%Z).
  { destruct Hbest as [[_ ->] | [Hin _]]; [lia|]. specialize (Hr _ _ Hin). lia. }
  split; [apply Hrange|]. split; [apply Hrange|].
  intros b Hb k' b' Hin.
  assert (Hlt : (b' <? b)%js = false /\ ((k' < bestK)%Z -> (b' <=? b)%js = false)).
  { destruct Hbest as [[-> ->] | [Hbin Hties]].
    - split.
      + apply above_infinity; eauto.
      + intros Hk'. specialize (Hr _ _ Hin). lia.
    - assert (b = bestBIC) by (eapply NoDup_keys_functional; eauto).
      subst b. split; eauto. }
  destruct Hlt as [Hlt Hties]. split; [exact Hlt|]. split; [|exact Hties].
  intros Hb1 Hb2. now apply not_ltb_leb.
Qed.

End Selection.

(** ** Soft clustering *)

Lemma mapR_app {A B} (f : A -> result B) (l1 l2 : list A) ys1 ys2 :
  mapR f l1 = Ok ys1 -> mapR f l2 = Ok ys2 -> mapR f (l1 ++ l2) = Ok (ys1 ++ ys2).
Proof.
  revert ys1; induction l1 as [|x l1 IH]; intros ys1; simpl.
  - intros [= <-]. auto.
  - destruct (f x) as [y|]; simpl; [|discriminate].
    destruct (mapR f l1) as [ys|] eqn:Hys; simpl; [|discriminate].
    intros [= <-] H2. now rewrite (IH ys eq_refl H2).
Qed.

Lemma combine_seq_operand {N : Number} (probs : list num) : forall i,
  map (fun j => (j, operand probs (j - i))) (seq i (length probs))
  = combine (seq i (length probs)) probs.
Proof.
  induction probs as [|p probs IH]; intros i; simpl; auto.
  rewrite Nat.sub_diag. simpl. f_equal.
  rewrite <- IH. apply map_ext_in. intros j Hj. apply in_seq in Hj.
  unfold operand. replace (j - i) with (S (j - S i)) by lia. reflexivity.
Qed.

Section SoftClustering.

Context {N : Number} {E : Elementary N}.
Variable random : nat -> num.

Lemma softmax_length distances temperature :
  length (softmax distances temperature) = length distances.
Proof. unfold softmax. now rewrite !length_map. Qed.

Lemma firstMismatch_None dims : forall vectors i,
  firstMismatch vectors i dims = None <-> Forall (fun v => length v = dims) vectors.
Proof.
  induction vectors as [|v vectors IH]; intros i; simpl.
  - split; auto.
  - destruct (length v =? dims)%nat eqn:Hv.
    + apply Nat.eqb_eq in Hv. rewrite IH. split.
      * intros H; constructor; auto.
      * intros H; inversion H; auto.
    + apply Nat.eqb_neq in Hv. split; [discriminate|].
      intros H; inversion H; contradiction.
Qed.

(** *** What a returning run of k-means went through *)

Lemma seedRest_length vs : forall steps cs pos cs' pos',
  seedRest random vs steps cs pos = Return cs' pos' -> length cs' = length cs + steps.
Proof.
  induction steps as [|steps IH]; intros cs pos cs' pos'; simpl.
  - intros [= <- <-]. lia.
  - unfold bind, Math_random.
    match goal with |- context [pickWeighted vs ?d 0 ?t] =>
      destruct (pickWeighted vs d 0 t) end.
    + intros H. apply IH in H. rewrite length_app in H. simpl in H. lia.
    + match goal with |- context [lift ?r] => destruct r end; simpl; [|discriminate].
      intros H. apply IH in H. rewrite length_app in H. simpl in H. lia.
Qed.

Lemma kMeansLoop_length vs k : forall iters cs asg cs' asg',
  kMeansLoop vs k iters cs asg = Ok (cs', asg') -> length cs' = length cs.
Proof.
  induction iters as [|iters IH]; intros cs asg cs' asg'; simpl.
  - now intros [= <- <-].
  - destruct (mapR (nearest cs k) vs) as [new|]; simpl; [|discriminate].
    destruct (arraysEqual asg new); [now intros [= <- <-]|].
    intros H. apply IH in H. rewrite H.
    destruct (@updateCentroids_keeps N (fun _ => True) vs (fun _ _ _ => I) k new cs)
      as [Hlen _]; [apply Forall_forall; auto|]. exact Hlen.
Qed.

Lemma kMeans_length vs k maxIterations pos cs asg pos' :
  kMeans random vs k maxIterations pos = Return (cs, asg) pos' ->
  (0 < k <= Z.of_nat (length vs))%Z /\ length cs = Z.to_nat k.
Proof.
  unfold kMeans.
  destruct (length vs =? 0)%nat; [discriminate|].
  destruct (k <=? 0)%Z eqn:Hk0; [discriminate|].
  destruct (k >? Z.of_nat (length vs))%Z eqn:Hk1; [discriminate|].
  apply Z.leb_gt in Hk0. rewrite Z.gtb_ltb in Hk1. apply Z.ltb_ge in Hk1.
  unfold bind, kMeansPlusPlusInit, bind, Math_random.
  match goal with |- context [lift ?r] => destruct r end; simpl; [|discriminate].
  match goal with |- context [seedRest random vs ?n ?c ?p] =>
    destruct (seedRest random vs n c p) as [cs0 p0| |] eqn:Hseed end; try discriminate.
  apply seedRest_length in Hseed. simpl in Hseed.
  match goal with |- context [lift ?r] => destruct r as [[cs1 asg1]|] eqn:Hloop end;
    simpl; [|discriminate].
  intros [= <- <- <-]. apply kMeansLoop_length in Hloop.
  split; [lia|]. lia.
Qed.

(** *** The soft assignments, point by point *)

Lemma block_emitted (embeddings : list Embedding) minP cs e i :
  nth_error embeddings i = Some e ->
  mapR (fun a => let? e' := lookup embeddings (vectorIdx a) in
                 Ok {| chunkId := id e';
                       clusterId := raw_clusterId a;
                       probability := raw_probability a |})
       (filter (fun a => (raw_probability a >=? minP)%js)
               (map (fun j => {| vectorIdx := i;
                                 raw_clusterId := j;
                                 raw_probability :=
                                   operand (softmax (map (fun c => euclideanDistance (vector e) c) cs)
                                                    (default (lit 5 (-1)) None)) j |})
                    (seq 0 (length cs))))
  = Ok (emitted minP cs e).
Proof.
  intros He. unfold emitted, memberships. simpl default.
  set (probs := softmax (map (fun c => euclideanDistance (vector e) c) cs) (lit 5 (-1))).
  assert (Hlen : length cs = length probs).
  { unfold probs. now rewrite softmax_length, length_map. }
  rewrite Hlen, <- combine_seq_operand.
  induction (seq 0 (length probs)) as [|j js IH]; simpl; auto.
  rewrite Nat.sub_0_r.
  destruct (operand probs j >=? minP)%js; simpl; auto.
  unfold lookup at 1. rewrite He. simpl. now rewrite IH.
Qed.

Lemma blocks_emitted minP cs : forall (suffix pre : list Embedding),
  mapR (fun a => let? e' := lookup (pre ++ suffix) (vectorIdx a) in
                 Ok {| chunkId := id e';
                       clusterId := raw_clusterId a;
                       probability := raw_probability a |})
       (filter (fun a => (raw_probability a >=? minP)%js)
               (concat
                  (mapi (fun v i =>
                           map (fun j => {| vectorIdx := i;
                                            raw_clusterId := j;
                                            raw_probability :=
                                              operand (softmax (map (fun c => euclideanDistance v c) cs)
                                                               (default (lit 5 (-1)) None)) j |})
                               (seq 0 (length cs)))
                        (map vector suffix) (length pre))))
  = Ok (flat_map (emitted minP cs) suffix).
Proof.
  induction suffix as [|e suffix IH]; intros pre; simpl; auto.
  rewrite filter_app. apply mapR_app.
  - apply block_emitted. rewrite nth_error_app2, Nat.sub_diag by lia. reflexivity.
  - specialize (IH (pre ++ [e])). rewrite <- app_assoc in IH. simpl in IH.
    rewrite length_app in IH. simpl in IH. rewrite Nat.add_1_r in IH. exact IH.
Qed.

(** *** What a returning run of [clusterSoft] went through *)

Lemma clusterSoft_inv (e0 e1 : Embedding) (rest : list Embedding)
      (options : SoftClusterOptions) pos res pos' :
  clusterSoft random (e0 :: e1 :: rest) options pos = Return res pos' ->
  exists bestK bestBIC scores p1 cs asg,
    Forall (fun v => length v = length (vector e0)) (map vector (e0 :: e1 :: rest)) /\
    (if default true (useBIC options)
        && (Z.min (default 10%Z (maxClusters options))
                  (Z.of_nat (length (e0 :: e1 :: rest))) >? 1)%Z
     then selectLoop random (map vector (e0 :: e1 :: rest))
                     (default 100%Z (so_maxIterations options)) 1
                     (Z.to_nat (Z.min (default 10%Z (maxClusters options))
                                      (Z.of_nat (length (e0 :: e1 :: rest)))))
                     1%Z infinity [] pos
          = Return (bestK, bestBIC, scores) p1
     else bestK = Z.min (default 10%Z (maxClusters options))
                        (Z.of_nat (length (e0 :: e1 :: rest)))
          /\ scores = [] /\ p1 = pos) /\
    kMeans random (map vector (e0 :: e1 :: rest)) bestK
           (Some (default 100%Z (so_maxIterations options))) p1
    = Return (cs, asg) pos' /\
    res = {| numClusters := bestK;
             softAssignments :=
               flat_map (emitted (default (lit 1 (-2)) (minProbability options)) cs)
                        (e0 :: e1 :: rest);
             centroids :=
               mapi (fun vector idx => {| cc_clusterId := idx; cc_vector := vector |})
                    cs 0;
             metadata :=
               if default true (useBIC options)
               then Some {| bicScores := Some scores; selectedK := Some bestK |}
               else None |}.
Proof.
  unfold clusterSoft, Effect_try.
  set (embeddings := e0 :: e1 :: rest).
  set (vectors := map vector embeddings).
  cbv beta iota.
  change (match embeddings with
          | [] => ?a | [e] => ?b | e :: _ :: _ => ?c end)
    with (match embeddings with [] => a | [e] => b | e :: _ :: _ => c end).
  unfold embeddings at 1. cbv beta iota. fold embeddings. fold vectors.
  destruct (firstMismatch (tl vectors) 1 (length (vector e0))) as [[i len]|] eqn:Hmis;
    [discriminate|].
  assert (Hdims : Forall (fun v => length v = length (vector e0)) vectors).
  { apply firstMismatch_None in Hmis. unfold vectors, embeddings in *. simpl in *.
    constructor; auto. }
  set (maxK := Z.min (default 10%Z (maxClusters options)) (Z.of_nat (length vectors))).
  assert (HmaxK : maxK = Z.min (default 10%Z (maxClusters options))
                               (Z.of_nat (length embeddings))).
  { unfold maxK, vectors. now rewrite length_map. }
  unfold bind at 1.
  set (sel := if default true (useBIC options) && (maxK >? 1)%Z
              then selectLoop random vectors (default 100%Z (so_maxIterations options))
                              1 (Z.to_nat maxK) 1%Z infinity []
              else ret (maxK, infinity, [])).
  destruct (sel pos) as [[[bestK bestBIC] scores] p1| |] eqn:Hsel; try discriminate.
  unfold bind at 1, softCluster, bind at 1.
  destruct (kMeans random vectors bestK (Some (default 100%Z (so_maxIterations options))) p1)
    as [[cs asg] p2| |] eqn:Hk; try discriminate.
  pose proof (kMeans_length _ _ _ _ Hk) as [_ Hlen].
  unfold ret at 1. unfold bind at 1.
  rewrite <- Hlen.
  pose proof (@blocks_emitted (default (lit 1 (-2)) (minProbability options)) cs
                embeddings []) as Hsoft.
  simpl app in Hsoft. simpl length in Hsoft. fold vectors in Hsoft.
  rewrite Hsoft. simpl lift. unfold ret.
  intros [= <- <-].
  exists bestK, bestBIC, scores, p1, cs, asg.
  split; [exact Hdims|]. rewrite <- HmaxK.
  split.
  { unfold sel in Hsel. destruct (default true (useBIC options) && (maxK >? 1)%Z).
    - exact Hsel.
    - unfold ret in Hsel. injection Hsel as <- _ <- <-. auto. }
  split; [exact Hk|]. reflexivity.
Qed.

(** *** And the other way round *)

Lemma clusterSoft_run (e0 e1 : Embedding) (rest : list Embedding)
      (options : SoftClusterOptions) pos bestK bestBIC scores p1 cs asg pos' :
  Forall (fun v => length v = length (vector e0)) (map vector (e0 :: e1 :: rest)) ->
  (if default true (useBIC options)
      && (Z.min (default 10%Z (maxClusters options))
                (Z.of_nat (length (e0 :: e1 :: rest))) >? 1)%Z
   then selectLoop random (map vector (e0 :: e1 :: rest))
                   (default 100%Z (so_maxIterations options)) 1
                   (Z.to_nat (Z.min (default 10%Z (maxClusters options))
                                    (Z.of_nat (length (e0 :: e1 :: rest)))))
                   1%Z infinity [] pos
        = Return (bestK, bestBIC, scores) p1
   else bestK = Z.min (default 10%Z (maxClusters options))
                      (Z.of_nat (length (e0 :: e1 :: rest)))
        /\ scores = [] /\ p1 = pos) ->
  kMeans random (map vector (e0 :: e1 :: rest)) bestK
         (Some (default 100%Z (so_maxIterations options))) p1
  = Return (cs, asg) pos' ->
  clusterSoft random (e0 :: e1 :: rest) options pos
  = Return {| numClusters := bestK;
              softAssignments :=
                flat_map (emitted (default (lit 1 (-2)) (minProbability options)) cs)
                         (e0 :: e1 :: rest);
              centroids :=
                mapi (fun vector idx => {| cc_clusterId := idx; cc_vector := vector |})
                     cs 0;
              metadata :=
                if default true (useBIC options)
                then Some {| bicScores := Some scores; selectedK := Some bestK |}
                else None |} pos'.
Proof.
  intros Hdims Hsel Hk.
  unfold clusterSoft, Effect_try.
  set (embeddings := e0 :: e1 :: rest) in *.
  set (vectors := map vector embeddings) in *.
  cbv beta iota.
  change (match embeddings with
          | [] => ?a | [e] => ?b | e :: _ :: _ => ?c end)
    with (match embeddings with [] => a | [e] => b | e :: _ :: _ => c end).
  unfold embeddings at 1. cbv beta iota. fold embeddings. fold vectors.
  assert (Hmis : firstMismatch (tl vectors) 1 (length (vector e0)) = None).
  { apply firstMismatch_None. unfold vectors, embeddings in *. simpl in *.
    now inversion Hdims. }
  rewrite Hmis.
  assert (HmaxK : Z.min (default 10%Z (maxClusters options)) (Z.of_nat (length vectors))
                  = Z.min (default 10%Z (maxClusters options))
                          (Z.of_nat (length embeddings))).
  { unfold vectors. now rewrite length_map. }
  rewrite HmaxK.
  set (maxK := Z.min (default 10%Z (maxClusters options)) (Z.of_nat (length embeddings)))
    in *.
  unfold bind at 1.
  assert (Hsel' : (if default true (useBIC options) && (maxK >? 1)%Z
                   then selectLoop random vectors (default 100%Z (so_maxIterations options))
                                   1 (Z.to_nat maxK) 1%Z infinity []
                   else ret (maxK, infinity, [])) pos
                  = Return (bestK, (if default true (useBIC options) && (maxK >? 1)%Z
                                    then bestBIC else infinity), scores) p1).
  { destruct (default true (useBIC options) && (maxK >? 1)%Z); auto.
    destruct Hsel as (-> & -> & ->). reflexivity. }
  rewrite Hsel'.
  unfold bind at 1, softCluster, bind at 1. rewrite Hk.
  pose proof (kMeans_length _ _ _ _ Hk) as [_ Hlen].
  unfold ret at 1. unfold bind at 1.
  rewrite <- Hlen.
  pose proof (@blocks_emitted (default (lit 1 (-2)) (minProbability options)) cs
                embeddings []) as Hsoft.
  simpl app in Hsoft. simpl length in Hsoft. fold vectors in Hsoft.
  rewrite Hsoft. reflexivity.
Qed.

End SoftClustering.

(** ** The choice of k *)

Section ModelSelection.

Context {N : Number} {E : Elementary N} {L : OrderLaws}.
Variable random : nat -> num.

(** Under a valid random source every candidate is scored. *)
Lemma scoreCandidate_ok (v0 : vec) (rest : list vec) maxIterations k pos :
  valid_draws random (length (v0 :: rest)) ->
  (0 < k <= Z.of_nat (length (v0 :: rest)))%Z ->
  exists bic pos', scoreCandidate random (v0 :: rest) maxIterations k pos = Return bic pos'.
Proof.
  intros Hv Hk. unfold scoreCandidate, bind.
  destruct (@kMeans_ok N random (fun _ => True) (v0 :: rest) (fun _ _ => I)
              (fun _ _ _ => I) k (Some maxIterations) pos Hv Hk)
    as (cs & asg & pos' & -> & Hcs & _ & Hasg & Hlt).
  rewrite calculateBIC_computed.
  - simpl. unfold ret. eauto.
  - split; auto. now rewrite Hcs.
Qed.

Lemma selectLoop_all_scored (v0 : vec) (rest : list vec) maxIterations :
  valid_draws random (length (v0 :: rest)) ->
  forall steps k bestK bestBIC scores pos bestK' bestBIC' scores' pos',
    (1 <= k)%Z -> (k + Z.of_nat steps <= Z.of_nat (length (v0 :: rest)) + 1)%Z ->
    selectLoop random (v0 :: rest) maxIterations k steps bestK bestBIC scores pos
    = Return (bestK', bestBIC', scores') pos' ->
    map fst scores' = map fst scores ++ map (fun i => (k + Z.of_nat i)%Z) (seq 0 steps).
Proof.
  intros Hv. induction steps as [|steps IH];
    intros k bestK bestBIC scores pos bestK' bestBIC' scores' pos' Hk Hle.
  - simpl. intros [= <- <- <- <-]. now rewrite app_nil_r.
  - destruct (@scoreCandidate_ok v0 rest maxIterations k pos Hv) as (bic & p1 & Hrun);
      [lia|].
    rewrite (@selectLoop_records N E random (v0 :: rest) maxIterations k steps
               bestK bestBIC scores pos bic p1 Hrun).
    intros H. apply IH in H; [|lia..].
    rewrite H, map_app. simpl. rewrite <- app_assoc. simpl.
    rewrite Z.add_0_r. do 2 f_equal.
    rewrite <- seq_shift, map_map. apply map_ext. intros i. lia.
Qed.

(** C4.  When the BIC-driven selection runs ([useBIC] set and more than one
    candidate), the result reports the scores recorded and the chosen k:
    k lies in [1, maxK]; no recorded score is strictly below its score, which
    is therefore less than or equal to every recorded score that is a number;
    every candidate recorded before it has a strictly worse score (or NaN),
    so that ties go to the smaller k; a candidate whose run throws is passed
    over, the scan going on unchanged; and under a valid random source all
    candidates from 1 to maxK are recorded. *)
Theorem clusterSoft_selects_lowest_BIC
        (embeddings : list Embedding) (options : SoftClusterOptions) pos res pos' :
  clusterSoft random embeddings options pos = Return res pos' ->
  default true (useBIC options) = true ->
  (1 < Z.min (default 10%Z (maxClusters options)) (Z.of_nat (length embeddings)))%Z ->
  exists scores,
    metadata res
    = Some {| bicScores := Some scores; selectedK := Some (numClusters res) |} /\
    (1 <= numClusters res
     <= Z.min (default 10%Z (maxClusters options)) (Z.of_nat (length embeddings)))%Z /\
    (forall k' b', In (k', b') scores ->
       (1 <= k'
        <= Z.min (default 10%Z (maxClusters options)) (Z.of_nat (length embeddings)))%Z) /\
    NoDup (map fst scores) /\
    (forall b, In (numClusters res, b) scores ->
       forall k' b', In (k', b') scores ->
         (b' <? b)%js = false /\
         (eqb b b = true -> eqb b' b' = true -> (b <=? b')%js = true) /\
         ((k' < numClusters res)%Z -> (b' <=? b)%js = false)) /\
    (forall vectors maxIterations k steps bestK bestBIC scores0 p e p1,
       scoreCandidate random vectors maxIterations k p = Throw e p1 ->
       selectLoop random vectors maxIterations k (S steps) bestK bestBIC scores0 p
       = selectLoop random vectors maxIterations (k + 1) steps bestK bestBIC scores0 p1) /\
    (valid_draws random (length embeddings) ->
     map fst scores
     = map Z.of_nat
           (seq 1 (Z.to_nat (Z.min (default 10%Z (maxClusters options))
                                   (Z.of_nat (length embeddings)))))).
Proof.
  intros Hrun Hbic HmaxK.
  destruct embeddings as [|e0 [|e1 rest]]; [simpl in HmaxK; lia..|].
  destruct (@clusterSoft_inv N E random e0 e1 rest options pos res pos' Hrun)
    as (bestK & bestBIC & scores & p1 & cs & asg & Hdims & Hsel & Hk & ->).
  set (maxK := Z.min (default 10%Z (maxClusters options))
                     (Z.of_nat (length (e0 :: e1 :: rest)))) in *.
  rewrite Hbic in *. replace (maxK >? 1)%Z with true in Hsel
    by (symmetry; rewrite Z.gtb_ltb; apply Z.ltb_lt; lia).
  simpl andb in Hsel. cbv iota in Hsel.
  destruct (@selectLoop_scans N E random L (map vector (e0 :: e1 :: rest))
              (default 100%Z (so_maxIterations options)) (Z.to_nat maxK) 1 1%Z
              infinity [] pos) as (bk & bb & sc & p' & Hscan & Hst); [lia| |].
  { split; [intros ? ? []|]. split; [constructor|]. split; [intros ? ? []|]. left; auto. }
  rewrite Hscan in Hsel. injection Hsel as <- <- <- <-.
  replace (1 + Z.of_nat (Z.to_nat maxK))%Z with (maxK + 1)%Z in Hst by lia.
  pose proof (@scan_state_best N L _ _ _ _ Hst) as (Hb1 & Hb2 & Hbest).
  exists sc. simpl. split; [reflexivity|]. split; [lia|].
  split.
  { intros k' b' Hin. destruct Hst as (Hr & _). specialize (Hr _ _ Hin). lia. }
  split; [apply Hst|]. split; [exact Hbest|]. split.
  { intros. eapply selectLoop_skips; eassumption. }
  intros Hv.
  assert (Hv' : valid_draws random (length (vector e0 :: map vector (e1 :: rest)))).
  { simpl. rewrite length_map. exact Hv. }
  assert (Hle : (1 + Z.of_nat (Z.to_nat maxK)
                 <= Z.of_nat (length (vector e0 :: map vector (e1 :: rest))) + 1)%Z).
  { simpl length. rewrite length_map. unfold maxK. simpl length. lia. }
  pose proof (@selectLoop_all_scored (vector e0) (map vector (e1 :: rest))
                (default 100%Z (so_maxIterations options)) Hv' (Z.to_nat maxK) 1 1%Z
                infinity [] pos bk bb sc p' ltac:(lia) Hle Hscan) as Hall.
  rewrite Hall. cbn [app map]. rewrite <- seq_shift, map_map. apply map_ext.
  intros i. lia.
Qed.

End ModelSelection.

(** ** Soft clustering returns *)

Section SoftReturns.

Context {N : Number} {E : Elementary N} {L : OrderLaws}.
Variable random : nat -> num.

(** With points of one dimension, a valid random source and at least one
    cluster allowed, [clusterSoft] returns; its centroids keep every
    property that the points have and that means of points keep. *)
Lemma clusterSoft_returns (P : vec -> Prop) (e0 e1 : Embedding) (rest : list Embedding)
      (options : SoftClusterOptions) pos :
  Forall (fun v => length v = length (vector e0)) (map vector (e0 :: e1 :: rest)) ->
  valid_draws random (length (e0 :: e1 :: rest)) ->
  (1 <= default 10%Z (maxClusters options))%Z ->
  (forall v, In v (map vector (e0 :: e1 :: rest)) -> P v) ->
  (forall l, l <> [] -> (forall v, In v l -> In v (map vector (e0 :: e1 :: rest))) ->
             P (meanVector l)) ->
  exists bestK scores cs pos',
    clusterSoft random (e0 :: e1 :: rest) options pos
    = Return {| numClusters := bestK;
                softAssignments :=
                  flat_map (emitted (default (lit 1 (-2)) (minProbability options)) cs)
                           (e0 :: e1 :: rest);
                centroids :=
                  mapi (fun vector idx => {| cc_clusterId := idx; cc_vector := vector |})
                       cs 0;
                metadata :=
                  if default true (useBIC options)
                  then Some {| bicScores := Some scores; selectedK := Some bestK |}
                  else None |} pos' /\
    cs <> [] /\ Forall P cs.
Proof.
  intros Hdims Hv Hmax HP Hmean.
  set (embeddings := e0 :: e1 :: rest) in *.
  set (maxK := Z.min (default 10%Z (maxClusters options)) (Z.of_nat (length embeddings))).
  assert (Hn : (2 <= Z.of_nat (length embeddings))%Z) by (simpl length; lia).
  assert (Hsel : exists bestK bestBIC scores p1,
             (if default true (useBIC options) && (maxK >? 1)%Z
              then selectLoop random (map vector embeddings)
                              (default 100%Z (so_maxIterations options)) 1
                              (Z.to_nat maxK) 1%Z infinity [] pos
                   = Return (bestK, bestBIC, scores) p1
              else bestK = maxK /\ scores = [] /\ p1 = pos) /\
             (1 <= bestK <= Z.of_nat (length embeddings))%Z).
  { destruct (default true (useBIC options) && (maxK >? 1)%Z) eqn:Hc.
    - apply andb_true_iff in Hc. destruct Hc as [_ Hc].
      rewrite Z.gtb_ltb in Hc. apply Z.ltb_lt in Hc.
      destruct (@selectLoop_scans N E random L (map vector embeddings)
                  (default 100%Z (so_maxIterations options)) (Z.to_nat maxK) 1 1%Z
                  infinity [] pos) as (bk & bb & sc & p' & Hscan & Hst); [lia| |].
      { split; [intros ? ? []|]. split; [constructor|]. split; [intros ? ? []|].
        left; auto. }
      pose proof (@scan_state_best N L _ _ _ _ Hst) as (Hb1 & Hb2 & _).
      exists bk, bb, sc, p'. split; [exact Hscan|]. unfold maxK in *. lia.
    - exists maxK, infinity, [], pos. split; [auto|]. unfold maxK. lia. }
  destruct Hsel as (bestK & bestBIC & scores & p1 & Hsel & Hrange).
  destruct (@kMeans_ok N random P (map vector embeddings) HP Hmean bestK
              (Some (default 100%Z (so_maxIterations options))) p1)
    as (cs & asg & pos' & Hk & Hlen & HPcs & _).
  { rewrite length_map. exact Hv. }
  { rewrite length_map. lia. }
  exists bestK, scores, cs, pos'. split.
  - eapply clusterSoft_run; eauto.
  - split; [|exact HPcs]. destruct cs; [simpl in Hlen; lia|discriminate].
Qed.

End SoftReturns.


(** ** Witnesses in exact arithmetic *)

Lemma Int_part_0 : Int_part 0 = 0%Z.
Proof.
  unfold Int_part. rewrite <- (tech_up 0 1); [reflexivity | simpl; lra | simpl; lra].
Qed.

Lemma still_valid n : 0 < n -> valid_draws still n.
Proof.
  intros Hn p. exists 0%Z. split; [|lia].
  unfold still. simpl. now rewrite Rmult_0_l, Int_part_0.
Qed.

Lemma two_points_run :
  exists res pos',
    @clusterSoft exact_number still exact_elementary two_points default_options 0
    = Return res pos'.
Proof.
  destruct (@clusterSoft_returns exact_number exact_elementary exact_order_laws still
              (fun _ => True)
              {| id := "a"; vector := [Fin 0] : @vec exact_number |}
              {| id := "b"; vector := [Fin 1] : @vec exact_number |} []
              default_options 0)
    as (bestK & scores & cs & pos' & Hrun & _); auto.
  - repeat constructor.
  - apply still_valid. simpl. lia.
  - simpl. lia.
  - eauto.
Qed.

Example clusterSoft_selects_lowest_BIC_witness :
  exists res pos' scores,
    @clusterSoft exact_number still exact_elementary two_points default_options 0
    = Return res pos' /\
    metadata res
    = Some {| bicScores := Some scores; selectedK := Some (numClusters res) |} /\
    (1 <= numClusters res <= 2)%Z.
Proof.
  destruct two_points_run as (res & pos' & Hrun).
  destruct (@clusterSoft_selects_lowest_BIC exact_number exact_elementary
              exact_order_laws still two_points default_options 0 res pos' Hrun
              eq_refl ltac:(simpl; lia))
    as (scores & Hmeta & Hrange & _).
  exists res, pos', scores. split; [exact Hrun|]. split; [exact Hmeta|].
  simpl in Hrange. lia.
Defined.


(* ================================================================== *)
(** * Further properties of the clustering code *)
(* ================================================================== *)

(** ** Counting assignments *)

Lemma count_repeat_zero n i :
  length (filter (fun a => (a =? i)%nat) (repeat 0 n)) = match i with O => n | S _ => 0 end.
Proof.
  induction n as [|n IH]; simpl; [now destruct i|].
  destruct i; simpl; [now rewrite IH | exact IH].
Qed.

Lemma sizes_by_id {N : Number} (cls : list Cluster) (asg : list nat) :
  (forall c, In c cls ->
             cl_size c = length (filter (fun a => (a =? cl_id c)%nat) asg)) ->
  map cl_size cls
  = map (fun i => length (filter (fun a => (a =? i)%nat) asg)) (map cl_id cls).
Proof.
  intros H. rewrite map_map. apply map_ext_in. exact H.
Qed.




Section HardClusteringEdges.

Context {N : Number}.
Variable random : nat -> num.

Local Open Scope js_scope.

(** ** A single cluster *)

Lemma nearest_single (c v : vec) : nearest [c] 1 v = Ok 0%nat.
Proof.
  unfold nearest. simpl. destruct (euclideanDistance v c <? infinity); reflexivity.
Qed.

Lemma assign_single (c : vec) (vs : list vec) :
  mapR (nearest [c] 1) vs = Ok (repeat 0%nat (length vs)).
Proof.
  induction vs as [|v vs IH]; simpl; auto.
  rewrite nearest_single. simpl. now rewrite IH.
Qed.

Lemma kMeansLoop_single (c : vec) (vs : list vec) iters :
  kMeansLoop vs 1 iters [c] (repeat 0%nat (length vs))
  = Ok ([c], repeat 0%nat (length vs)).
Proof.
  destruct iters as [|iters]; simpl; auto.
  rewrite assign_single. simpl.
  now rewrite (proj2 (@arraysEqual_eq N _ _) eq_refl).
Qed.

Lemma kMeans_single (vs : list vec) (maxIterations : option Z) (pos : nat) (z : Z) v :
  floor (random pos * of_nat (length vs)) = Some z -> (0 <= z)%Z ->
  nth_error vs (Z.to_nat z) = Some v ->
  kMeans random vs 1 maxIterations pos = Return ([v], repeat 0%nat (length vs)) (S pos).
Proof.
  intros Hz Hz0 Hv. unfold kMeans.
  assert (Hlt : Z.to_nat z < length vs) by (apply nth_error_Some; congruence).
  destruct (length vs =? 0)%nat eqn:Hn; [apply Nat.eqb_eq in Hn; lia|].
  replace (1 <=? 0)%Z with false by reflexivity.
  replace (1 >? Z.of_nat (length vs))%Z with false
    by (symmetry; rewrite Z.gtb_ltb; apply Z.ltb_ge; lia).
  unfold bind, kMeansPlusPlusInit, bind, Math_random, spread_at.
  rewrite Hz.
  destruct (z <? 0)%Z eqn:Hneg; [apply Z.ltb_lt in Hneg; lia|].
  rewrite Hv. simpl lift. unfold ret at 1.
  replace (Z.to_nat (1 - 1)) with 0%nat by reflexivity.
  simpl seedRest. unfold ret at 1.
  replace (Z.to_nat 1) with 1%nat by reflexivity.
  now rewrite kMeansLoop_single.
Qed.

(** X1.  With [k = 1] the loop stops in its first round, before any
    centroid is recomputed: the assignments it finds are the initial ones
    (every point in cluster 0).  The centroid [cluster] returns is then the
    seed, the input vector the one random draw picked, and not the mean of
    the points, whatever [maxIterations] is; every point is reported in
    cluster 0, in input order, with its own distance to that seed. *)
Theorem cluster_single_centroid_is_seed
        (embeddings : list Embedding) (maxIterations : option Z) (pos : nat) (z : Z) :
  floor (random pos * of_nat (length embeddings)) = Some z ->
  (0 <= z < Z.of_nat (length embeddings))%Z ->
  exists e res,
    nth_error embeddings (Z.to_nat z) = Some e /\
    cluster random embeddings {| co_k := 1; co_maxIterations := maxIterations |} pos
    = Return res (S pos) /\
    map cl_centroid (clusters res) = [vector e] /\
    map cl_size (clusters res) = [length embeddings] /\
    map ca_clusterId (assignments res) = repeat 0%nat (length embeddings) /\
    map ca_id (assignments res) = map id embeddings /\
    (forall idx e' a,
        nth_error embeddings idx = Some e' -> nth_error (assignments res) idx = Some a ->
        ca_distance a = euclideanDistance (vector e') (vector e)).
Proof.
  intros Hz [Hz0 Hzn].
  destruct (nth_error embeddings (Z.to_nat z)) as [e|] eqn:He.
  2:{ apply nth_error_None in He. lia. }
  destruct (@buildResult_ok N embeddings [vector e] (repeat 0%nat (length embeddings)) 1%nat)
    as (res & Hres & Hids & Hcent & Hsize & Hcaid & Hcl & Hdist).
  { reflexivity. }
  { apply repeat_length. }
  { apply Forall_forall. intros a Ha. apply repeat_spec in Ha. lia. }
  exists e, res. split; [reflexivity|]. split.
  - unfold cluster, Effect_try, bind. cbn [co_k co_maxIterations].
    rewrite (@kMeans_single (map vector embeddings) maxIterations pos z (vector e)).
    + rewrite length_map. simpl lift. rewrite Hres. reflexivity.
    + now rewrite length_map.
    + exact Hz0.
    + now rewrite nth_error_map, He.
  - split; [exact Hcent|]. split.
    + rewrite (sizes_by_id _ _ Hsize), Hids. simpl.
      now rewrite count_repeat_zero.
    + split; [exact Hcl|]. split; [exact Hcaid|].
      intros idx e' a He' Ha.
      destruct (Hdist idx e' a He' Ha) as (c & Hc & Hd).
      assert (Hzero : ca_clusterId a = 0%nat).
      { assert (Hin : In (ca_clusterId a) (map ca_clusterId (assignments res))).
        { apply in_map. eapply nth_error_In; eauto. }
        rewrite Hcl in Hin. now apply repeat_spec in Hin. }
      rewrite Hzero in Hc. simpl in Hc. injection Hc as <-. exact Hd.
Qed.


(** ** No iteration at all *)

(** X2.  With [maxIterations <= 0] the loop body never runs: [cluster]
    returns the k-means++ seeds as centroids, each of them an input vector,
    and leaves every point in cluster 0, so that the sizes are
    [n, 0, ..., 0]. *)
Theorem cluster_without_iterations
        (embeddings : list Embedding) (k maxIterations : Z) (pos : nat) :
  (0 < k <= Z.of_nat (length embeddings))%Z -> (maxIterations <= 0)%Z ->
  valid_draws random (length embeddings) ->
  exists seeds res pos',
    kMeansPlusPlusInit random (map vector embeddings) k pos = Return seeds pos' /\
    cluster random embeddings {| co_k := k; co_maxIterations := Some maxIterations |} pos
    = Return res pos' /\
    map cl_centroid (clusters res) = seeds /\
    Forall (fun c => In c (map vector embeddings)) seeds /\
    map ca_clusterId (assignments res) = repeat 0%nat (length embeddings) /\
    map cl_size (clusters res) = length embeddings :: repeat 0%nat (Z.to_nat k - 1).
Proof.
  intros [Hk Hkn] Hmax Hv.
  destruct (@kMeansPlusPlusInit_ok N random (fun c => In c (map vector embeddings))
              (map vector embeddings) (fun v H => H) k pos)
    as (seeds & pos' & Hseed & Hlen & Hin); [now rewrite length_map | exact Hk |].
  destruct (@buildResult_ok N embeddings seeds (repeat 0%nat (length embeddings))
                            (Z.to_nat k))
    as (res & Hres & Hids & Hcent & Hsize & _ & Hcl & _).
  { exact Hlen. }
  { apply repeat_length. }
  { apply Forall_forall. intros a Ha. apply repeat_spec in Ha. lia. }
  exists seeds, res, pos'. split; [exact Hseed|]. split.
  - unfold cluster, Effect_try, bind, kMeans. cbn [co_k co_maxIterations default].
    rewrite length_map.
    destruct (length embeddings =? 0)%nat eqn:Hn; [apply Nat.eqb_eq in Hn; lia|].
    destruct (k <=? 0)%Z eqn:Hk0; [apply Z.leb_le in Hk0; lia|].
    destruct (k >? Z.of_nat (length embeddings))%Z eqn:Hk1.
    { rewrite Z.gtb_ltb in Hk1. apply Z.ltb_lt in Hk1. lia. }
    unfold bind. rewrite Hseed.
    replace (Z.to_nat maxIterations) with 0%nat by lia.
    simpl. rewrite Hres. reflexivity.
  - split; [exact Hcent|]. split; [exact Hin|]. split; [exact Hcl|].
    rewrite (sizes_by_id _ _ Hsize), Hids.
    destruct (Z.to_nat k) as [|k'] eqn:Hk'; [lia|].
    simpl. rewrite count_repeat_zero. f_equal.
    rewrite Nat.sub_0_r. clear.
    assert (G : forall i, (0 < i)%nat ->
                map (fun j => length (filter (fun a => (a =? j)%nat)
                                             (repeat 0%nat (length embeddings))))
                    (seq i k') = repeat 0%nat k').
    { induction k' as [|k' IH]; intros i Hi; simpl; auto.
      rewrite count_repeat_zero, IH by lia. destruct i; [lia | reflexivity]. }
    apply G. lia.
Qed.

(** ** Seeding *)

Lemma seedRest_seeds (vs : list vec) :
  valid_draws random (length vs) ->
  forall steps cs pos,
    Forall (fun c => In c vs) cs ->
    exists cs' pos',
      seedRest random vs steps cs pos = Return cs' pos' /\
      length cs' = (length cs + steps)%nat /\ Forall (fun c => In c vs) cs' /\
      (pos + steps <= pos' <= pos + 2 * steps)%nat.
Proof.
  intros Hv. induction steps as [|steps IH]; intros cs pos HP; simpl.
  - exists cs, pos. unfold ret. repeat split; auto; lia.
  - unfold bind, Math_random.
    match goal with |- context [pickWeighted vs ?d 0 ?t] =>
      destruct (pickWeighted vs d 0 t) as [v|] eqn:Hpick end.
    + destruct (IH (cs ++ [v]) (S pos)) as (cs' & pos' & Hrun & Hlen & HP' & Hpos).
      { apply Forall_app; split; auto. constructor; auto.
        eapply pickWeighted_In; eauto. }
      exists cs', pos'. rewrite Hrun. rewrite length_app in Hlen; simpl in Hlen.
      repeat split; auto; lia.
    + destruct (@spread_at_ok N random vs (S pos) Hv) as (v & Hsp & Hin).
      rewrite Hsp; simpl.
      destruct (IH (cs ++ [v]) (S (S pos))) as (cs' & pos' & Hrun & Hlen & HP' & Hpos).
      { apply Forall_app; split; auto. }
      exists cs', pos'. unfold ret. rewrite Hrun.
      rewrite length_app in Hlen; simpl in Hlen.
      repeat split; auto; lia.
Qed.

(** X3.  The k-means++ seeding returns [k] centroids, each a copy of an
    input vector, and consumes at least [k] and at most [2k - 1] random
    draws: one for the first seed, then one per further seed, plus one more
    whenever the weighted pick selects nothing and the fallback draws
    again. *)
Theorem kMeansPlusPlusInit_seeds (vs : list vec) (k : Z) (pos : nat) :
  valid_draws random (length vs) -> (0 < k)%Z ->
  exists cs pos',
    kMeansPlusPlusInit random vs k pos = Return cs pos' /\
    length cs = Z.to_nat k /\
    Forall (fun c => In c vs) cs /\
    (pos + Z.to_nat k <= pos' <= pos + 2 * Z.to_nat k - 1)%nat.
Proof.
  intros Hv Hk. unfold kMeansPlusPlusInit, bind, Math_random.
  destruct (@spread_at_ok N random vs pos Hv) as (v & -> & Hin); simpl.
  destruct (@seedRest_seeds vs Hv (Z.to_nat (k - 1)) [v] (S pos))
    as (cs & pos' & -> & Hlen & HP & Hpos).
  { constructor; auto. }
  exists cs, pos'. split; auto. simpl in Hlen. repeat split; auto; lia.
Qed.

(** ** Where the loop stops *)

Lemma kMeansLoop_fixed (vs : list vec) (k : nat) (cs : list vec) (asg : list nat) :
  mapR (nearest cs k) vs = Ok asg ->
  forall iters, kMeansLoop vs k iters cs asg = Ok (cs, asg).
Proof.
  intros H [|iters]; simpl; auto.
  rewrite H. simpl. now rewrite (proj2 (@arraysEqual_eq N _ _) eq_refl).
Qed.

(** X4.  Whatever the k-means loop returns, it stopped in one of three
    ways.  Either it converged: the assignments are then those the
    nearest-centroid scan gives for the returned centroids, and running the
    loop again from this state, for any number of rounds, changes nothing.
    Or no round was allowed and the state is the initial one.  Or the
    rounds ran out: the returned centroids were recomputed after the
    returned assignments were made, so the assignments are nearest to the
    centroids of the round before, not necessarily to those returned. *)
Theorem kMeansLoop_stops (vs : list vec) (k : nat) :
  forall iters (cs : list vec) (asg : list nat) cs' asg',
    kMeansLoop vs k iters cs asg = Ok (cs', asg') ->
    (mapR (nearest cs' k) vs = Ok asg' /\
     forall iters', kMeansLoop vs k iters' cs' asg' = Ok (cs', asg'))
    \/ (iters = 0%nat /\ cs' = cs /\ asg' = asg)
    \/ (exists previous,
          mapR (nearest previous k) vs = Ok asg' /\
          cs' = updateCentroids vs k asg' previous).
Proof.
  induction iters as [|iters IH]; intros cs asg cs' asg'; simpl.
  - intros [= <- <-]. right; left. auto.
  - destruct (mapR (nearest cs k) vs) as [new|] eqn:Hnew; simpl; [|discriminate].
    destruct (arraysEqual asg new) eqn:Heq.
    + intros [= <- <-]. apply (@arraysEqual_eq N) in Heq. subst new.
      left. split; [exact Hnew|]. now apply kMeansLoop_fixed.
    + intros H. destruct (IH _ _ _ _ H) as [Hfix | [(-> & -> & ->) | Hprev]].
      * left; exact Hfix.
      * right; right. exists cs. auto.
      * right; right. exact Hprev.
Qed.

(** ** The result record *)


(** X6.  When every input vector has [d] coordinates, so has every centroid
    [cluster] returns. *)
Theorem cluster_keeps_dimension
        (embeddings : list Embedding) (k : Z) (maxIterations : option Z) (pos d : nat) :
  (0 < k <= Z.of_nat (length embeddings))%Z ->
  valid_draws random (length embeddings) ->
  Forall (fun e => length (vector e) = d) embeddings ->
  exists res pos',
    cluster random embeddings {| co_k := k; co_maxIterations := maxIterations |} pos
    = Return res pos' /\
    Forall (fun c => length (cl_centroid c) = d) (clusters res).
Proof.
  intros Hk Hv Hd. unfold cluster, Effect_try, bind. simpl.
  assert (Hpts : forall v, In v (map vector embeddings) -> length v = d).
  { intros v Hin. apply in_map_iff in Hin. destruct Hin as (e & <- & He).
    rewrite Forall_forall in Hd. now apply Hd. }
  destruct (@kMeans_ok N random (fun v => length v = d) (map vector embeddings) Hpts)
    with (k := k) (maxIterations := maxIterations) (pos := pos)
    as (cs & asg & pos' & -> & Hcs & HP & Hasg & Hlt);
    rewrite ?length_map; auto.
  { intros l Hne Hl. destruct l as [|v0 rest]; [contradiction|].
    rewrite meanVector_is_mean, length_map, length_seq.
    apply Hpts, Hl. left; reflexivity. }
  rewrite length_map in Hasg.
  destruct (@buildResult_ok N embeddings cs asg (Z.to_nat k) Hcs Hasg Hlt)
    as (res & -> & _ & Hcent & _).
  simpl. exists res, pos'. split; [reflexivity|].
  rewrite <- Hcent in HP. now rewrite Forall_map in HP.
Qed.

End HardClusteringEdges.

(* ================================================================== *)
(** * Degenerate data: all points equal *)
(* ================================================================== *)

Section IdenticalPoints.

Context {N : Number} {L : OrderLaws}.
Variable random : nat -> num.
Variable v : vec.

Local Open Scope js_scope.

(** Among copies of [v] the scan never leaves index 0: the first copy is
    taken if its distance is below Infinity, and no later copy is strictly
    nearer; if the distance is NaN, nothing is ever taken. *)
Lemma nearestFrom_copies : forall steps i m minDist,
  (i + steps <= m)%nat ->
  (euclideanDistance v v <? minDist) = false ->
  nearestFrom v (repeat v m) i steps minDist 0%nat = Ok 0%nat.
Proof.
  induction steps as [|steps IH]; intros i m minDist Hle Hlt; cbn [nearestFrom]; auto.
  rewrite nth_error_repeat by lia. cbn [distanceTo rbind]. rewrite Hlt.
  apply IH; [lia | exact Hlt].
Qed.

Lemma nearest_copies m : (0 < m)%nat -> nearest (repeat v m) m v = Ok 0%nat.
Proof.
  intros Hm. unfold nearest. destruct m as [|m]; [lia|].
  cbn [nearestFrom]. rewrite nth_error_repeat by lia. cbn [distanceTo rbind].
  destruct (euclideanDistance v v <? infinity) eqn:Hinf.
  - apply nearestFrom_copies; [lia | apply ltb_irrefl].
  - apply nearestFrom_copies; [lia | exact Hinf].
Qed.

Lemma assign_copies m n :
  (0 < m)%nat -> mapR (nearest (repeat v m) m) (repeat v n) = Ok (repeat 0%nat n).
Proof.
  intros Hm. induction n as [|n IH]; simpl; auto.
  rewrite nearest_copies by exact Hm. simpl. now rewrite IH.
Qed.

Lemma kMeansLoop_copies m n iters :
  (0 < m)%nat ->
  kMeansLoop (repeat v n) m iters (repeat v m) (repeat 0%nat n)
  = Ok (repeat v m, repeat 0%nat n).
Proof.
  intros Hm. destruct iters as [|iters]; simpl; auto.
  rewrite assign_copies by exact Hm. simpl.
  now rewrite (proj2 (@arraysEqual_eq N _ _) eq_refl).
Qed.

Lemma copies_only (l : list vec) : Forall (fun c => c = v) l -> l = repeat v (length l).
Proof. induction 1 as [|c l Hc Hl IH]; simpl; auto. now rewrite Hc, <- IH. Qed.

Lemma kMeans_copies n (k : Z) maxIterations pos :
  (0 < k <= Z.of_nat n)%Z -> valid_draws random n ->
  exists pos',
    kMeans random (repeat v n) k maxIterations pos
    = Return (repeat v (Z.to_nat k), repeat 0%nat n) pos'.
Proof.
  intros [Hk Hkn] Hv.
  unfold kMeans. rewrite repeat_length.
  destruct (n =? 0)%nat eqn:Hn0; [apply Nat.eqb_eq in Hn0; lia|].
  destruct (k <=? 0)%Z eqn:Hk0; [apply Z.leb_le in Hk0; lia|].
  destruct (k >? Z.of_nat n)%Z eqn:Hk1.
  { rewrite Z.gtb_ltb in Hk1. apply Z.ltb_lt in Hk1. lia. }
  destruct (@kMeansPlusPlusInit_ok N random (fun c => c = v) (repeat v n)
              (fun c Hc => repeat_spec _ _ _ Hc) k pos)
    as (cs & pos' & Hseed & Hlen & Hcs); [now rewrite repeat_length | exact Hk |].
  apply copies_only in Hcs. rewrite Hlen in Hcs. subst cs.
  exists pos'. unfold bind. rewrite Hseed.
  rewrite kMeansLoop_copies by lia. reflexivity.
Qed.

(** X20.  On copies of one vector nothing is spread out: [cluster] returns
    [k] centroids all equal to that vector, every point is in cluster 0
    with the distance of the vector to itself, and the other [k - 1]
    clusters are empty. *)
Theorem cluster_identical_points
        (embeddings : list Embedding) (k : Z) (maxIterations : option Z) (pos : nat) :
  Forall (fun e => vector e = v) embeddings ->
  (0 < k <= Z.of_nat (length embeddings))%Z ->
  valid_draws random (length embeddings) ->
  exists res pos',
    cluster random embeddings {| co_k := k; co_maxIterations := maxIterations |} pos
    = Return res pos' /\
    map cl_centroid (clusters res) = repeat v (Z.to_nat k) /\
    map cl_size (clusters res) = length embeddings :: repeat 0%nat (Z.to_nat k - 1) /\
    map ca_clusterId (assignments res) = repeat 0%nat (length embeddings) /\
    Forall (fun a => ca_distance a = euclideanDistance v v) (assignments res).
Proof.
  intros Hsame [Hk Hkn] Hv.
  set (n := length embeddings) in *.
  assert (Hn : (0 < n)%nat) by lia.
  assert (Hvs : map vector embeddings = repeat v n).
  { unfold n. clear - Hsame. induction Hsame as [|e l He Hl IH]; simpl; auto.
    now rewrite He, IH. }
  destruct (@buildResult_ok N embeddings (repeat v (Z.to_nat k))
                            (repeat 0%nat n) (Z.to_nat k))
    as (res & Hres & Hids & Hcent & Hsize & _ & Hcl & Hdist).
  { apply repeat_length. }
  { apply repeat_length. }
  { apply Forall_forall. intros a Ha. apply repeat_spec in Ha. lia. }
  destruct (@kMeans_copies n k maxIterations pos (conj Hk Hkn) Hv) as (pos' & Hrun).
  exists res, pos'. split; [|split; [exact Hcent|split; [|split; [exact Hcl|]]]].
  - unfold cluster, Effect_try, bind. cbn [co_k co_maxIterations].
    rewrite Hvs in Hres |- *. rewrite Hrun.
    cbn [lift]. rewrite Hres. reflexivity.
  - rewrite (sizes_by_id _ _ Hsize), Hids.
    destruct (Z.to_nat k) as [|k'] eqn:Hk'; [lia|].
    simpl. rewrite count_repeat_zero. f_equal.
    rewrite Nat.sub_0_r.
    assert (G : forall i, (0 < i)%nat ->
                map (fun j => length (filter (fun a => (a =? j)%nat) (repeat 0%nat n)))
                    (seq i k') = repeat 0%nat k').
    { clear. induction k' as [|k' IH]; intros i Hi; simpl; auto.
      rewrite count_repeat_zero, IH by lia. destruct i; [lia | reflexivity]. }
    apply G. lia.
  - apply Forall_forall. intros a Ha. apply In_nth_error in Ha. destruct Ha as (idx & Ha).
    assert (Hlen : length (assignments res) = n).
    { rewrite <- (length_map ca_clusterId), Hcl. apply repeat_length. }
    assert (Hidx : (idx < n)%nat) by (rewrite <- Hlen; apply nth_error_Some; congruence).
    destruct (nth_error embeddings idx) as [e|] eqn:He.
    2:{ apply nth_error_None in He. fold n in He. lia. }
    destruct (Hdist idx e a He Ha) as (c & Hc & Hd).
    assert (Hev : vector e = v).
    { rewrite Forall_forall in Hsame. apply Hsame. eapply nth_error_In; eauto. }
    assert (Hcv : c = v).
    { apply nth_error_In in Hc. now apply repeat_spec in Hc. }
    now rewrite Hd, Hev, Hcv.
Qed.

End IdenticalPoints.

(* ================================================================== *)
(** * Further properties of mini-batch k-means *)
(* ================================================================== *)

Section MiniBatchEdges.

Context {N : Number}.
Variable random : nat -> num.

Local Open Scope js_scope.
Local Arguments Nat.modulo _ _ : simpl never.

(** ** Sampling a batch *)

(** What a returning run of the sampling loop did: it only appended to the
    batch, stopped as soon as the batch had [b] entries, and spent at least
    one draw per entry it added. *)
Lemma sampleBatch_grows (n : nat) (b : Z) : forall fuel batch pos batch' pos',
  sampleBatch random fuel n b batch pos = Return batch' pos' ->
  Z.of_nat (length batch') = Z.max (Z.of_nat (length batch)) b /\
  (pos + (length batch' - length batch) <= pos')%nat.
Proof.
  induction fuel as [|fuel IH]; intros batch pos batch' pos'; simpl;
    destruct (Z.of_nat (length batch) <? b)%Z eqn:Hlt.
  - discriminate.
  - apply Z.ltb_ge in Hlt. intros [= <- <-]. split; lia.
  - apply Z.ltb_lt in Hlt. unfold bind at 1, Math_random.
    destruct (floor (random pos * of_nat n)) as [idx|]; [|discriminate].
    destruct (existsb (Z.eqb idx) batch).
    + intros H. apply IH in H. destruct H as [H1 H2]. split; lia.
    + intros H. apply IH in H. rewrite length_app in H. simpl in H.
      destruct H as [H1 H2]. split; lia.
  - apply Z.ltb_ge in Hlt. intros [= <- <-]. split; lia.
Qed.

(** X7.  Under a random source that keeps producing every index, the
    sampling loop of an iteration returns exactly [b] indices
    ([b = min(batchSize, n)] in the caller), all distinct and all below [n],
    after at least [b] draws; when [b = n] the batch holds every point. *)
Theorem sampleBatch_draws_distinct (n window : nat) (b : Z) (fuel pos : nat) :
  (0 <= b <= Z.of_nat n)%Z ->
  valid_draws random n -> recurrent_draws random n window ->
  (n * window <= fuel)%nat ->
  exists batch pos',
    sampleBatch random fuel n b [] pos = Return batch pos' /\
    Z.of_nat (length batch) = b /\
    NoDup batch /\
    Forall (fun idx => (0 <= idx < Z.of_nat n)%Z) batch /\
    (pos + length batch <= pos')%nat /\
    (b = Z.of_nat n -> forall i, (i < n)%nat -> In (Z.of_nat i) batch).
Proof.
  intros [Hb0 Hbn] Hvalid Hrec Hfuel.
  destruct (@sampleBatch_ok N random n window b Hbn Hvalid Hrec n [] pos fuel)
    as (batch & pos' & Hrun & Hnd & Hall).
  { split; constructor. }
  { simpl. lia. }
  { exact Hfuel. }
  exists batch, pos'. split; [exact Hrun|].
  apply sampleBatch_grows in Hrun. simpl in Hrun. destruct Hrun as [Hlen Hpos].
  split; [lia|]. split; [exact Hnd|]. split; [exact Hall|]. split; [lia|].
  intros -> i Hi.
  assert (Hincl : incl batch (map Z.of_nat (seq 0 n))).
  { intros z Hz. rewrite Forall_forall in Hall. specialize (Hall z Hz).
    apply in_map_iff. exists (Z.to_nat z). split; [lia|]. apply in_seq. lia. }
  assert (Hback : incl (map Z.of_nat (seq 0 n)) batch).
  { apply NoDup_length_incl; auto. rewrite length_map, length_seq. lia. }
  apply Hback. apply in_map. apply in_seq. lia.
Qed.

(** ** Batches of no point *)

Lemma sampleBatch_none fuel n (b : Z) pos :
  (b <= 0)%Z -> sampleBatch random fuel n b [] pos = Return [] pos.
Proof.
  intros Hb.
  destruct fuel; simpl;
    (destruct (0 <? b)%Z eqn:Hlt; [apply Z.ltb_lt in Hlt; lia | reflexivity]).
Qed.

Lemma miniBatchLoop_idle fuel (vs : list vec) k (b : Z) :
  (b <= 0)%Z ->
  forall steps iter (cs : list vec) counts pos,
    miniBatchLoop random fuel vs k b iter steps cs counts cs pos = Return cs pos.
Proof.
  intros Hb. induction steps as [|steps IH]; intros iter cs counts pos; simpl.
  - reflexivity.
  - unfold bind at 1. rewrite sampleBatch_none by exact Hb.
    unfold bind at 1. simpl. unfold bind at 1. simpl.
    destruct ((iter mod 10 =? 0) && (0 <? iter))%nat.
    + unfold bind at 1.
      destruct (@centroidDelta_ok N cs cs) as (d & ->); [lia|]. simpl.
      destruct (d <? lit 1 (-4)); [reflexivity | apply IH].
    + apply IH.
Qed.

(** X8.  With [batchSize <= 0] every batch is empty: no random number is
    drawn after the seeding and no centroid ever moves, so
    [clusterMiniBatch] returns the k-means++ seeds as centroids, each point
    assigned by the final pass to the seed the nearest-centroid scan
    picks. *)
Theorem clusterMiniBatch_empty_batches
        (embeddings : list Embedding) (k batchSize : Z) (maxIterations : option Z)
        (fuel pos : nat) :
  (0 < k <= Z.of_nat (length embeddings))%Z -> (batchSize <= 0)%Z ->
  valid_draws random (length embeddings) ->
  exists seeds res pos',
    kMeansPlusPlusInit random (map vector embeddings) k pos = Return seeds pos' /\
    clusterMiniBatch random fuel embeddings
      {| mb_k := k; mb_batchSize := Some batchSize; mb_maxIterations := maxIterations |} pos
    = Return res pos' /\
    map cl_centroid (clusters res) = seeds /\
    Forall (fun c => In c (map vector embeddings)) seeds /\
    mapR (nearest seeds (Z.to_nat k)) (map vector embeddings)
    = Ok (map ca_clusterId (assignments res)).
Proof.
  intros [Hk Hkn] Hb Hv.
  destruct (@kMeansPlusPlusInit_ok N random (fun c => In c (map vector embeddings))
              (map vector embeddings) (fun v H => H) k pos)
    as (seeds & pos' & Hseed & Hlen & Hin); [now rewrite length_map | exact Hk |].
  destruct (@assign_all_ok N seeds (Z.to_nat k) (map vector embeddings))
    as (asg & Hasg & Halen & Hlt); [lia..|].
  rewrite length_map in Halen.
  destruct (@buildResult_ok N embeddings seeds asg (Z.to_nat k) Hlen Halen Hlt)
    as (res & Hres & _ & Hcent & _ & _ & Hcl & _).
  exists seeds, res, pos'. split; [exact Hseed|]. split.
  - unfold clusterMiniBatch, Effect_try, bind, miniBatchKMeans.
    cbn [mb_k mb_batchSize mb_maxIterations default].
    rewrite length_map.
    destruct (length embeddings =? 0)%nat eqn:Hn; [apply Nat.eqb_eq in Hn; lia|].
    destruct (k <=? 0)%Z eqn:Hk0; [apply Z.leb_le in Hk0; lia|].
    destruct (k >? Z.of_nat (length embeddings))%Z eqn:Hk1.
    { rewrite Z.gtb_ltb in Hk1. apply Z.ltb_lt in Hk1. lia. }
    unfold bind. rewrite Hseed.
    rewrite miniBatchLoop_idle by lia.
    rewrite Hasg. simpl. rewrite Hres. reflexivity.
  - split; [exact Hcent|]. split; [exact Hin|]. now rewrite Hcl.
Qed.

End MiniBatchEdges.


(* ================================================================== *)
(** * Further properties of [clusterSoft] *)
(* ================================================================== *)

Section SoftClusteringEdges.

Context {N : Number} {E : Elementary N}.
Variable random : nat -> num.

Lemma firstMismatch_Some dims : forall (vectors : list vec) i j len,
  firstMismatch vectors i dims = Some (j, len) ->
  i <= j /\
  exists v, nth_error vectors (j - i) = Some v /\ length v = len /\ len <> dims /\
            forall m w, m < j - i -> nth_error vectors m = Some w -> length w = dims.
Proof.
  induction vectors as [|v vectors IH]; intros i j len; simpl; [discriminate|].
  destruct (length v =? dims)%nat eqn:Hv.
  - apply Nat.eqb_eq in Hv. intros H. apply IH in H.
    destruct H as (Hij & w & Hw & Hlen & Hne & Hbefore).
    split; [lia|]. exists w.
    replace (j - i) with (S (j - S i)) by lia. simpl.
    split; [exact Hw|]. split; [exact Hlen|]. split; [exact Hne|].
    intros [|m] w' Hm Hw'; simpl in Hw'.
    + now injection Hw' as <-.
    + apply (Hbefore m); auto. lia.
  - apply Nat.eqb_neq in Hv. intros [= <- <-]. split; [lia|].
    exists v. rewrite Nat.sub_diag. simpl. repeat split; auto.
    intros m w Hm. lia.
Qed.

(** X10.  For two points or more, [clusterSoft] fails as soon as some
    vector has another length than the first: the error names the first
    such vector by its index, with its length and the expected one, no
    option is looked at and no random number is drawn. *)
Theorem clusterSoft_rejects_first_mismatch
        (e0 e1 : Embedding) (rest : list Embedding) (options : SoftClusterOptions)
        (pos : nat) :
  ~ Forall (fun e => length (vector e) = length (vector e0)) (e1 :: rest) ->
  exists i e,
    nth_error (e0 :: e1 :: rest) i = Some e /\
    1 <= i /\
    length (vector e) <> length (vector e0) /\
    (forall j e', j < i -> nth_error (e0 :: e1 :: rest) j = Some e' ->
                  length (vector e') = length (vector e0)) /\
    clusterSoft random (e0 :: e1 :: rest) options pos
    = Throw {| reason :=
                 String.append "Error: "
                   (mismatchMessage i (length (vector e)) (length (vector e0))) |} pos.
Proof.
  intros Hnot.
  destruct (firstMismatch (map vector (e1 :: rest)) 1 (length (vector e0)))
    as [[i len]|] eqn:Hmis.
  2:{ exfalso. apply Hnot. apply firstMismatch_None in Hmis.
      now rewrite Forall_map in Hmis. }
  pose proof (firstMismatch_Some _ _ _ Hmis) as (Hi & v & Hv & Hlen & Hne & Hbefore).
  rewrite nth_error_map in Hv.
  destruct (nth_error (e1 :: rest) (i - 1)) as [e|] eqn:He; [|discriminate].
  injection Hv as <-. subst len.
  exists i, e. split.
  { replace i with (S (i - 1)) by lia. exact He. }
  split; [exact Hi|]. split; [exact Hne|]. split.
  { intros [|j] e' Hj Hj'.
    - simpl in Hj'. now injection Hj' as <-.
    - simpl in Hj'. apply (Hbefore j); [lia|].
      rewrite nth_error_map. change (nth_error (e1 :: rest) j = Some e') in Hj'.
      now rewrite Hj'. }
  unfold clusterSoft, Effect_try. cbn [map tl].
  change (map vector (e1 :: rest)) with (vector e1 :: map vector rest) in Hmis.
  rewrite Hmis. reflexivity.
Qed.

(** X11.  For two points or more of one dimension, a [maxClusters] of zero
    or less is an error: no selection runs, and the clustering that should
    produce the centroids rejects the number of clusters before drawing
    anything. *)
Theorem clusterSoft_rejects_nonpositive_maxClusters
        (e0 e1 : Embedding) (rest : list Embedding) (options : SoftClusterOptions)
        (pos : nat) (m : Z) :
  Forall (fun e => length (vector e) = length (vector e0)) (e1 :: rest) ->
  maxClusters options = Some m -> (m <= 0)%Z ->
  clusterSoft random (e0 :: e1 :: rest) options pos
  = Throw {| reason := "Error: k must be positive" |} pos.
Proof.
  intros Hdims Hm Hle.
  assert (Hmis : firstMismatch (map vector (e1 :: rest)) 1 (length (vector e0)) = None).
  { apply firstMismatch_None. now rewrite Forall_map. }
  unfold clusterSoft, Effect_try. cbn [map tl].
  change (map vector (e1 :: rest)) with (vector e1 :: map vector rest) in Hmis.
  rewrite Hmis, Hm. cbn [default].
  set (n := Z.of_nat (length (vector e0 :: vector e1 :: map vector rest))).
  assert (Hmin : Z.min m n = m) by (unfold n; simpl length; lia).
  rewrite Hmin.
  replace (m >? 1)%Z with false by (symmetry; rewrite Z.gtb_ltb; apply Z.ltb_ge; lia).
  rewrite andb_false_r.
  unfold bind at 1, ret at 1. unfold bind at 1, softCluster, bind at 1, kMeans.
  cbn [length Nat.eqb].
  replace (m <=? 0)%Z with true by (symmetry; apply Z.leb_le; lia).
  reflexivity.
Qed.

(** X12.  When [useBIC] is off, or when [maxClusters] is 1 or less, no
    candidate is scored: the number of clusters is
    [min(maxClusters, n)], the only k-means run is the one that produces
    the returned centroids, and the metadata is absent (with [useBIC] off)
    or reports an empty list of scores. *)
Theorem clusterSoft_without_selection
        (e0 e1 : Embedding) (rest : list Embedding) (options : SoftClusterOptions)
        pos res pos' :
  clusterSoft random (e0 :: e1 :: rest) options pos = Return res pos' ->
  default true (useBIC options) = false \/ (default 10%Z (maxClusters options) <= 1)%Z ->
  numClusters res
  = Z.min (default 10%Z (maxClusters options)) (Z.of_nat (length (e0 :: e1 :: rest))) /\
  metadata res
  = (if default true (useBIC options)
     then Some {| bicScores := Some []; selectedK := Some (numClusters res) |}
     else None) /\
  exists asg,
    kMeans random (map vector (e0 :: e1 :: rest)) (numClusters res)
           (Some (default 100%Z (so_maxIterations options))) pos
    = Return (map cc_vector (centroids res), asg) pos'.
Proof.
  intros Hrun Hoff.
  destruct (@clusterSoft_inv N E random e0 e1 rest options pos res pos' Hrun)
    as (bestK & bestBIC & scores & p1 & cs & asg & _ & Hsel & Hk & ->).
  assert (Hcond : default true (useBIC options)
                  && (Z.min (default 10%Z (maxClusters options))
                            (Z.of_nat (length (e0 :: e1 :: rest))) >? 1)%Z = false).
  { destruct Hoff as [-> | Hle]; [reflexivity|].
    rewrite andb_false_iff. right. rewrite Z.gtb_ltb. apply Z.ltb_ge. lia. }
  rewrite Hcond in Hsel. destruct Hsel as (-> & -> & ->).
  cbn [numClusters metadata centroids]. split; [reflexivity|]. split; [reflexivity|].
  exists asg.
  assert (Hcs : map cc_vector
                    (mapi (fun vector idx => {| cc_clusterId := idx; cc_vector := vector |})
                          cs 0) = cs).
  { clear. generalize 0. induction cs as [|c cs IH]; intros i; simpl; auto.
    now rewrite IH. }
  rewrite Hcs. exact Hk.
Qed.

End SoftClusteringEdges.

(* ================================================================== *)
(** * The distance and the mean, on vectors of unequal length *)
(* ================================================================== *)

Lemma combine_firstn_same {A B} (a : list A) : forall (b : list B),
  combine a (firstn (length a) b) = combine a b.
Proof.
  induction a as [|x a IH]; intros [|y b]; simpl; auto. now rewrite IH.
Qed.

(** ** NaN propagates in both instances *)

Lemma float_nan_eq (x : float) : Prim2SF x = S754_nan -> x = PrimFloat.nan.
Proof.
  intros H. apply Prim2SF_inj. rewrite H. reflexivity.
Qed.

Lemma float_nan_laws : @NaNLaws float_number.
Proof.
  split; simpl.
  - intros x. apply float_nan_eq. rewrite sub_spec.
    change (Prim2SF PrimFloat.nan) with S754_nan. destruct (Prim2SF x); reflexivity.
  - reflexivity.
  - intros x. apply float_nan_eq. rewrite add_spec.
    change (Prim2SF PrimFloat.nan) with S754_nan. destruct (Prim2SF x); reflexivity.
  - intros x. apply float_nan_eq. rewrite add_spec.
    change (Prim2SF PrimFloat.nan) with S754_nan. destruct (Prim2SF x); reflexivity.
  - intros x. apply float_nan_eq. rewrite div_spec.
    change (Prim2SF PrimFloat.nan) with S754_nan. destruct (Prim2SF x); reflexivity.
  - reflexivity.
Qed.

Lemma exact_nan_laws : @NaNLaws exact_number.
Proof.
  split; simpl; try reflexivity; intros x; destruct x; reflexivity.
Qed.

Section UnequalLengths.

Context {N : Number} {L : NaNLaws}.

Local Open Scope js_scope.

Lemma reducei_stuck (b : vec) : forall (a : vec) i,
  reducei (fun sum val i => sum + pow2 (val - operand b i)) a i NaN = NaN.
Proof.
  induction a as [|x a IH]; intros i; simpl; auto.
  now rewrite add_NaN_l.
Qed.

Lemma reducei_past_the_end (b : vec) : forall (a : vec) i acc,
  i <= length b < i + length a ->
  reducei (fun sum val i => sum + pow2 (val - operand b i)) a i acc = NaN.
Proof.
  induction a as [|x a IH]; intros i acc Hi; simpl in *; [lia|].
  destruct (Nat.eq_dec i (length b)) as [-> | Hne].
  - assert (Hop : operand b (length b) = NaN).
    { unfold operand. apply nth_overflow. apply le_n. }
    rewrite Hop, sub_NaN. unfold pow2. rewrite sqr_NaN, add_NaN_r.
    apply reducei_stuck.
  - apply IH. lia.
Qed.

(** X14.  What the distance does with vectors of unequal length.  When the
    second vector is the longer one, its extra coordinates are ignored: the
    distance is that to its truncation.  When the second vector is the
    shorter one, a coordinate is missing and the distance is NaN, whatever
    the other coordinates are.  The two orders of the arguments thus
    disagree. *)
Theorem euclideanDistance_unequal_lengths (a b : vec) :
  (length a <= length b ->
   euclideanDistance a b = euclideanDistance a (firstn (length a) b)) /\
  (length b < length a -> euclideanDistance a b = NaN).
Proof.
  split.
  - intros Hlen. unfold euclideanDistance.
    assert (Hcut : length a <= length (firstn (length a) b)).
    { rewrite length_firstn. apply Nat.min_glb; [apply le_n | exact Hlen]. }
    rewrite (@reducei_combine N b a zero Hlen).
    rewrite (@reducei_combine N (firstn (length a) b) a zero Hcut).
    now rewrite combine_firstn_same.
  - intros Hlen. unfold euclideanDistance.
    rewrite reducei_past_the_end by lia. apply sqrt_NaN.
Qed.

Lemma sum_from_NaN (l : list num) : fold_left add l NaN = NaN.
Proof.
  induction l as [|y l IH]; simpl; auto. now rewrite add_NaN_l.
Qed.

Lemma sum_with_NaN (l : list num) : In NaN l -> forall acc, fold_left add l acc = NaN.
Proof.
  induction l as [|x l IH]; intros Hin acc; simpl; [destruct Hin|].
  destruct Hin as [-> | Hin].
  - rewrite add_NaN_r. apply sum_from_NaN.
  - now apply IH.
Qed.

(** X15.  What the mean does with vectors of unequal length.  The result
    has as many coordinates as the first vector; the coordinates that
    longer vectors have beyond that are dropped, and a coordinate that some
    vector lacks is NaN in the mean. *)
Theorem meanVector_unequal_lengths (v0 : vec) (rest : list vec) :
  length (meanVector (v0 :: rest)) = length v0 /\
  forall i v, i < length v0 -> In v rest -> length v <= i ->
              nth_error (meanVector (v0 :: rest)) i = Some NaN.
Proof.
  rewrite meanVector_is_mean. split.
  - now rewrite length_map, length_seq.
  - intros i v Hi Hin Hshort.
    rewrite nth_error_map, nth_error_seq.
    replace (i <? length v0)%nat with true by (symmetry; apply Nat.ltb_lt; lia).
    cbn [option_map]. f_equal. unfold sum.
    rewrite sum_with_NaN; [apply div_NaN|].
    apply in_map_iff. exists v. split; [|right; exact Hin].
    unfold operand. now apply nth_overflow.
Qed.

End UnequalLengths.






(* ================================================================== *)
(** * What [clusterSoft] emits *)
(* ================================================================== *)

Section SoftRange.

Context {N : Number} {E : Elementary N} {L : OrderLaws}.
Variable random : nat -> num.



End SoftRange.


Section SoftEmission.

Context {N : Number} {E : Elementary N} {L : OrderLaws}.
Variable random : nat -> num.

Local Open Scope js_scope.



End SoftEmission.

(** ** Rounding: probabilities that sum to more than 1 *)





(* ================================================================== *)
(** * The threshold only gates the match *)
(* ================================================================== *)

Lemma float_comparison_laws : @ComparisonLaws float_number.
Proof.
  split. simpl. intros a b. rewrite float_leb_iff, !float_eqb_iff.
  intros (Ha & Hb & _). auto.
Qed.

Lemma exact_comparison_laws : @ComparisonLaws exact_number.
Proof.
  split. simpl. intros a b H.
  destruct a as [a| | |], b as [b| | |]; simpl in *; try discriminate;
    split; try reflexivity; apply Reqb_true; reflexivity.
Qed.

Section Threshold.

Context {N : Number} {L : OrderLaws} {C : ComparisonLaws}.

Local Open Scope js_scope.

(** X23.  The threshold decides whether there is a match, never which one:
    when a cluster is matched at some threshold, it is matched at every
    lower threshold too, to the same concept and with the same
    confidence. *)
Theorem mapCluster_threshold_only_gates
        (cluster : ClusterInput) (concepts : list ConceptInput) (high low : num)
        (r : MapResult) :
  (low <=? high) = true ->
  mapCluster cluster concepts {| threshold := high |} = Success r ->
  matched r = true ->
  exists r',
    mapCluster cluster concepts {| threshold := low |} = Success r' /\
    matched r' = true /\
    conceptId r' = conceptId r /\
    confidence r' = confidence r.
Proof.
  intros Hle. unfold mapCluster, mapClusterBody. cbn [threshold].
  pose proof (@scanConcepts_invariant N (ci_centroid cluster) high L concepts [] None)
    as Hhigh.
  pose proof (@scanConcepts_invariant N (ci_centroid cluster) low L concepts [] None)
    as Hlow.
  cbv zeta in Hhigh, Hlow. simpl in Hhigh, Hlow.
  specialize (Hhigh ltac:(intros c [])). specialize (Hlow ltac:(intros c [])).
  destruct (scanConcepts (ci_centroid cluster) high concepts None) as [[cid s]|];
    cbn [Effect_try_mapper]; intros [= <-]; cbn [matched]; [intros _ | discriminate].
  destruct Hhigh as (p & c & Hp & Hid & Hs & Hge & Hmax & Hties).
  destruct (scanConcepts (ci_centroid cluster) low concepts None) as [[cid' s']|].
  - destruct Hlow as (p' & c' & Hp' & Hid' & Hs' & Hge' & Hmax' & Hties').
    eexists. split; [reflexivity|]. cbn [matched conceptId confidence].
    split; [reflexivity|].
    assert (Hnum : eqb s s = true) by (apply (leb_numbers _ _ Hge)).
    assert (Hnum' : eqb s' s' = true) by (apply (leb_numbers _ _ Hge')).
    assert (Hpp : p = p').
    { destruct (Nat.lt_trichotomy p p') as [Hlt | [Heq | Hgt]]; [|exact Heq|].
      - exfalso. pose proof (Hties' p c Hlt Hp) as Hno. rewrite <- Hs in Hno.
        pose proof (Hmax c' (nth_error_In _ _ Hp')) as Hnot. rewrite <- Hs' in Hnot.
        rewrite (not_ltb_leb s' s Hnum' Hnum Hnot) in Hno. discriminate.
      - exfalso. pose proof (Hties p' c' Hgt Hp') as Hno. rewrite <- Hs' in Hno.
        pose proof (Hmax' c (nth_error_In _ _ Hp)) as Hnot. rewrite <- Hs in Hnot.
        rewrite (not_ltb_leb s s' Hnum Hnum' Hnot) in Hno. discriminate. }
    subst p'. rewrite Hp in Hp'. injection Hp' as <-.
    split; congruence.
  - exfalso. specialize (Hlow c (nth_error_In _ _ Hp)). cbv beta in Hlow.
    rewrite <- Hs in Hlow.
    rewrite (leb_trans _ _ _ Hle Hge) in Hlow. discriminate.
Qed.

End Threshold.



(* ================================================================== *)
(** * A centroid at the origin matches nothing *)
(* ================================================================== *)



Lemma exact_null (x : xreal) : @null exact_number x <-> x = Fin 0 \/ x = XNaN.
Proof.
  unfold null. cbn [eqb exact_number zero of_Z]. split.
  - intros [H | H].
    + destruct x as [r| | |]; simpl in H; try discriminate.
      apply Reqb_true in H. left. now subst.
    + destruct x as [r| | |]; simpl in H; try discriminate; auto.
      exfalso. rewrite (proj2 (Reqb_true r r) eq_refl) in H. discriminate.
  - intros [-> | ->].
    + left. simpl. now apply Reqb_true.
    + right. reflexivity.
Qed.

Lemma exact_zero_laws : @ZeroLaws exact_number.
Proof.
  assert (H00 : Rltb 0 0 = false) by (apply Rltb_false; lra).
  split.
  - apply exact_null. now left.
  - intros a b Ha Hb. apply exact_null in Ha, Hb. apply exact_null.
    cbn [add exact_number].
    destruct Ha as [-> | ->], Hb as [-> | ->]; simpl; auto.
    left. f_equal. lra.
  - intros a b Ha. apply exact_null in Ha. apply exact_null.
    cbn [mul exact_number].
    destruct Ha as [-> | ->]; destruct b as [r| | |]; simpl; rewrite ?H00; auto.
    left. f_equal. lra.
  - intros a Ha. apply exact_null in Ha. apply exact_null.
    cbn [sqrt exact_number].
    destruct Ha as [-> | ->]; simpl; rewrite ?H00; auto.
    left. f_equal. apply sqrt_0.
  - intros a b Ha Hb. apply exact_null in Ha, Hb.
    cbn [eqb div exact_number].
    destruct Ha as [-> | ->], Hb as [-> | ->]; simpl;
      rewrite ?(proj2 (Reqb_true 0 0) eq_refl), ?H00; reflexivity.
Qed.

Section ZeroCentroid.

Context {N : Number} {Z : ZeroLaws} {C : ComparisonLaws}.

Local Open Scope js_scope.



End ZeroCentroid.

(* ================================================================== *)
(** * What the mini-batch centroids keep *)
(* ================================================================== *)

Section MiniBatchInvariant.

Context {N : Number}.
Variable random : nat -> num.

Local Open Scope js_scope.
Local Arguments Nat.modulo _ _ : simpl never.

(** A property of vectors that holds for the points and is kept by one
    step of the incremental update towards a point. *)
Variable P : vec -> Prop.
Variable vs : list vec.
Hypothesis P_points : forall v, In v vs -> P v.
Hypothesis P_move :
  forall c x m, P c -> In x vs -> P (moveToward (one / of_nat (S m)) c x).

Lemma seedRest_keeps : forall steps cs pos cs' pos',
  Forall P cs -> seedRest random vs steps cs pos = Return cs' pos' -> Forall P cs'.
Proof.
  induction steps as [|steps IH]; intros cs pos cs' pos' HP; simpl.
  - now intros [= <- <-].
  - unfold bind, Math_random.
    match goal with |- context [pickWeighted vs ?d 0 ?t] =>
      destruct (pickWeighted vs d 0 t) as [v|] eqn:Hpick end.
    + apply IH. apply Forall_app. split; auto. constructor; auto.
      apply P_points. eapply pickWeighted_In; eauto.
    + unfold spread_at.
      destruct (floor (random (S pos) * of_nat (length vs))) as [z|]; [|discriminate].
      destruct (z <? 0)%Z; [discriminate|].
      destruct (nth_error vs (Z.to_nat z)) as [v|] eqn:Hv; [|discriminate].
      simpl. apply IH. apply Forall_app. split; auto. constructor; auto.
      apply P_points. eapply nth_error_In; eauto.
Qed.

Lemma kMeansPlusPlusInit_keeps k pos cs pos' :
  kMeansPlusPlusInit random vs k pos = Return cs pos' -> Forall P cs.
Proof.
  unfold kMeansPlusPlusInit, bind, Math_random, spread_at.
  destruct (floor (random pos * of_nat (length vs))) as [z|]; [|discriminate].
  destruct (z <? 0)%Z; [discriminate|].
  destruct (nth_error vs (Z.to_nat z)) as [v|] eqn:Hv; [|discriminate].
  simpl. apply seedRest_keeps. constructor; auto.
  apply P_points. eapply nth_error_In; eauto.
Qed.

Lemma updateBatch_keeps : forall batch cs counts cs' counts',
  Forall P cs -> updateBatch vs batch cs counts = Ok (cs', counts') -> Forall P cs'.
Proof.
  induction batch as [|[vi ci] batch IH]; intros cs counts cs' counts' HP; simpl.
  - now intros [= <- <-].
  - unfold lookup at 1. destruct (nth_error counts ci) as [count|]; [|discriminate].
    simpl. unfold lookup at 1.
    destruct (nth_error cs ci) as [c|] eqn:Hc; [|discriminate].
    simpl. unfold lookupZ, lookup.
    destruct (vi <? 0)%Z; [discriminate|].
    destruct (nth_error vs (Z.to_nat vi)) as [x|] eqn:Hx; [|discriminate].
    simpl. apply IH. apply Forall_set_nth; auto.
    apply P_move.
    + rewrite Forall_forall in HP. apply HP. eapply nth_error_In; eauto.
    + eapply nth_error_In; eauto.
Qed.

Lemma miniBatchLoop_keeps fuel k b : forall steps iter cs counts prev pos cs' pos',
  Forall P cs ->
  miniBatchLoop random fuel vs k b iter steps cs counts prev pos = Return cs' pos' ->
  Forall P cs'.
Proof.
  induction steps as [|steps IH]; intros iter cs counts prev pos cs' pos' HP; simpl.
  - now intros [= <- <-].
  - unfold bind at 1.
    destruct (sampleBatch random fuel (length vs) b [] pos) as [batch p1| |];
      try discriminate.
    unfold bind at 1.
    match goal with |- context [lift ?r] => destruct r as [basg|] end;
      simpl; [|discriminate].
    unfold bind at 1.
    destruct (updateBatch vs (combine batch basg) cs counts) as [[cs1 counts1]|] eqn:Hup;
      simpl; [|discriminate].
    pose proof (@updateBatch_keeps _ _ _ _ _ HP Hup) as HP1.
    destruct ((iter mod 10 =? 0) && (0 <? iter))%nat.
    + unfold bind at 1.
      destruct (centroidDelta prev cs1) as [d|]; simpl; [|discriminate].
      destruct (d <? lit 1 (-4)).
      * now intros [= <- <-].
      * now apply IH.
    + now apply IH.
Qed.

Lemma miniBatchKMeans_keeps fuel k batchSize maxIterations pos cs asg pos' :
  miniBatchKMeans random fuel vs k batchSize maxIterations pos = Return (cs, asg) pos' ->
  Forall P cs.
Proof.
  unfold miniBatchKMeans.
  destruct (length vs =? 0)%nat; [discriminate|].
  destruct (k <=? 0)%Z; [discriminate|].
  destruct (k >? Z.of_nat (length vs))%Z; [discriminate|].
  unfold bind at 1.
  destruct (kMeansPlusPlusInit random vs k pos) as [seeds p1| |] eqn:Hseed;
    try discriminate.
  apply kMeansPlusPlusInit_keeps in Hseed.
  unfold bind at 1.
  match goal with |- context [miniBatchLoop random fuel vs ?k' ?b ?i ?s ?c ?n ?p] =>
    destruct (miniBatchLoop random fuel vs k' b i s c n p p1) as [cs1 p2| |] eqn:Hloop
  end; try discriminate.
  apply miniBatchLoop_keeps in Hloop; [|exact Hseed].
  unfold bind at 1.
  match goal with |- context [lift ?r] => destruct r end; simpl; [|discriminate].
  unfold ret. now intros [= <- <- <-].
Qed.

End MiniBatchInvariant.








Lemma Forall2_impl_in {A B} (R1 R2 : A -> B -> Prop) (l : list A) (l' : list B) :
  (forall x y, In x l -> R1 x y -> R2 x y) -> Forall2 R1 l l' -> Forall2 R2 l l'.
Proof.
  intros H HF. induction HF as [|x y l l' Hxy HF IH]; constructor.
  - apply H; [left; reflexivity | exact Hxy].
  - apply IH. intros x' y' Hin. apply H. right. exact Hin.
Qed.

(** ** The final pass *)

Section MiniBatchFinalPass.

Context {N : Number} {L : OrderLaws}.
Variable random : nat -> num.

(** C7.  After the mini-batch loop, [clusterMiniBatch] assigns every input
    point, sampled or not, to the nearest of the centroids it returns, the
    final ones (no centroid is strictly nearer, ties go to the lowest
    index), so the assignment list has exactly one entry per input point,
    in input order.  Between vectors of one length the distance is the
    Euclidean distance of the specification; when the points have one
    dimension, so have the centroids, and "nearest" is nearest by that
    distance.  The run returns whenever the random source is fair enough
    for the batch sampling to end. *)
Theorem clusterMiniBatch_assigns_every_point
        (embeddings : list Embedding) (k : Z) (batchSize maxIterations : option Z)
        (window fuel pos : nat) :
  (0 < k <= Z.of_nat (length embeddings))%Z ->
  valid_draws random (length embeddings) ->
  recurrent_draws random (length embeddings) window ->
  length embeddings * window <= fuel ->
  exists res pos',
    clusterMiniBatch random fuel embeddings
      {| mb_k := k; mb_batchSize := batchSize; mb_maxIterations := maxIterations |} pos
    = Return res pos' /\
    length (clusters res) = Z.to_nat k /\
    length (assignments res) = length embeddings /\
    map ca_id (assignments res) = map id embeddings /\
    Forall2 (is_nearest (map cl_centroid (clusters res)) (Z.to_nat k))
            (map vector embeddings) (map ca_clusterId (assignments res)) /\
    (forall a b : vec, length a = length b -> euclideanDistance a b = euclidean a b) /\
    forall d, (forall e, In e embeddings -> length (vector e) = d) ->
      Forall (fun c => length c = d) (map cl_centroid (clusters res)) /\
      Forall2 (nearest_under euclidean (map cl_centroid (clusters res)) (Z.to_nat k))
              (map vector embeddings) (map ca_clusterId (assignments res)).
Proof.
  intros Hk Hv Hrec Hfuel.
  destruct (@miniBatchKMeans_ok N random (map vector embeddings) window fuel
              (Z.min (default 100%Z batchSize) (Z.of_nat (length embeddings))))
    with (k := k) (batchSize := Some (default 100%Z batchSize))
         (maxIterations := Some (default 100%Z maxIterations)) (pos := pos)
    as (cs & asg & pos' & Hrun & Hcs & Hnear & Hasg & Hlt);
    rewrite ?length_map; auto; try lia.
  rewrite length_map in Hasg.
  destruct (@buildResult_ok N embeddings cs asg (Z.to_nat k) Hcs Hasg Hlt)
    as (res & Hres & _ & Hcent & _ & Hcaid & Hcl & _).
  assert (Hscan : Forall2 (is_nearest cs (Z.to_nat k)) (map vector embeddings) asg).
  { apply mapR_inv in Hnear. eapply Forall2_impl; [|exact Hnear].
    intros v a Ha. simpl in Ha.
    destruct (@nearest_is_nearest N L cs (Z.to_nat k) v) as (idx & Hidx & Hi); [lia..|].
    congruence. }
  exists res, pos'. split.
  { unfold clusterMiniBatch, Effect_try. simpl. unfold bind at 1.
    rewrite Hrun, Hres. reflexivity. }
  split; [rewrite <- (length_map cl_centroid), Hcent; exact Hcs|].
  split; [rewrite <- (length_map ca_id), Hcaid; apply length_map|].
  split; [exact Hcaid|]. rewrite Hcent, Hcl.
  split; [exact Hscan|].
  split; [intros a b Hab; apply euclideanDistance_euclidean, Nat.eq_le_incl, Hab|].
  intros d Hd.
  assert (Hdim : Forall (fun c : vec => length c = d) cs).
  { apply (@miniBatchKMeans_keeps N random (fun c : vec => length c = d)
             (map vector embeddings)) in Hrun; [exact Hrun| |].
    - intros v Hin. apply in_map_iff in Hin. destruct Hin as (e & <- & He). now apply Hd.
    - intros c x m Hc _. rewrite moveToward_length. exact Hc. }
  split; [exact Hdim|].
  apply Forall2_impl_in with (R1 := is_nearest cs (Z.to_nat k)); [|exact Hscan].
  intros v a Hin Ha. apply is_nearest_euclidean; [|exact Ha].
  intros c Hc. rewrite Forall_forall in Hdim. rewrite (Hdim c Hc).
  apply in_map_iff in Hin. destruct Hin as (e & <- & He). now apply Hd.
Qed.

End MiniBatchFinalPass.

(* ================================================================== *)
(** * Instances on concrete inputs *)
(* ================================================================== *)

Example cluster_single_centroid_is_seed_witness :
  exists e res,
    nth_error four_points 2 = Some e /\
    cluster steady four_points {| co_k := 1; co_maxIterations := None |} 0
    = Return res 1 /\
    map cl_centroid (clusters res) = [vector e] /\
    map cl_size (clusters res) = [4].
Proof.
  destruct (@cluster_single_centroid_is_seed float_number steady four_points None 0 2%Z
              eq_refl ltac:(simpl; lia))
    as (e & res & H1 & H2 & H3 & H4 & _).
  exists e, res. auto.
Defined.

Example cluster_without_iterations_witness :
  exists res pos',
    cluster steady four_points {| co_k := 2; co_maxIterations := Some 0%Z |} 0
    = Return res pos' /\
    map cl_size (clusters res) = [4; 0].
Proof.
  destruct (@cluster_without_iterations float_number steady four_points 2 0 0
              ltac:(simpl; lia) ltac:(lia) steady_valid)
    as (seeds & res & pos' & _ & Hrun & _ & _ & _ & Hsizes).
  exists res, pos'. split; [exact Hrun | exact Hsizes].
Defined.

Example kMeansPlusPlusInit_seeds_witness :
  exists cs pos',
    kMeansPlusPlusInit steady (map vector four_points) 2 0 = Return cs pos' /\
    length cs = 2 /\ 2 <= pos' <= 3.
Proof.
  destruct (@kMeansPlusPlusInit_seeds float_number steady (map vector four_points) 2 0
              steady_valid ltac:(lia))
    as (cs & pos' & Hrun & Hlen & _ & Hpos).
  exists cs, pos'. split; [exact Hrun|]. split; [exact Hlen|]. simpl in Hpos. lia.
Defined.

Example kMeansLoop_stops_witness :
  (mapR (nearest [fvec [0]; fvec [1]]%float 2) [fvec [0]; fvec [1]]%float = Ok [0; 1] /\
   forall iters',
     kMeansLoop [fvec [0]; fvec [1]]%float 2 iters' [fvec [0]; fvec [1]]%float [0; 1]
     = Ok ([fvec [0]; fvec [1]]%float, [0; 1]))
  \/ (5 = 0 /\ [fvec [0]; fvec [1]]%float = [fvec [0]; fvec [1]]%float /\ [0; 1] = [0; 0])
  \/ (exists previous,
        mapR (nearest previous 2) [fvec [0]; fvec [1]]%float = Ok [0; 1] /\
        [fvec [0]; fvec [1]]%float
        = updateCentroids [fvec [0]; fvec [1]]%float 2 [0; 1] previous).
Proof.
  apply (@kMeansLoop_stops float_number [fvec [0]; fvec [1]]%float 2 5
                           [fvec [0]; fvec [1]]%float [0; 0]
                           [fvec [0]; fvec [1]]%float [0; 1]).
  reflexivity.
Defined.


Example cluster_keeps_dimension_witness :
  exists res pos',
    cluster steady four_points {| co_k := 2; co_maxIterations := None |} 0
    = Return res pos' /\
    Forall (fun c => length (cl_centroid c) = 3) (clusters res).
Proof.
  apply (@cluster_keeps_dimension float_number steady four_points 2 None 0 3
           ltac:(simpl; lia) steady_valid).
  repeat constructor.
Defined.

Example sampleBatch_draws_distinct_witness :
  exists batch pos',
    sampleBatch alternating 4 2 2 [] 0 = Return batch pos' /\
    Z.of_nat (length batch) = 2%Z /\ NoDup batch /\
    In 0%Z batch /\ In 1%Z batch.
Proof.
  destruct (@sampleBatch_draws_distinct float_number alternating 2 2 2 4 0
              ltac:(simpl; lia) alternating_valid alternating_recurrent ltac:(lia))
    as (batch & pos' & Hrun & Hlen & Hnd & _ & _ & Hall).
  exists batch, pos'. split; [exact Hrun|]. split; [exact Hlen|]. split; [exact Hnd|].
  split; [apply (Hall eq_refl 0) | apply (Hall eq_refl 1)]; lia.
Defined.

Example clusterMiniBatch_empty_batches_witness :
  exists seeds res pos',
    kMeansPlusPlusInit steady (map vector four_points) 2 0 = Return seeds pos' /\
    clusterMiniBatch steady 0 four_points
      {| mb_k := 2; mb_batchSize := Some 0%Z; mb_maxIterations := None |} 0
    = Return res pos' /\
    map cl_centroid (clusters res) = seeds.
Proof.
  destruct (@clusterMiniBatch_empty_batches float_number steady four_points 2 0 None 0 0
              ltac:(simpl; lia) ltac:(lia) steady_valid)
    as (seeds & res & pos' & H1 & H2 & H3 & _).
  exists seeds, res, pos'. auto.
Defined.

Example clusterSoft_rejects_first_mismatch_witness :
  exists i e,
    nth_error [xpoint "a" [1; 2; 3]%R; xpoint "b" [1; 2]%R] i = Some e /\
    @clusterSoft exact_number still exact_elementary
                 [xpoint "a" [1; 2; 3]%R; xpoint "b" [1; 2]%R] default_options 0
    = Throw {| reason :=
                 String.append "Error: " (mismatchMessage i (length (vector e)) 3) |} 0.
Proof.
  destruct (@clusterSoft_rejects_first_mismatch exact_number exact_elementary still
              (xpoint "a" [1; 2; 3]%R) (xpoint "b" [1; 2]%R) [] default_options 0)
    as (i & e & H1 & _ & _ & _ & H2).
  { intros H. inversion H as [|? ? Hlen _]. discriminate Hlen. }
  exists i, e. split; [exact H1 | exact H2].
Defined.

Example clusterSoft_rejects_nonpositive_maxClusters_witness :
  @clusterSoft exact_number still exact_elementary two_points no_cluster_options 0
  = Throw {| reason := "Error: k must be positive" |} 0.
Proof.
  apply (@clusterSoft_rejects_nonpositive_maxClusters exact_number exact_elementary still
           {| id := "a"; vector := [Fin 0] : @vec exact_number |}
           {| id := "b"; vector := [Fin 1] : @vec exact_number |} []
           no_cluster_options 0 0%Z).
  - repeat constructor.
  - reflexivity.
  - lia.
Defined.

Lemma two_points_run_without_BIC :
  exists res pos',
    @clusterSoft exact_number still exact_elementary two_points no_BIC_options 0
    = Return res pos'.
Proof.
  destruct (@clusterSoft_returns exact_number exact_elementary exact_order_laws still
              (fun _ => True)
              {| id := "a"; vector := [Fin 0] : @vec exact_number |}
              {| id := "b"; vector := [Fin 1] : @vec exact_number |} []
              no_BIC_options 0)
    as (bestK & scores & cs & pos' & Hrun & _); auto.
  - repeat constructor.
  - apply still_valid. simpl. lia.
  - simpl. lia.
  - eauto.
Qed.

Example clusterSoft_without_selection_witness :
  exists res pos',
    @clusterSoft exact_number still exact_elementary two_points no_BIC_options 0
    = Return res pos' /\
    numClusters res = 2%Z /\ metadata res = None.
Proof.
  destruct two_points_run_without_BIC as (res & pos' & Hrun).
  destruct (@clusterSoft_without_selection exact_number exact_elementary still
              {| id := "a"; vector := [Fin 0] : @vec exact_number |}
              {| id := "b"; vector := [Fin 1] : @vec exact_number |} []
              no_BIC_options 0 res pos' Hrun (or_introl eq_refl))
    as (Hk & Hmeta & _).
  exists res, pos'. split; [exact Hrun|]. split; [exact Hk | exact Hmeta].
Defined.

Example euclideanDistance_unequal_lengths_witness :
  euclideanDistance (fvec [1; 2; 3]%float) (fvec [1; 2]%float) = fnum PrimFloat.nan /\
  euclideanDistance (fvec [1; 2]%float) (fvec [1; 2; 3]%float)
  = euclideanDistance (fvec [1; 2]%float) (fvec [1; 2]%float).
Proof.
  split.
  - apply (proj2 (@euclideanDistance_unequal_lengths float_number float_nan_laws
                    (fvec [1; 2; 3]%float) (fvec [1; 2]%float))).
    simpl. lia.
  - apply (proj1 (@euclideanDistance_unequal_lengths float_number float_nan_laws
                    (fvec [1; 2]%float) (fvec [1; 2; 3]%float))).
    simpl. lia.
Defined.

Example meanVector_unequal_lengths_witness :
  nth_error (meanVector [fvec [1; 2; 3]%float; fvec [1; 2]%float]) 2
  = Some (fnum PrimFloat.nan).
Proof.
  apply (proj2 (@meanVector_unequal_lengths float_number float_nan_laws
                  (fvec [1; 2; 3]%float) [fvec [1; 2]%float]) 2 (fvec [1; 2]%float)).
  - simpl. lia.
  - left. reflexivity.
  - simpl. lia.
Defined.

Example mapCluster_threshold_only_gates_witness :
  exists r',
    mapCluster hooks_cluster [hooks_concept] {| threshold := fnum 0.5%float |}
    = Success r' /\
    matched r' = true /\
    conceptId r' = Some "programming/react-hooks".
Proof.
  destruct (@mapCluster_threshold_only_gates float_number float_order_laws
              float_comparison_laws hooks_cluster [hooks_concept]
              (fnum 0.8%float) (fnum 0.5%float)
              {| mr_clusterId := 1%Z; matched := true;
                 conceptId := Some "programming/react-hooks";
                 confidence := Some (fnum 1%float); suggestedLabel := None |}
              eq_refl eq_refl eq_refl)
    as (r' & H1 & H2 & H3 & _).
  exists r'. split; [exact H1|]. split; [exact H2 | exact H3].
Defined.

Example clusterMiniBatch_assigns_every_point_witness :
  exists res pos',
    clusterMiniBatch alternating 4 plane_points
      {| mb_k := 2; mb_batchSize := None; mb_maxIterations := Some 3%Z |} 0
    = Return res pos' /\
    length (assignments res) = 2 /\
    Forall2 (nearest_under euclidean (map cl_centroid (clusters res)) 2)
            (map vector plane_points) (map ca_clusterId (assignments res)).
Proof.
  destruct (@clusterMiniBatch_assigns_every_point float_number float_order_laws
              alternating plane_points 2 None (Some 3%Z) 2 4 0
              ltac:(simpl; lia) alternating_valid alternating_recurrent ltac:(simpl; lia))
    as (res & pos' & Hrun & _ & Hlen & _ & _ & _ & Hd).
  exists res, pos'. split; [exact Hrun|]. split; [exact Hlen|].
  destruct (Hd 2) as [_ H]; [|exact H].
  intros e [<- | [<- | []]]; reflexivity.
Defined.



Example cluster_identical_points_witness :
  exists res pos',
    cluster steady same_points
            {| co_k := 3; co_maxIterations := None |} 0
    = Return res pos' /\
    map cl_centroid (clusters res) = repeat (fvec [1]%float) 3 /\
    map cl_size (clusters res) = [4; 0; 0].
Proof.
  destruct (@cluster_identical_points float_number float_order_laws steady (fvec [1]%float)
              same_points 3 None 0)
    as (res & pos' & H1 & H2 & H3 & _).
  - repeat constructor.
  - simpl. lia.
  - exact steady_valid.
  - exists res, pos'. auto.
Defined.
